(** * Grid mockup generator: layout, snapping and render dispatch

    A shallow embedding of the layout and composition engine:
    - [FreeformCanvas]  components/FreeformCanvas.tsx (snap search, drag frame)
    - [FreeformDoubles] the snap search and the handlers that run it, with
                        the rounding of double-precision arithmetic
    - [Types]           types.ts (layout modes, worker payloads)
    - [Compositor]      the context operations and the helpers the three
                        draw routines share
    - [App]             the application component (interactive draw, mode switch)
    - [UIWorker]        the preview worker
    - [ExportWorker]    export.worker.ts
    The definitions come first, the properties after them.

    JavaScript numbers are modelled as exact rationals [Q]; two numbers
    are the same number when they are [Qeq] ([==]).  Array lengths and
    loop indices are integers [Z].  Where the rounding of the engine's
    arithmetic matters, for the threshold test of the snap search, the
    code is read a second time in [FreeformDoubles] with every operation
    rounded to the nearest double ([Float64.fl]). *)

From Stdlib Require Import ZArith QArith Qabs Qround Lia Lqa List String Bool.
From Stdlib Require Import Permutation Qpower.
Import ListNotations.

Local Open Scope string_scope.
Local Open Scope list_scope.
Local Open Scope Z_scope.
Local Open Scope Q_scope.

(** ** JavaScript [Math] on rationals *)

Module JSMath.

(** [a < b] as a boolean. *)
Definition Qlt_bool (a b : Q) : bool := negb (Qle_bool b a).

(** [Math.max(a, b)] *)
Definition max (a b : Q) : Q := if Qle_bool a b then b else a.

(** [Math.abs(a)] *)
Definition abs (a : Q) : Q := Qabs a.

(** [Math.round(a)]: the nearest integer, halves going up. *)
Definition round (a : Q) : Z := Qfloor (a + (1 # 2)).

(** [Math.ceil(Math.sqrt(n))] for an array length [n]: the square root of
    a perfect square is exact, any other root lies strictly between two
    integers. *)
Definition ceil_sqrt (n : Z) : Z :=
  let s := Z.sqrt n in
  if (s * s =? n)%Z then s else (s + 1)%Z.

(** [Math.ceil(n / d)] for integers [n] and [d]. *)
Definition ceil_div (n d : Z) : Z := Qceiling (inject_Z n / inject_Z d).

(** [for (let i = 0; i < n; i++)]: the values taken by [i]. *)
Definition range (n : Z) : list Z := map Z.of_nat (seq 0 (Z.to_nat n)).

(** [arr.forEach((a, i) => ...)] / [arr.map((a, i) => ...)], collecting
    what each call produces. *)
Fixpoint mapi_from {A B : Type} (i : Z) (f : A -> Z -> B) (l : list A) : list B :=
  match l with
  | [] => []
  | a :: r => f a i :: mapi_from (i + 1)%Z f r
  end.

Definition mapi {A B : Type} (f : A -> Z -> B) (l : list A) : list B :=
  mapi_from 0%Z f l.

(** [arr.length] *)
Definition len {A : Type} (l : list A) : Z := Z.of_nat (List.length l).

(** [Math.min(a, b)] *)
Definition min (a b : Q) : Q := if Qle_bool a b then a else b.

(** [Math.sign(a)] *)
Definition sign (a : Q) : Q :=
  if Qlt_bool 0 a then 1 else if Qlt_bool a 0 then -(1) else 0.

End JSMath.

(** ** components/FreeformCanvas.tsx *)

(** The arithmetic of this module is exact; [FreeformDoubles] below reads
    the same functions with the rounding of the engine. *)
Module FreeformCanvas.

Record Item := {
  item_id : string;
  item_naturalWidth : Z;
  item_naturalHeight : Z;
  item_x : Q;
  item_y : Q;
  item_scale : Q;
  item_rotation : Q
}.

(** The state and refs captured by the [getSnapped] closure. *)
Record Config := {
  size_w : Q;
  size_h : Q;
  snapGrid : bool;
  gridSize : Q;
  showCells : bool;
  rows : Z;
  cols : Z;
  cellGapX : Q;
  cellGapY : Q;
  snapSmart : bool;
  items : list Item;        (* itemsRef.current *)
  activeId : option string  (* activeIdRef.current *)
}.

Record Snapped := {
  snapped_x : Q;
  snapped_y : Q;
  guidesX : list Q;
  guidesY : list Q
}.

Definition thresh : Q := 8.

(** [it.id === activeIdRef.current] *)
Definition is_active (c : Config) (it : Item) : bool :=
  match activeId c with
  | Some a => String.eqb (item_id it) a
  | None => false
  end.

Definition cellsOn (c : Config) : bool :=
  showCells c && (0 <? rows c)%Z && (0 <? cols c)%Z.

(** What one axis pushes for the cells: [x, cx, x + cellW] for every
    [r] and [c] of the nested loop. *)
Definition cellCandX (c : Config) : list Q :=
  if cellsOn c then
    let cellW := (size_w c - (inject_Z (cols c) + 1) * cellGapX c) / inject_Z (cols c) in
    flat_map (fun _r : Z =>
      flat_map (fun cc : Z =>
        let x := cellGapX c + inject_Z cc * (cellW + cellGapX c) in
        let cx := x + cellW / 2 in
        [x; cx; x + cellW]) (JSMath.range (cols c))) (JSMath.range (rows c))
  else [].

Definition cellCandY (c : Config) : list Q :=
  if cellsOn c then
    let cellH := (size_h c - (inject_Z (rows c) + 1) * cellGapY c) / inject_Z (rows c) in
    flat_map (fun r : Z =>
      flat_map (fun _cc : Z =>
        let y := cellGapY c + inject_Z r * (cellH + cellGapY c) in
        let cy := y + cellH / 2 in
        [y; cy; y + cellH]) (JSMath.range (cols c))) (JSMath.range (rows c))
  else [].

Definition othersOn (c : Config) : bool :=
  snapSmart c && (1 <? JSMath.len (items c))%Z.

Definition itemCand (proj : Item -> Q) (c : Config) : list Q :=
  if othersOn c then
    map proj (filter (fun it => negb (is_active c it)) (items c))
  else [].

(** [Math.round(n / gridSize) * gridSize] *)
Definition gridLine (c : Config) (n : Q) : Q :=
  inject_Z (JSMath.round (n / gridSize c)) * gridSize c.

Definition gridCand (c : Config) (n : Q) : list Q :=
  if snapGrid c then [gridLine c n] else [].

(** [candX] and [candY] as they stand when the search loops start. *)
Definition candX (c : Config) (nx : Q) : list Q :=
  [0; size_w c / 2; size_w c] ++ gridCand c nx ++ cellCandX c ++ itemCand item_x c.

Definition candY (c : Config) (ny : Q) : list Q :=
  [0; size_h c / 2; size_h c] ++ gridCand c ny ++ cellCandY c ++ itemCand item_y c.

(** The loop variables [bestDX, sx, gx] (resp. [bestDY, sy, gy]). *)
Record Best := {
  bestD : Q;
  snappedTo : Q;
  guide : option Q
}.

(** One iteration of [for (const tx of candX)]. *)
Definition step (n : Q) (b : Best) (t : Q) : Best :=
  let d := JSMath.abs (t - n) in
  if JSMath.Qlt_bool d (bestD b) && Qle_bool d thresh
  then {| bestD := d; snappedTo := t; guide := Some t |}
  else b.

Definition nearest (n : Q) (cands : list Q) : Best :=
  fold_left (step n) cands {| bestD := thresh + 1; snappedTo := n; guide := None |}.

Definition guideList (b : Best) : list Q :=
  match guide b with
  | Some g => [g]
  | None => []
  end.

Definition getSnapped (c : Config) (nx ny : Q) (ignoreSnap : bool) : Snapped :=
  if ignoreSnap then
    {| snapped_x := nx; snapped_y := ny; guidesX := []; guidesY := [] |}
  else
    let bx := nearest nx (candX c nx) in
    let by_ := nearest ny (candY c ny) in
    {| snapped_x := snappedTo bx; snapped_y := snappedTo by_;
       guidesX := guideList bx; guidesY := guideList by_ |}.

(** The refs written by the mouse listeners. *)
Record DragRefs := {
  dragging : bool;               (* draggingRef.current *)
  dragOffset : option (Q * Q);   (* dragOffsetRef.current *)
  lastGuides : list Q * list Q   (* lastGuidesRef.current: vx, vy *)
}.

Definition moveItem (id : string) (nx ny : Q) (p : Item) : Item :=
  if String.eqb (item_id p) id then
    {| item_id := item_id p;
       item_naturalWidth := item_naturalWidth p;
       item_naturalHeight := item_naturalHeight p;
       item_x := nx; item_y := ny;
       item_scale := item_scale p; item_rotation := item_rotation p |}
  else p.

(** The position a drag frame gives the active item: [x - dx, y - dy],
    passed through the snap search when any of the three toggles is on. *)
Definition dragTarget (c : Config) (x y dx dy : Q) (altDown : bool) : Snapped :=
  let nx := x - dx in
  let ny := y - dy in
  if snapSmart c || snapGrid c || showCells c then
    getSnapped c nx ny altDown
  else
    {| snapped_x := nx; snapped_y := ny; guidesX := []; guidesY := [] |}.

(** [onMouseMove] at canvas coordinates [(x, y)]: the new item list and
    refs; nothing changes unless a drag is in progress. *)
Definition onMouseMove (c : Config) (r : DragRefs) (x y : Q) (altDown : bool)
  : list Item * DragRefs :=
  match dragging r, dragOffset r, activeId c with
  | true, Some (dx, dy), Some id =>
      if String.eqb id EmptyString then (items c, r)   (* !activeIdRef.current *)
      else
        let s := dragTarget c x y dx dy altDown in
        let r' :=
          if snapSmart c || snapGrid c || showCells c then
            {| dragging := dragging r; dragOffset := dragOffset r;
               lastGuides := (guidesX s, guidesY s) |}
          else r in
        (map (moveItem id (snapped_x s) (snapped_y s)) (items c), r')
  | _, _, _ => (items c, r)
  end.

End FreeformCanvas.

(** ** types.ts *)

Module Types.

(** [LayoutMode], a union of string literals. *)
Inductive LayoutMode :=
| grid
| left_big
| right_big
| top_big
| bottom_big
| single_blur
| grid_square
| justified.

(** The string each member is at run time. *)
Definition LayoutMode_string (m : LayoutMode) : string :=
  match m with
  | grid => "grid"
  | left_big => "left-big"
  | right_big => "right-big"
  | top_big => "top-big"
  | bottom_big => "bottom-big"
  | single_blur => "single-blur"
  | grid_square => "grid-square"
  | justified => "justified"
  end.

Definition LayoutMode_all : list LayoutMode :=
  [grid; left_big; right_big; top_big; bottom_big; single_blur; grid_square; justified].

(** [ImageState]; the [File] it carries is opaque to the engine. *)
Record ImageState := {
  id : string;
  url : string
}.

Record TextLayer := {
  layer_id : string;
  layer_text : string;
  layer_x : Q;
  layer_y : Q;
  fontSize : Q;
  fontFamily : string;
  color : string;
  layer_rotation : Q;
  shadow : bool;
  backgroundColor : string;
  backgroundOpacity : Q;
  padding : Q
}.

Inductive WatermarkPosition :=
| top_left
| top_right
| bottom_left
| bottom_right
| center.

Record WatermarkState := {
  wm_id : string;
  wm_url : string;
  opacity : Q;
  size : Q;               (* percentage of canvas width *)
  position : WatermarkPosition
}.

Inductive BackgroundType := type_color | type_image.

(** [string | ImageState | null] *)
Inductive BackgroundValue :=
| value_string (s : string)
| value_image (im : ImageState)
| value_null.

Record BackgroundState := {
  bg_type : BackgroundType;
  bg_value : BackgroundValue
}.

(** An [ImageBitmap]: only its intrinsic size is read. *)
Record ImageBitmap := {
  width : Z;
  height : Z
}.

Record WorkerBitmapsPayload := {
  bitmaps_grid : list ImageBitmap;
  bitmaps_watermark : option ImageBitmap;
  bitmaps_background : option ImageBitmap
}.

(** The [state] of a worker message; [layoutMode] is whatever string
    the sender put there. The preview worker reads no [textLayers]. *)
Record WorkerState := {
  layoutMode : string;
  images : list ImageState;
  textLayers : list TextLayer;
  watermark : option WatermarkState;
  background : BackgroundState;
  gap : Q;
  globalZoom : Q;
  mainZoom : Q;
  bgBlur : Q;
  bgOpacity : Q
}.

End Types.

(** ** What a draw routine does to its 2D context *)

Module Compositor.
Import Types.

Record Rect := {
  rect_x : Q;
  rect_y : Q;
  rect_w : Q;
  rect_h : Q
}.

(** Context operations, at the granularity the draw routines use them. *)
Inductive Op :=
| clearRect (x y w h : Q)
| fillRect (fillStyle : string) (x y w h : Q)
| fillText (fillStyle font text : string) (x y : Q)
(* save; rect(clip); clip; drawImage(img, dest); restore *)
| drawClipped (img : ImageBitmap) (clip dest : Rect)
(* drawImage(img, dest) under globalAlpha and a blur filter *)
| drawPlain (img : ImageBitmap) (dest : Rect) (alpha blur : Q)
(* one text layer: translate, rotate, plate, shadow, fillText *)
| drawLayer (l : TextLayer) (x y scaledFontSize scaledPadding : Q).

(** What can be thrown. *)
Inductive Thrown :=
| ErrorObject (message : string)   (* error instanceof Error *)
| OtherValue (asString : string).  (* String(error) *)

(** What a routine has painted, and whether it then threw. *)
Record Outcome := {
  painted : list Op;
  thrown : option Thrown
}.

Definition done (ops : list Op) : Outcome := {| painted := ops; thrown := None |}.

Definition andThen (a b : Outcome) : Outcome :=
  match thrown a with
  | Some _ => a
  | None => {| painted := painted a ++ painted b; thrown := thrown b |}
  end.

(** The calls a layout case issues, in order. *)
Inductive Call :=
(* drawImage(img, x, y, w, h, extraZoom), the local helper; [img] may be
   an out-of-range array element *)
| callDrawImage (img : option ImageBitmap) (x y w h extraZoom : Q)
(* ctx.drawImage(img, x, y, w, h) inside the blurred background pass *)
| callTile (img : ImageBitmap) (x y w h alpha blur : Q).

(** The rectangle a call is given. *)
Definition placement (c : Call) : Rect :=
  match c with
  | callDrawImage _ x y w h _ => {| rect_x := x; rect_y := y; rect_w := w; rect_h := h |}
  | callTile _ x y w h _ _ => {| rect_x := x; rect_y := y; rect_w := w; rect_h := h |}
  end.

(** The local [drawImage] helper of the three routines. *)
Definition drawImage (globalZoom : Q) (img : option ImageBitmap)
           (x y w h extraZoom : Q) : Outcome :=
  if Qle_bool w 0 || Qle_bool h 0 then done []
  else
    match img with
    | None => {| painted := [];
                 thrown := Some (ErrorObject "Cannot read properties of undefined (reading 'width')") |}
    | Some img =>
        if (width img <=? 0)%Z || (height img <=? 0)%Z then done []
        else
          let zoom := globalZoom * extraZoom in
          let imgRatio := inject_Z (width img) / inject_Z (height img) in
          let cellRatio := w / h in
          let baseW := if JSMath.Qlt_bool cellRatio imgRatio then w else h * imgRatio in
          let baseH := if JSMath.Qlt_bool cellRatio imgRatio then w / imgRatio else h in
          let renderW := baseW * zoom in
          let renderH := baseH * zoom in
          let renderX := x + (w - renderW) / 2 in
          let renderY := y + (h - renderH) / 2 in
          done [drawClipped img
                  {| rect_x := x; rect_y := y; rect_w := w; rect_h := h |}
                  {| rect_x := renderX; rect_y := renderY; rect_w := renderW; rect_h := renderH |}]
    end.

Definition perform (globalZoom : Q) (c : Call) : Outcome :=
  match c with
  | callDrawImage img x y w h z => drawImage globalZoom img x y w h z
  | callTile img x y w h alpha blur =>
      done [drawPlain img {| rect_x := x; rect_y := y; rect_w := w; rect_h := h |} alpha blur]
  end.

Definition performAll (globalZoom : Q) (cs : list Call) : Outcome :=
  fold_left (fun acc c => andThen acc (perform globalZoom c)) cs (done []).

(** [Math.max(1, Math.ceil(Math.sqrt(n)))] *)
Definition colsFor (n : Z) : Z := Z.max 1 (JSMath.ceil_sqrt n).

(** [Math.max(1, Math.ceil(n / cols))] *)
Definition rowsFor (n cols : Z) : Z := Z.max 1 (JSMath.ceil_div n cols).

(** The body every cell loop shares:
    [col = i % cols; row = Math.floor(i / cols);
     x = startX + col * (cellWidth + gapX); y = startY + row * (cellHeight + gapY);
     drawImage(img, x, y, cellWidth, cellHeight)]. *)
Definition cellCall (cols : Z) (startX startY cellWidth cellHeight gapX gapY : Q)
           (img : ImageBitmap) (i : Z) : Call :=
  let col := (i mod cols)%Z in
  let row := (i / cols)%Z in
  let x := startX + inject_Z col * (cellWidth + gapX) in
  let y := startY + inject_Z row * (cellHeight + gapY) in
  callDrawImage (Some img) x y cellWidth cellHeight 1.

(** The body of the blurred background loop of the single-focus mode. *)
Definition tileCall (cols : Z) (cellWidth cellHeight alpha blur : Q)
           (img : ImageBitmap) (i : Z) : Call :=
  let col := (i mod cols)%Z in
  let row := (i / cols)%Z in
  callTile img (inject_Z col * cellWidth) (inject_Z row * cellHeight)
           cellWidth cellHeight alpha blur.

(** The background fill style:
    [background.type === 'color' && background.value ? background.value : '#F3F4F6'] *)
Definition backgroundStyle (b : BackgroundState) : string :=
  match bg_type b, bg_value b with
  | type_color, value_string s => if String.eqb s EmptyString then "#F3F4F6" else s
  | type_color, value_image _ => "[object Object]"
  | _, _ => "#F3F4F6"
  end.

(** Step 1 of every routine, after the clear. *)
Definition drawBackground (b : BackgroundState) (bmp : option ImageBitmap) (W H : Q) : list Op :=
  match bg_type b, bmp with
  | type_image, Some img =>
      [drawPlain img {| rect_x := 0; rect_y := 0; rect_w := W; rect_h := H |} 1 0]
  | _, _ => [fillRect (backgroundStyle b) 0 0 W H]
  end.

(** The placeholder of an empty working set. *)
Definition placeholder (W H : Q) : Op :=
  fillText "#6b7280" "24px Montserrat" "Upload images to begin" (W / 2) (H / 2).

(** Step 3 of every routine. *)
Definition drawWatermark (wm : option WatermarkState) (bmp : option ImageBitmap)
           (W H marginX marginY : Q) : list Op :=
  match wm, bmp with
  | Some wm, Some img =>
      if (0 <? width img)%Z && (0 <? height img)%Z then
        let aspect := inject_Z (width img) / inject_Z (height img) in
        let w := (W / 100) * size wm in
        let h := w / aspect in
        let xy :=
          match position wm with
          | top_left => (marginX, marginY)
          | top_right => (W - w - marginX, marginY)
          | bottom_left => (marginX, H - h - marginY)
          | bottom_right => (W - w - marginX, H - h - marginY)
          | center => ((W - w) / 2, (H - h) / 2)
          end in
        [drawPlain img {| rect_x := fst xy; rect_y := snd xy; rect_w := w; rect_h := h |}
                   (opacity wm) 0]
      else []
  | _, _ => []
  end.

(** Step 4 of the routines that paint text. *)
Definition drawTextLayers (ls : list TextLayer) (scaleX scaleY : Q) : list Op :=
  map (fun l => drawLayer l (layer_x l * scaleX) (layer_y l * scaleY)
                          (fontSize l * scaleY) (padding l * scaleY)) ls.

End Compositor.

(** ** The application component: interactive draw and mode switch *)

Module App.
Import Types Compositor.

(** The hooks [drawCanvas] and the mode selector read and write. *)
Record State := {
  viewport_width : Q;
  viewport_height : Q;
  images : list ImageState;
  bigImageId : option string;
  globalZoom : Q;
  gap : Q;
  freeformTidyTick : Z;
  layoutMode : string;
  mainZoom : Q;
  bgBlur : Q;
  bgOpacity : Q;
  debouncedGlobalZoom : Q;
  debouncedGap : Q;
  debouncedMainZoom : Q;
  debouncedBgBlur : Q;
  debouncedBgOpacity : Q;
  background : BackgroundState;
  watermark : option WatermarkState;
  textLayers : list TextLayer;
  imageBitmaps : string -> option ImageBitmap;   (* imageBitmaps.get *)
  watermarkBitmap : option ImageBitmap;
  backgroundBitmap : option ImageBitmap
}.

Definition with_mode_tick (s : State) (m : string) (t : Z) : State :=
  {| viewport_width := viewport_width s; viewport_height := viewport_height s;
     images := images s; bigImageId := bigImageId s;
     globalZoom := globalZoom s; gap := gap s;
     freeformTidyTick := t; layoutMode := m;
     mainZoom := mainZoom s; bgBlur := bgBlur s; bgOpacity := bgOpacity s;
     debouncedGlobalZoom := debouncedGlobalZoom s; debouncedGap := debouncedGap s;
     debouncedMainZoom := debouncedMainZoom s; debouncedBgBlur := debouncedBgBlur s;
     debouncedBgOpacity := debouncedBgOpacity s;
     background := background s; watermark := watermark s; textLayers := textLayers s;
     imageBitmaps := imageBitmaps s; watermarkBitmap := watermarkBitmap s;
     backgroundBitmap := backgroundBitmap s |}.

(** [setLayoutMode(m)] *)
Definition setLayoutMode (m : string) (s : State) : State :=
  with_mode_tick s m (freeformTidyTick s).

(** The effect whose dependency is [layoutMode]; it runs when the value
    differs from the one of the previous render. *)
Definition layoutModeEffect (previous : string) (s : State) : State :=
  if String.eqb previous (layoutMode s) then s
  else if String.eqb (layoutMode s) "freeform"
       then with_mode_tick s (layoutMode s) (freeformTidyTick s + 1)%Z
       else s.

(** [onChange] of the mode selector: [setLayoutMode(e.target.value)],
    then the effects of the next render. *)
Definition onLayoutModeChange (value : string) (s : State) : State :=
  layoutModeEffect (layoutMode s) (setLayoutMode value s).

(** The [<option value=...>]s of the mode selector, in order. *)
Definition modeOptions : list string :=
  ["grid"; "freeform"; "single-blur"; "left-big"; "right-big"; "top-big"; "bottom-big"].

Definition isBigLayout (mode : string) : bool :=
  String.eqb mode "left-big" || String.eqb mode "right-big"
  || String.eqb mode "top-big" || String.eqb mode "bottom-big".

Definition EXPORT_WIDTH : Q := 2000.
Definition EXPORT_HEIGHT : Q := 1500.

(** [l.map(im => imageBitmaps.get(im.id)).filter(b => !!b)] *)
Definition bitmapsOf (s : State) (l : list ImageState) : list ImageBitmap :=
  flat_map (fun im => match imageBitmaps s (id im) with
                      | Some b => [b]
                      | None => []
                      end) l.

(** [l.findIndex(p)], [-1] when nothing matches. *)
Fixpoint findIndex_from {A : Type} (p : A -> bool) (i : Z) (l : list A) : Z :=
  match l with
  | [] => (-1)%Z
  | a :: r => if p a then i else findIndex_from p (i + 1)%Z r
  end.

Definition findIndex {A : Type} (p : A -> bool) (l : list A) : Z := findIndex_from p 0%Z l.

(** [images.findIndex(i => i.id === (bigImageId ?? images[0]?.id))] *)
Definition bigIdx (s : State) : Z :=
  let target :=
    match bigImageId s with
    | Some b => Some b
    | None => match images s with
              | im :: _ => Some (id im)
              | [] => None
              end
    end in
  findIndex (fun i => match target with
                      | Some t => String.eqb (id i) t
                      | None => false
                      end) (images s).

(** [bigIdx >= 0 ? imageBitmaps.get(images[bigIdx].id) : loadedGridImages[0]] *)
Definition bigBitmap (s : State) : option ImageBitmap :=
  if (0 <=? bigIdx s)%Z then
    match nth_error (images s) (Z.to_nat (bigIdx s)) with
    | Some im => imageBitmaps s (id im)
    | None => None
    end
  else hd_error (bitmapsOf s (images s)).

(** [images.filter((im, idx) => idx !== bigIdx)] and its bitmaps. *)
Definition gridImages (s : State) : list ImageBitmap :=
  bitmapsOf s
    (List.concat (JSMath.mapi (fun im idx => if (idx =? bigIdx s)%Z then [] else [im]) (images s))).

(** The image layer: the calls of [switch (layoutMode)]. *)
Definition layoutCalls (s : State) (currentWidth currentHeight scaleX : Q)
           (exportGapX exportGapY : Q) : list Call :=
  let mode := layoutMode s in
  let loadedGridImages := bitmapsOf s (images s) in
  if String.eqb mode "freeform" then []
  else if String.eqb mode "grid" then
    if (JSMath.len loadedGridImages =? 0)%Z then []
    else
      let cols := colsFor (JSMath.len loadedGridImages) in
      let rows := rowsFor (JSMath.len loadedGridImages) cols in
      let cellWidth :=
        JSMath.max 0 ((currentWidth - (inject_Z cols + 1) * exportGapX) / inject_Z cols) in
      let cellHeight :=
        JSMath.max 0 ((currentHeight - (inject_Z rows + 1) * exportGapY) / inject_Z rows) in
      JSMath.mapi (cellCall cols exportGapX exportGapY cellWidth cellHeight exportGapX exportGapY)
                  loadedGridImages
  else if String.eqb mode "left-big" || String.eqb mode "right-big" then
    let isLeftBig := String.eqb mode "left-big" in
    (if (0 <? JSMath.len loadedGridImages)%Z then
       let bigX := if isLeftBig then exportGapX else currentWidth / 2 + exportGapX / 2 in
       let bigW := JSMath.max 0 (currentWidth / 2 - exportGapX * (3 # 2)) in
       let bigH := JSMath.max 0 (currentHeight - exportGapY * 2) in
       match bigBitmap s with
       | Some b => [callDrawImage (Some b) bigX exportGapY bigW bigH 1]
       | None => []
       end
     else [])
    ++
    (if (1 <? JSMath.len (images s))%Z then
       let gridImages := gridImages s in
       let cols := colsFor (JSMath.len gridImages) in
       let rows := rowsFor (JSMath.len gridImages) cols in
       let startX := if isLeftBig then currentWidth / 2 + exportGapX / 2 else exportGapX in
       let availableWidth := JSMath.max 0 (currentWidth / 2 - exportGapX * (3 # 2)) in
       let cellWidth :=
         JSMath.max 0 ((availableWidth - (inject_Z cols - 1) * exportGapX) / inject_Z cols) in
       let cellHeight :=
         JSMath.max 0 ((currentHeight - (inject_Z rows + 1) * exportGapY) / inject_Z rows) in
       JSMath.mapi (cellCall cols startX exportGapY cellWidth cellHeight exportGapX exportGapY)
                   gridImages
     else [])
  else if String.eqb mode "top-big" || String.eqb mode "bottom-big" then
    let isTopBig := String.eqb mode "top-big" in
    (if (0 <? JSMath.len loadedGridImages)%Z then
       let bigY := if isTopBig then exportGapY else currentHeight / 2 + exportGapY / 2 in
       let bigW := JSMath.max 0 (currentWidth - exportGapX * 2) in
       let bigH := JSMath.max 0 (currentHeight / 2 - exportGapY * (3 # 2)) in
       match bigBitmap s with
       | Some b => [callDrawImage (Some b) exportGapX bigY bigW bigH 1]
       | None => []
       end
     else [])
    ++
    (if (1 <? JSMath.len (images s))%Z then
       let gridImages := gridImages s in
       let startY := if isTopBig then currentHeight / 2 + exportGapY / 2 else exportGapY in
       let gridHeight := JSMath.max 0 (currentHeight / 2 - exportGapY * (3 # 2)) in
       let cols := colsFor (JSMath.len gridImages) in
       let rows := rowsFor (JSMath.len gridImages) cols in
       let cellWidth :=
         JSMath.max 0 ((currentWidth - (inject_Z cols + 1) * exportGapX) / inject_Z cols) in
       let cellHeight :=
         JSMath.max 0 ((gridHeight - (inject_Z rows - 1) * exportGapY) / inject_Z rows) in
       JSMath.mapi (cellCall cols exportGapX startY cellWidth cellHeight exportGapX exportGapY)
                   gridImages
     else [])
  else if String.eqb mode "single-blur" then
    let bgImages := tl loadedGridImages in
    (if (0 <? JSMath.len bgImages)%Z then
       let cols := colsFor (JSMath.len bgImages) in
       let rows := rowsFor (JSMath.len bgImages) cols in
       let cellWidth := currentWidth / inject_Z cols in
       let cellHeight := currentHeight / inject_Z rows in
       JSMath.mapi (tileCall cols cellWidth cellHeight
                             (debouncedBgOpacity s) (debouncedBgBlur s * scaleX)) bgImages
     else [])
    ++
    match loadedGridImages with
    | first :: _ =>
        let maxW := currentWidth * (8 # 10) in
        let maxH := currentHeight * (9 # 10) in
        let cellX := (currentWidth - maxW) / 2 in
        let cellY := (currentHeight - maxH) / 2 in
        [callDrawImage (Some first) cellX cellY maxW maxH (debouncedMainZoom s)]
    | [] => []
    end
  else [].

(** [drawCanvas(canvas, forExport)] once the 2D context is obtained;
    [logicalW] and [logicalH] are the CSS size of the interactive canvas. *)
Definition drawCanvas (s : State) (logicalW logicalH : Q) (forExport : bool) : Outcome :=
  let currentWidth := if forExport then EXPORT_WIDTH else logicalW in
  let currentHeight := if forExport then EXPORT_HEIGHT else logicalH in
  let scaleX := if forExport then EXPORT_WIDTH / viewport_width s else 1 in
  let scaleY := if forExport then EXPORT_HEIGHT / viewport_height s else 1 in
  let first :=
    clearRect 0 0 currentWidth currentHeight
    :: drawBackground (background s) (backgroundBitmap s) currentWidth currentHeight in
  if (JSMath.len (images s) =? 0)%Z && negb forExport then
    done (first ++ [placeholder currentWidth currentHeight])
  else
    let exportGapX := debouncedGap s * scaleX in
    let exportGapY := debouncedGap s * scaleY in
    andThen (done first)
      (andThen
         (performAll (debouncedGlobalZoom s)
            (layoutCalls s currentWidth currentHeight scaleX exportGapX exportGapY))
         (done (drawWatermark (watermark s) (watermarkBitmap s)
                              currentWidth currentHeight exportGapX exportGapY
                ++ drawTextLayers (textLayers s) scaleX scaleY))).

End App.

(** ** The preview worker *)

Module UIWorker.
Import Types Compositor.

(** The image layer: the calls of [switch (layoutMode)]. *)
Definition layoutCalls (state : WorkerState) (bitmaps : WorkerBitmapsPayload)
           (width height : Q) : list Call :=
  let mode := layoutMode state in
  let gap := gap state in
  let loadedGridImages := bitmaps_grid bitmaps in
  if String.eqb mode "grid" then
    let cols := colsFor (JSMath.len loadedGridImages) in
    let rows := rowsFor (JSMath.len loadedGridImages) cols in
    let cellWidth := JSMath.max 0 ((width - (inject_Z cols + 1) * gap) / inject_Z cols) in
    let cellHeight := JSMath.max 0 ((height - (inject_Z rows + 1) * gap) / inject_Z rows) in
    JSMath.mapi (cellCall cols gap gap cellWidth cellHeight gap gap) loadedGridImages
  else if String.eqb mode "left-big" || String.eqb mode "right-big" then
    let isLeftBig := String.eqb mode "left-big" in
    let bigX := if isLeftBig then gap else width / 2 + gap / 2 in
    let bigW := JSMath.max 0 (width / 2 - gap * (3 # 2)) in
    let bigH := JSMath.max 0 (height - gap * 2) in
    callDrawImage (hd_error loadedGridImages) bigX gap bigW bigH 1
    ::
    (if (1 <? JSMath.len loadedGridImages)%Z then
       let gridImages := tl loadedGridImages in
       let cols := colsFor (JSMath.len gridImages) in
       let rows := rowsFor (JSMath.len gridImages) cols in
       let startX := if isLeftBig then width / 2 + gap / 2 else gap in
       let availableWidth := JSMath.max 0 (width / 2 - gap * (3 # 2)) in
       let cellWidth :=
         JSMath.max 0 ((availableWidth - (inject_Z cols - 1) * gap) / inject_Z cols) in
       let cellHeight := JSMath.max 0 ((height - (inject_Z rows + 1) * gap) / inject_Z rows) in
       JSMath.mapi (cellCall cols startX gap cellWidth cellHeight gap gap) gridImages
     else [])
  else if String.eqb mode "top-big" || String.eqb mode "bottom-big" then
    let isTopBig := String.eqb mode "top-big" in
    let bigY := if isTopBig then gap else height / 2 + gap / 2 in
    let bigW := JSMath.max 0 (width - gap * 2) in
    let bigH := JSMath.max 0 (height / 2 - gap * (3 # 2)) in
    callDrawImage (hd_error loadedGridImages) gap bigY bigW bigH 1
    ::
    (if (1 <? JSMath.len loadedGridImages)%Z then
       let gridImages := tl loadedGridImages in
       let startY := if isTopBig then height / 2 + gap / 2 else gap in
       let gridHeight := JSMath.max 0 (height / 2 - gap * (3 # 2)) in
       let cols := colsFor (JSMath.len gridImages) in
       let rows := rowsFor (JSMath.len gridImages) cols in
       let cellWidth := JSMath.max 0 ((width - (inject_Z cols + 1) * gap) / inject_Z cols) in
       let cellHeight :=
         JSMath.max 0 ((gridHeight - (inject_Z rows - 1) * gap) / inject_Z rows) in
       JSMath.mapi (cellCall cols gap startY cellWidth cellHeight gap gap) gridImages
     else [])
  else if String.eqb mode "single-blur" then
    let bgImages := tl loadedGridImages in
    (if (0 <? JSMath.len bgImages)%Z then
       let cols := colsFor (JSMath.len bgImages) in
       let rows := rowsFor (JSMath.len bgImages) cols in
       let cellWidth := width / inject_Z cols in
       let cellHeight := height / inject_Z rows in
       JSMath.mapi (tileCall cols cellWidth cellHeight (bgOpacity state) (bgBlur state)) bgImages
     else [])
    ++
    (let maxW := width * (8 # 10) in
     let maxH := height * (9 # 10) in
     let cellX := (width - maxW) / 2 in
     let cellY := (height - maxH) / 2 in
     [callDrawImage (hd_error loadedGridImages) cellX cellY maxW maxH (mainZoom state)])
  else [].

(** [drawCanvas(ctx, width, height, state, bitmaps)] *)
Definition drawCanvas (width height : Q) (state : WorkerState)
           (bitmaps : WorkerBitmapsPayload) : Outcome :=
  let first :=
    clearRect 0 0 width height
    :: drawBackground (background state) (bitmaps_background bitmaps) width height in
  if (JSMath.len (images state) =? 0)%Z then
    done (first ++ [placeholder width height])
  else
    andThen (done first)
      (andThen
         (performAll (globalZoom state) (layoutCalls state bitmaps width height))
         (done (drawWatermark (watermark state) (bitmaps_watermark bitmaps)
                              width height (gap state) (gap state)))).

(** The ['draw'] branch of [self.onmessage] once the worker holds a
    canvas and context: the canvas takes the viewport's size, the draw
    runs inside [try], and what it throws is logged, not rethrown. *)
Definition onDraw (viewport_width viewport_height : Q) (state : WorkerState)
           (bitmaps : WorkerBitmapsPayload) : list Op * option Thrown :=
  let r := drawCanvas viewport_width viewport_height state bitmaps in
  (painted r, thrown r).

End UIWorker.

(** ** export.worker.ts *)

Module ExportWorker.
Import Types Compositor.

(** The image layer: the calls of [switch (layoutMode)]. *)
Definition layoutCalls (state : WorkerState) (bitmaps : WorkerBitmapsPayload)
           (EXPORT_WIDTH EXPORT_HEIGHT scaleX exportGapX exportGapY : Q) : list Call :=
  let mode := layoutMode state in
  let loadedGridImages := bitmaps_grid bitmaps in
  if String.eqb mode "grid" then
    if (JSMath.len loadedGridImages =? 0)%Z then []
    else
      let cols := colsFor (JSMath.len loadedGridImages) in
      let rows := rowsFor (JSMath.len loadedGridImages) cols in
      let cellWidth :=
        JSMath.max 0 ((EXPORT_WIDTH - (inject_Z cols + 1) * exportGapX) / inject_Z cols) in
      let cellHeight :=
        JSMath.max 0 ((EXPORT_HEIGHT - (inject_Z rows + 1) * exportGapY) / inject_Z rows) in
      JSMath.mapi (cellCall cols exportGapX exportGapY cellWidth cellHeight exportGapX exportGapY)
                  loadedGridImages
  else if String.eqb mode "left-big" || String.eqb mode "right-big" then
    let isLeftBig := String.eqb mode "left-big" in
    (match loadedGridImages with
     | first :: _ =>
         let bigX := if isLeftBig then exportGapX else EXPORT_WIDTH / 2 + exportGapX / 2 in
         let bigW := JSMath.max 0 (EXPORT_WIDTH / 2 - exportGapX * (3 # 2)) in
         let bigH := JSMath.max 0 (EXPORT_HEIGHT - exportGapY * 2) in
         [callDrawImage (Some first) bigX exportGapY bigW bigH 1]
     | [] => []
     end)
    ++
    (if (1 <? JSMath.len loadedGridImages)%Z then
       let gridImages := tl loadedGridImages in
       let cols := colsFor (JSMath.len gridImages) in
       let rows := rowsFor (JSMath.len gridImages) cols in
       let startX := if isLeftBig then EXPORT_WIDTH / 2 + exportGapX / 2 else exportGapX in
       let availableWidth := JSMath.max 0 (EXPORT_WIDTH / 2 - exportGapX * (3 # 2)) in
       let cellWidth :=
         JSMath.max 0 ((availableWidth - (inject_Z cols - 1) * exportGapX) / inject_Z cols) in
       let cellHeight :=
         JSMath.max 0 ((EXPORT_HEIGHT - (inject_Z rows + 1) * exportGapY) / inject_Z rows) in
       JSMath.mapi (cellCall cols startX exportGapY cellWidth cellHeight exportGapX exportGapY)
                   gridImages
     else [])
  else if String.eqb mode "top-big" || String.eqb mode "bottom-big" then
    let isTopBig := String.eqb mode "top-big" in
    (match loadedGridImages with
     | first :: _ =>
         let bigY := if isTopBig then exportGapY else EXPORT_HEIGHT / 2 + exportGapY / 2 in
         let bigW := JSMath.max 0 (EXPORT_WIDTH - exportGapX * 2) in
         let bigH := JSMath.max 0 (EXPORT_HEIGHT / 2 - exportGapY * (3 # 2)) in
         [callDrawImage (Some first) exportGapX bigY bigW bigH 1]
     | [] => []
     end)
    ++
    (if (1 <? JSMath.len loadedGridImages)%Z then
       let gridImages := tl loadedGridImages in
       let startY := if isTopBig then EXPORT_HEIGHT / 2 + exportGapY / 2 else exportGapY in
       let gridHeight := JSMath.max 0 (EXPORT_HEIGHT / 2 - exportGapY * (3 # 2)) in
       let cols := colsFor (JSMath.len gridImages) in
       let rows := rowsFor (JSMath.len gridImages) cols in
       let cellWidth :=
         JSMath.max 0 ((EXPORT_WIDTH - (inject_Z cols + 1) * exportGapX) / inject_Z cols) in
       let cellHeight :=
         JSMath.max 0 ((gridHeight - (inject_Z rows - 1) * exportGapY) / inject_Z rows) in
       JSMath.mapi (cellCall cols exportGapX startY cellWidth cellHeight exportGapX exportGapY)
                   gridImages
     else [])
  else if String.eqb mode "single-blur" then
    let bgImages := tl loadedGridImages in
    (if (0 <? JSMath.len bgImages)%Z then
       let cols := colsFor (JSMath.len bgImages) in
       let rows := rowsFor (JSMath.len bgImages) cols in
       let cellWidth := EXPORT_WIDTH / inject_Z cols in
       let cellHeight := EXPORT_HEIGHT / inject_Z rows in
       JSMath.mapi (tileCall cols cellWidth cellHeight (bgOpacity state) (bgBlur state * scaleX))
                   bgImages
     else [])
    ++
    match loadedGridImages with
    | first :: _ =>
        let maxW := EXPORT_WIDTH * (8 # 10) in
        let maxH := EXPORT_HEIGHT * (9 # 10) in
        let cellX := (EXPORT_WIDTH - maxW) / 2 in
        let cellY := (EXPORT_HEIGHT - maxH) / 2 in
        [callDrawImage (Some first) cellX cellY maxW maxH (mainZoom state)]
    | [] => []
    end
  else [].

(** [drawExportCanvas(ctx, EXPORT_WIDTH, EXPORT_HEIGHT, sourceDimensions, state, bitmaps)] *)
Definition drawExportCanvas (EXPORT_WIDTH EXPORT_HEIGHT : Q)
           (source_width source_height : Q)
           (state : WorkerState) (bitmaps : WorkerBitmapsPayload) : Outcome :=
  let scaleX := EXPORT_WIDTH / source_width in
  let scaleY := EXPORT_HEIGHT / source_height in
  let first :=
    clearRect 0 0 EXPORT_WIDTH EXPORT_HEIGHT
    :: drawBackground (background state) (bitmaps_background bitmaps) EXPORT_WIDTH EXPORT_HEIGHT in
  let exportGapX := gap state * scaleX in
  let exportGapY := gap state * scaleY in
  andThen (done first)
    (andThen
       (performAll (globalZoom state)
          (layoutCalls state bitmaps EXPORT_WIDTH EXPORT_HEIGHT scaleX exportGapX exportGapY))
       (done (drawWatermark (watermark state) (bitmaps_watermark bitmaps)
                            EXPORT_WIDTH EXPORT_HEIGHT exportGapX exportGapY
              ++ drawTextLayers (textLayers state) scaleX scaleY))).

(** The encoded image: its MIME type and what had been painted. *)
Record Blob := {
  blob_type : string;
  blob_content : list Op
}.

(** The [OffscreenCanvas] of a request, as far as the handler uses it. *)
Record Canvas := {
  canvas_width : Q;
  canvas_height : Q;
  has2d : bool;                       (* getContext('2d') is not null *)
  convertFails : option Thrown        (* what convertToBlob rejects with, if it does *)
}.

(** [event.data] *)
Record WorkerMessageData := {
  data_canvas : Canvas;
  source_width : Q;
  source_height : Q;
  data_state : WorkerState;
  data_bitmaps : WorkerBitmapsPayload
}.

(** A posted message: an object literal, as its keys and values. *)
Inductive Value :=
| vString (s : string)
| vBlob (b : Blob).

Definition Message : Type := list (string * Value).

(** [obj[key]] *)
Fixpoint field (key : string) (m : Message) : option Value :=
  match m with
  | [] => None
  | (k, v) :: r => if String.eqb k key then Some v else field key r
  end.

(** [error instanceof Error ? error.message : String(error)] *)
Definition describe (e : Thrown) : string :=
  match e with
  | ErrorObject message => message
  | OtherValue asString => asString
  end.

(** [self.onmessage]: the messages it posts back, in order. *)
Definition onmessage (data : WorkerMessageData) : list Message :=
  let canvas := data_canvas data in
  if negb (has2d canvas) then
    [[("type", vString "error"); ("error", vString "Could not get OffscreenCanvas context")]]
  else
    let r := drawExportCanvas (canvas_width canvas) (canvas_height canvas)
                              (source_width data) (source_height data)
                              (data_state data) (data_bitmaps data) in
    match thrown r with
    | Some error => [[("type", vString "error"); ("error", vString (describe error))]]
    | None =>
        match convertFails canvas with
        | Some error => [[("type", vString "error"); ("error", vString (describe error))]]
        | None =>
            [[("type", vString "success");
              ("blob", vBlob {| blob_type := "image/png"; blob_content := painted r |})]]
        end
    end.

End ExportWorker.

(** ** components/FreeformCanvas.tsx: arrangement and gestures *)

Module FreeformScene.
Import FreeformCanvas.

(** [it.img.naturalWidth || 1] and [it.img.naturalHeight || 1] *)
Definition widthOr1 (it : Item) : Z :=
  if (item_naturalWidth it =? 0)%Z then 1%Z else item_naturalWidth it.

Definition heightOr1 (it : Item) : Z :=
  if (item_naturalHeight it =? 0)%Z then 1%Z else item_naturalHeight it.

(** [{ ...p, x, y }] *)
Definition with_xy (p : Item) (x y : Q) : Item :=
  {| item_id := item_id p;
     item_naturalWidth := item_naturalWidth p;
     item_naturalHeight := item_naturalHeight p;
     item_x := x; item_y := y;
     item_scale := item_scale p; item_rotation := item_rotation p |}.

(** [{ ...p, scale }] *)
Definition with_scale (p : Item) (scale : Q) : Item :=
  {| item_id := item_id p;
     item_naturalWidth := item_naturalWidth p;
     item_naturalHeight := item_naturalHeight p;
     item_x := item_x p; item_y := item_y p;
     item_scale := scale; item_rotation := item_rotation p |}.

(** [{ ...p, rotation }] *)
Definition with_rotation (p : Item) (rotation : Q) : Item :=
  {| item_id := item_id p;
     item_naturalWidth := item_naturalWidth p;
     item_naturalHeight := item_naturalHeight p;
     item_x := item_x p; item_y := item_y p;
     item_scale := item_scale p; item_rotation := rotation |}.

(** The knobs of the tidy arrangement; [maxCols] is a whole number. *)
Record TidyOptions := {
  thumbWidth : Q;
  thumbGap : Q;
  maxCols : Z
}.

(** [Math.max(1, Math.min(maxCols, Math.floor((w - thumbGap) / (thumbWidth + thumbGap))))] *)
Definition tidyCols (w : Q) (o : TidyOptions) : Z :=
  Z.max 1 (Z.min (maxCols o) (Qfloor ((w - thumbGap o) / (thumbWidth o + thumbGap o)))).

(** [Math.max(1, cols)] *)
Definition effectiveCols (w : Q) (o : TidyOptions) : Z := Z.max 1 (tidyCols w o).

(** [tidyArrange]: what [setItems(prev => prev.map(...))] makes of [prev]. *)
Definition tidyArrange (w : Q) (o : TidyOptions) (prev : list Item) : list Item :=
  JSMath.mapi
    (fun p idx =>
       let iw := inject_Z (widthOr1 p) in
       let scale := (thumbWidth o / iw) * 1 in
       let col := (idx mod effectiveCols w o)%Z in
       let row := (idx / effectiveCols w o)%Z in
       let x := thumbGap o + inject_Z col * (thumbWidth o + thumbGap o) + thumbWidth o / 2 in
       let y := thumbGap o + inject_Z row * (thumbWidth o + thumbGap o) + thumbWidth o / 2 in
       with_scale (with_xy p x y) scale)
    prev.

(** The auto-tidy effect. *)
Definition autoTidyEffect (autoTidy : bool) (w : Q) (o : TidyOptions) (items : list Item)
  : list Item :=
  if negb autoTidy then items
  else if (0 <? JSMath.len items)%Z then tidyArrange w o items else items.

(** The [centers] array of [autoArrangeToCells]. *)
Definition cellCenters (c : Config) : list (Q * Q) :=
  let cellW := (size_w c - (inject_Z (cols c) + 1) * cellGapX c) / inject_Z (cols c) in
  let cellH := (size_h c - (inject_Z (rows c) + 1) * cellGapY c) / inject_Z (rows c) in
  flat_map (fun r : Z =>
    map (fun cc : Z =>
      (cellGapX c + inject_Z cc * (cellW + cellGapX c) + cellW / 2,
       cellGapY c + inject_Z r * (cellH + cellGapY c) + cellH / 2))
      (JSMath.range (cols c))) (JSMath.range (rows c)).

(** [autoArrangeToCells]; [centers] is not empty once the guard is passed. *)
Definition autoArrangeToCells (c : Config) : list Item :=
  if negb (cellsOn c) then items c
  else
    let centers := cellCenters c in
    JSMath.mapi
      (fun p i =>
         let ctr := nth (Z.to_nat (i mod JSMath.len centers)) centers (0, 0) in
         with_xy p (fst ctr) (snd ctr))
      (items c).

(** [!activeIdRef.current] is false: an id that is neither null nor empty. *)
Definition activeOf (c : Config) : option string :=
  match activeId c with
  | Some id => if String.eqb id EmptyString then None else Some id
  | None => None
  end.

(** [onWheel]: one notch scales the active item by 1.08 or 0.92, within
    [0.1, 5]. *)
Definition onWheel (c : Config) (deltaY : Q) : list Item :=
  match activeOf c with
  | None => items c
  | Some id =>
      let delta := JSMath.sign deltaY * -(8 # 100) in
      map (fun p =>
             if String.eqb (item_id p) id
             then with_scale p (JSMath.min 5 (JSMath.max (1 # 10) (item_scale p * (1 + delta))))
             else p)
          (items c)
  end.

(** [itemsRef.current.find(p => p.id === id)] *)
Definition findItem (id : string) (l : list Item) : option Item :=
  find (fun p => String.eqb (item_id p) id) l.

(** The arrow keys of [onKeyDown]: [dx] and [dy]. *)
Definition arrowStep (key : string) (shiftKey : bool) : Q * Q :=
  let step : Q := if shiftKey then 10 else 1 in
  let dx1 := if String.eqb key "ArrowLeft" then - step else 0 in
  let dx := if String.eqb key "ArrowRight" then step else dx1 in
  let dy1 := if String.eqb key "ArrowUp" then - step else 0 in
  let dy := if String.eqb key "ArrowDown" then step else dy1 in
  (dx, dy).

(** [dx || dy] *)
Definition moved (d : Q * Q) : bool := negb (Qeq_bool (fst d) 0) || negb (Qeq_bool (snd d) 0).

(** [onKeyDown]: the new items, refs and rotating flag. *)
Definition onKeyDown (c : Config) (r : DragRefs) (rotating : bool)
           (key : string) (shiftKey : bool) : list Item * DragRefs * bool :=
  let rotating' :=
    if String.eqb key "r" || String.eqb key "R" then true else rotating in
  match activeOf c with
  | None => (items c, r, rotating')
  | Some id =>
      let d := arrowStep key shiftKey in
      if moved d then
        match findItem id (items c) with
        | None => (items c, r, rotating')
        | Some cur =>
            let snapped := getSnapped c (item_x cur + fst d) (item_y cur + snd d) false in
            (map (fun p => if String.eqb (item_id p) id
                           then with_xy p (snapped_x snapped) (snapped_y snapped)
                           else p) (items c),
             {| dragging := dragging r; dragOffset := dragOffset r;
                lastGuides := (guidesX snapped, guidesY snapped) |},
             rotating')
        end
      else (items c, r, rotating')
  end.


Section Trigonometry.

(** [Math.cos], [Math.sin] and [Math.atan2]. *)
Variables cos sin : Q -> Q.
Variable atan2 : Q -> Q -> Q.

(** The test inside the loop of [hitTest]. A scale of zero makes [rx]
    and [ry] infinite or NaN, and every comparison false. *)
Definition hits (it : Item) (px py : Q) : bool :=
  let iw := inject_Z (widthOr1 it) in
  let ih := inject_Z (heightOr1 it) in
  let tx := px - item_x it in
  let ty := py - item_y it in
  let c := cos (- item_rotation it) in
  let s := sin (- item_rotation it) in
  if Qeq_bool (item_scale it) 0 then false
  else
    let rx := (tx * c - ty * s) / item_scale it in
    let ry := (tx * s + ty * c) / item_scale it in
    Qle_bool (- (iw / 2)) rx && Qle_bool rx (iw / 2)
    && Qle_bool (- (ih / 2)) ry && Qle_bool ry (ih / 2).

(** [hitTest]: the loop runs from the last item down and returns at the
    first hit, that is the hit of greatest index. *)
Fixpoint hitTest_from (i : Z) (l : list Item) (px py : Q) : option (Z * Item) :=
  match l with
  | [] => None
  | it :: r =>
      match hitTest_from (i + 1)%Z r px py with
      | Some h => Some h
      | None => if hits it px py then Some (i, it) else None
      end
  end.

Definition hitTest (l : list Item) (px py : Q) : option (Z * Item) :=
  hitTest_from 0%Z l px py.

(** The updater of [onMouseDown]: [splice(idx, 1)] then [push]. *)
Definition bringToTop (id : string) (prev : list Item) : list Item :=
  let idx := App.findIndex (fun p => String.eqb (item_id p) id) prev in
  if (0 <=? idx)%Z then
    match nth_error prev (Z.to_nat idx) with
    | Some sp => firstn (Z.to_nat idx) prev ++ skipn (S (Z.to_nat idx)) prev ++ [sp]
    | None => prev
    end
  else prev.

(** [onMouseDown] at canvas coordinates [(x, y)]: items, active id, refs. *)
Definition onMouseDown (c : Config) (r : DragRefs) (x y : Q)
  : list Item * option string * DragRefs :=
  match hitTest (items c) x y with
  | Some (_, it) =>
      (bringToTop (item_id it) (items c), Some (item_id it),
       {| dragging := true; dragOffset := Some (x - item_x it, y - item_y it);
          lastGuides := lastGuides r |})
  | None =>
      (items c, None,
       {| dragging := dragging r; dragOffset := None; lastGuides := lastGuides r |})
  end.

(** [onMouseMoveRotate] at canvas coordinates [(x, y)]. *)
Definition onMouseMoveRotate (c : Config) (rotating : bool) (x y : Q) : list Item :=
  if negb rotating then items c
  else
    match activeOf c with
    | None => items c
    | Some id =>
        match findItem id (items c) with
        | None => items c
        | Some it =>
            let ang := atan2 (y - item_y it) (x - item_x it) in
            map (fun p => if String.eqb (item_id p) id then with_rotation p ang else p)
                (items c)
        end
    end.

End Trigonometry.

End FreeformScene.

(** ** Double-precision numbers

    A JavaScript number is an IEEE 754 binary64 value; the result of an
    arithmetic operation is the exact result rounded to the nearest
    double, ties going to the even significand.  [fl] is that rounding on
    the rationals.  Overflow to [Infinity] is not modelled: the exponent
    is unbounded above, so [fl] is the engine's rounding for magnitudes
    below 2^1024. *)

Module Float64.

Definition pow2 (z : Z) : Q := 2 ^ z.

(** The exponent [e] with [2^e <= a < 2^(e+1)], for [a > 0]. *)
Definition ilog2 (a : Q) : Z :=
  let e0 := (Z.log2 (Qnum a) - Z.log2 (Zpos (Qden a)))%Z in
  if Qle_bool (pow2 e0) a then e0 else (e0 - 1)%Z.

(** The nearest integer, a half going to the even neighbour. *)
Definition nearestEven (m : Q) : Z :=
  let f := Qfloor m in
  let r := m - inject_Z f in
  if Qle_bool r (1 # 2)
  then if Qle_bool (1 # 2) r then (if Z.even f then f else f + 1)%Z else f
  else (f + 1)%Z.

(** The distance between neighbouring doubles around [a > 0]: 52 bits
    below the leading one, and 2^-1074 in the subnormal range. *)
Definition spacing (a : Q) : Q := pow2 (Z.max (ilog2 a - 52) (-1074)).

(** The double nearest to [a > 0]. *)
Definition nearestDouble (a : Q) : Q :=
  inject_Z (nearestEven (a / spacing a)) * spacing a.

(** The double nearest to [q]. *)
Definition fl (q : Q) : Q :=
  if Qle_bool q 0
  then if Qle_bool 0 q then 0 else - nearestDouble (- q)
  else nearestDouble q.

End Float64.

(** ** components/FreeformCanvas.tsx in double precision

    [getSnapped] and the two handlers that call it, [onMouseMove] and
    [onKeyDown], with every addition, subtraction, multiplication and
    division rounded by [fl]. [Math.round] and [Math.abs] are exact on
    doubles, and so are comparisons. Records, refs and the functions that
    do no arithmetic are those of [FreeformCanvas] and [FreeformScene]. *)

Module FreeformDoubles.
Import FreeformCanvas FreeformScene Float64.

(** What one axis pushes for the cells: [x, cx, x + cellW] for every
    [r] and [c] of the nested loop. *)
Definition cellCandX (c : Config) : list Q :=
  if cellsOn c then
    let cellW :=
      fl (fl (size_w c - fl (fl (inject_Z (cols c) + 1) * cellGapX c)) / inject_Z (cols c)) in
    flat_map (fun _r : Z =>
      flat_map (fun cc : Z =>
        let x := fl (cellGapX c + fl (inject_Z cc * fl (cellW + cellGapX c))) in
        let cx := fl (x + fl (cellW / 2)) in
        [x; cx; fl (x + cellW)]) (JSMath.range (cols c))) (JSMath.range (rows c))
  else [].

Definition cellCandY (c : Config) : list Q :=
  if cellsOn c then
    let cellH :=
      fl (fl (size_h c - fl (fl (inject_Z (rows c) + 1) * cellGapY c)) / inject_Z (rows c)) in
    flat_map (fun r : Z =>
      flat_map (fun _cc : Z =>
        let y := fl (cellGapY c + fl (inject_Z r * fl (cellH + cellGapY c))) in
        let cy := fl (y + fl (cellH / 2)) in
        [y; cy; fl (y + cellH)]) (JSMath.range (cols c))) (JSMath.range (rows c))
  else [].

(** [Math.round(n / gridSize) * gridSize] *)
Definition gridLine (c : Config) (n : Q) : Q :=
  fl (inject_Z (JSMath.round (fl (n / gridSize c))) * gridSize c).

(** [if (snapGrid) cand.push(...)]. With [gridSize] zero the quotient is
    an infinity or [NaN] and the product is [NaN]; every comparison of
    the search loop with [NaN] is false, so that candidate is never
    taken: it is left out of the list. *)
Definition gridCand (c : Config) (n : Q) : list Q :=
  if snapGrid c then
    if Qeq_bool (gridSize c) 0 then [] else [gridLine c n]
  else [].

(** [candX] and [candY] as they stand when the search loops start. *)
Definition candX (c : Config) (nx : Q) : list Q :=
  [0; fl (size_w c / 2); size_w c] ++ gridCand c nx ++ cellCandX c ++ itemCand item_x c.

Definition candY (c : Config) (ny : Q) : list Q :=
  [0; fl (size_h c / 2); size_h c] ++ gridCand c ny ++ cellCandY c ++ itemCand item_y c.

(** One iteration of [for (const tx of candX)]:
    [const dx = Math.abs(tx - nx); if (dx < bestDX && dx <= thresh) ...]. *)
Definition step (n : Q) (b : Best) (t : Q) : Best :=
  let d := JSMath.abs (fl (t - n)) in
  if JSMath.Qlt_bool d (bestD b) && Qle_bool d thresh
  then {| bestD := d; snappedTo := t; guide := Some t |}
  else b.

Definition nearest (n : Q) (cands : list Q) : Best :=
  fold_left (step n) cands {| bestD := thresh + 1; snappedTo := n; guide := None |}.

Definition getSnapped (c : Config) (nx ny : Q) (ignoreSnap : bool) : Snapped :=
  if ignoreSnap then
    {| snapped_x := nx; snapped_y := ny; guidesX := []; guidesY := [] |}
  else
    let bx := nearest nx (candX c nx) in
    let by_ := nearest ny (candY c ny) in
    {| snapped_x := snappedTo bx; snapped_y := snappedTo by_;
       guidesX := guideList bx; guidesY := guideList by_ |}.

(** [onMouseMove] at canvas coordinates [(x, y)]: the new item list and
    refs; nothing changes unless a drag is in progress. The search runs
    when one of the three toggles is on. *)
Definition onMouseMove (c : Config) (r : DragRefs) (x y : Q) (altDown : bool)
  : list Item * DragRefs :=
  match dragging r, dragOffset r, activeId c with
  | true, Some (dx, dy), Some id =>
      if String.eqb id EmptyString then (items c, r)
      else
        let nx := fl (x - dx) in
        let ny := fl (y - dy) in
        if snapSmart c || snapGrid c || showCells c then
          let snapped := getSnapped c nx ny altDown in
          (map (moveItem id (snapped_x snapped) (snapped_y snapped)) (items c),
           {| dragging := dragging r; dragOffset := dragOffset r;
              lastGuides := (guidesX snapped, guidesY snapped) |})
        else (map (moveItem id nx ny) (items c), r)
  | _, _, _ => (items c, r)
  end.

(** [onKeyDown]: the new items, refs and rotating flag. *)
Definition onKeyDown (c : Config) (r : DragRefs) (rotating : bool)
           (key : string) (shiftKey : bool) : list Item * DragRefs * bool :=
  let rotating' :=
    if String.eqb key "r" || String.eqb key "R" then true else rotating in
  match activeOf c with
  | None => (items c, r, rotating')
  | Some id =>
      let step : Q := if shiftKey then 10 else 1 in
      let dx0 : Q := 0 in
      let dy0 : Q := 0 in
      let dx1 := if String.eqb key "ArrowLeft" then - step else dx0 in
      let dx := if String.eqb key "ArrowRight" then step else dx1 in
      let dy1 := if String.eqb key "ArrowUp" then - step else dy0 in
      let dy := if String.eqb key "ArrowDown" then step else dy1 in
      if negb (Qeq_bool dx 0) || negb (Qeq_bool dy 0) then
        match findItem id (items c) with
        | None => (items c, r, rotating')
        | Some cur =>
            let snapped := getSnapped c (fl (item_x cur + dx)) (fl (item_y cur + dy)) false in
            (map (fun p => if String.eqb (item_id p) id
                           then with_xy p (snapped_x snapped) (snapped_y snapped)
                           else p) (items c),
             {| dragging := dragging r; dragOffset := dragOffset r;
                lastGuides := (guidesX snapped, guidesY snapped) |},
             rotating')
        end
      else (items c, r, rotating')
  end.

End FreeformDoubles.


(** ** The application component: edits of the working set *)

Module AppEdits.
Import Types Compositor.

Definition with_bigImageId (s : App.State) (b : option string) : App.State :=
  {| App.viewport_width := App.viewport_width s; App.viewport_height := App.viewport_height s;
     App.images := App.images s; App.bigImageId := b;
     App.globalZoom := App.globalZoom s; App.gap := App.gap s;
     App.freeformTidyTick := App.freeformTidyTick s; App.layoutMode := App.layoutMode s;
     App.mainZoom := App.mainZoom s; App.bgBlur := App.bgBlur s; App.bgOpacity := App.bgOpacity s;
     App.debouncedGlobalZoom := App.debouncedGlobalZoom s;
     App.debouncedGap := App.debouncedGap s;
     App.debouncedMainZoom := App.debouncedMainZoom s;
     App.debouncedBgBlur := App.debouncedBgBlur s;
     App.debouncedBgOpacity := App.debouncedBgOpacity s;
     App.background := App.background s; App.watermark := App.watermark s;
     App.textLayers := App.textLayers s;
     App.imageBitmaps := App.imageBitmaps s; App.watermarkBitmap := App.watermarkBitmap s;
     App.backgroundBitmap := App.backgroundBitmap s |}.

Definition with_images (s : App.State) (ims : list ImageState)
           (bitmaps : string -> option ImageBitmap) : App.State :=
  {| App.viewport_width := App.viewport_width s; App.viewport_height := App.viewport_height s;
     App.images := ims; App.bigImageId := App.bigImageId s;
     App.globalZoom := App.globalZoom s; App.gap := App.gap s;
     App.freeformTidyTick := App.freeformTidyTick s; App.layoutMode := App.layoutMode s;
     App.mainZoom := App.mainZoom s; App.bgBlur := App.bgBlur s; App.bgOpacity := App.bgOpacity s;
     App.debouncedGlobalZoom := App.debouncedGlobalZoom s;
     App.debouncedGap := App.debouncedGap s;
     App.debouncedMainZoom := App.debouncedMainZoom s;
     App.debouncedBgBlur := App.debouncedBgBlur s;
     App.debouncedBgOpacity := App.debouncedBgOpacity s;
     App.background := App.background s; App.watermark := App.watermark s;
     App.textLayers := App.textLayers s;
     App.imageBitmaps := bitmaps; App.watermarkBitmap := App.watermarkBitmap s;
     App.backgroundBitmap := App.backgroundBitmap s |}.

(** [images.some(i => i.id === b)] *)
Definition someImage (b : string) (l : list ImageState) : bool :=
  existsb (fun i => String.eqb (id i) b) l.

(** The effect that keeps [bigImageId] valid when the image list changes. *)
Definition bigImageEffect (s : App.State) : App.State :=
  match App.images s with
  | [] =>
      match App.bigImageId s with
      | Some _ => with_bigImageId s None
      | None => s
      end
  | first :: _ =>
      match App.bigImageId s with
      | Some b =>
          if String.eqb b EmptyString || negb (someImage b (App.images s))
          then with_bigImageId s (Some (id first))
          else s
      | None => with_bigImageId s (Some (id first))
      end
  end.

(** [handleDropOnImage(targetId)]: the image list and [draggedId] it leaves. *)
Definition handleDropOnImage (draggedId : option string) (targetId : string)
           (images : list ImageState) : list ImageState * option string :=
  match draggedId with
  | None => (images, draggedId)
  | Some d =>
      if String.eqb d EmptyString || String.eqb d targetId then (images, draggedId)
      else
        let draggedIndex := App.findIndex (fun img => String.eqb (id img) d) images in
        let targetIndex := App.findIndex (fun img => String.eqb (id img) targetId) images in
        if negb (draggedIndex =? -1)%Z && negb (targetIndex =? -1)%Z then
          match nth_error images (Z.to_nat draggedIndex) with
          | Some draggedItem =>
              let removed :=
                firstn (Z.to_nat draggedIndex) images
                ++ skipn (S (Z.to_nat draggedIndex)) images in
              (firstn (Z.to_nat targetIndex) removed ++ draggedItem
                 :: skipn (Z.to_nat targetIndex) removed, None)
          | None => (images, None)
          end
        else (images, None)
  end.

(** The trash button of a thumbnail: the image leaves the list and its
    bitmap leaves the cache. *)
Definition removeImage (imgId : string) (s : App.State) : App.State :=
  with_images s
    (filter (fun i => negb (String.eqb (id i) imgId)) (App.images s))
    (fun k => if String.eqb k imgId then None else App.imageBitmaps s k).

(** [handleResizeMouseMove]: the sidebar width for a pointer at [clientX]. *)
Definition constrainedWidth (newWidth : Q) : Q :=
  JSMath.max 280 (JSMath.min newWidth 600).

(** [handleResizeMouseMove(e)] with [isResizingRef.current] as it stands:
    the sidebar width it leaves. *)
Definition handleResizeMouseMove (sidebarWidth : Q) (e : bool * Q) : Q :=
  let (isResizing, clientX) := e in
  if negb isResizing then sidebarWidth else constrainedWidth clientX.

(** [useState(380)] *)
Definition initialSidebarWidth : Q := 380.

(** The worker payload that carries, under each field name of
    [WorkerStatePayload] and [WorkerBitmapsPayload], the value
    [drawCanvas] reads for it: the debounced knobs, and the decoded
    bitmaps in image order. *)
Definition snapshot (s : App.State) : WorkerState :=
  {| layoutMode := App.layoutMode s;
     images := App.images s;
     textLayers := App.textLayers s;
     watermark := App.watermark s;
     background := App.background s;
     gap := App.debouncedGap s;
     globalZoom := App.debouncedGlobalZoom s;
     mainZoom := App.debouncedMainZoom s;
     bgBlur := App.debouncedBgBlur s;
     bgOpacity := App.debouncedBgOpacity s |}.

Definition snapshotBitmaps (s : App.State) : WorkerBitmapsPayload :=
  {| bitmaps_grid := App.bitmapsOf s (App.images s);
     bitmaps_watermark := App.watermarkBitmap s;
     bitmaps_background := App.backgroundBitmap s |}.

End AppEdits.

(** ** uiWorkerPool.ts *)

Module UIWorkerPool.

Definition WORKER_COUNT : Z := 3.

(** [renderWithWorkerPool(data)] with [currentIndex] as it stands: the
    worker the data is posted to, and the new [currentIndex]. *)
Definition renderWithWorkerPool {A : Type} (currentIndex : Z) (data : A) : (Z * A) * Z :=
  ((currentIndex, data), ((currentIndex + 1) mod WORKER_COUNT)%Z).

(** A run of calls: who got what, and the index left. *)
Fixpoint renderAll {A : Type} (currentIndex : Z) (requests : list A) : list (Z * A) * Z :=
  match requests with
  | [] => ([], currentIndex)
  | data :: rest =>
      let (posted, next) := renderWithWorkerPool currentIndex data in
      let (more, final) := renderAll next rest in
      (posted :: more, final)
  end.

End UIWorkerPool.

(** ** utils/throttle.ts *)

Module Throttle.

(** One call of the throttled function at time [now]: whether [fn] runs,
    and the new [lastCall]. *)
Definition call (delay lastCall now : Z) : bool * Z :=
  if (delay <=? now - lastCall)%Z then (true, now) else (false, lastCall).

(** The times at which [fn] runs, for calls at the given times. *)
Fixpoint runs (delay lastCall : Z) (times : list Z) : list Z :=
  match times with
  | [] => []
  | now :: rest =>
      let (ran, lastCall') := call delay lastCall now in
      if ran then now :: runs delay lastCall' rest else runs delay lastCall' rest
  end.

(** [throttle(fn, delay)]: [lastCall] starts at 0. *)
Definition throttle (delay : Z) (times : list Z) : list Z := runs delay 0 times.

End Throttle.

(** ** The preview worker's message loop *)

Module UIWorkerLoop.
Import Types Compositor.

(** A JavaScript number as a message carries it: a finite value, or one
    of [NaN], [Infinity], [-Infinity] (where [undefined] also ends up
    when it is converted to a number). *)
Inductive JSNumber :=
| Finite (q : Q)
| NotFinite.

(** The module-level [ctx] and [canvas]: whether a context is held, and
    the [width] and [height] of the canvas held. *)
Record Global := {
  ctx : bool;
  canvas : option (Z * Z)
}.

(** An [OffscreenCanvas] received from the main thread: its size, and
    whether [getContext('2d')] gives a context. *)
Record Offscreen := {
  off_width : Z;
  off_height : Z;
  off_has2d : bool
}.

(** [event.data] *)
Record Data := {
  data_type : string;
  data_canvas : option Offscreen;
  data_state : option WorkerState;
  data_bitmaps : option WorkerBitmapsPayload;
  data_viewport : option (JSNumber * JSNumber)
}.

(** How a call of the handler ends: it returns, it returns after logging
    what [drawCanvas] threw, or its promise is rejected with the
    [TypeError] of a size assignment, which is outside the [try]. *)
Inductive Ending :=
| Returned
| Logged (error : Thrown)
| Rejected.

(** [canvas.width !== v] for the integer [canvas.width]. *)
Definition differs (size : Z) (v : JSNumber) : bool :=
  match v with
  | Finite q => negb (Qeq_bool (inject_Z size) q)
  | NotFinite => true
  end.

(** The integer part of a number: rounding towards zero. *)
Definition integerPart (q : Q) : Z :=
  if Qle_bool 0 q then Qfloor q else Qceiling q.

(** [canvas.width = v]: [width] and [height] of an [OffscreenCanvas] are
    [[EnforceRange] unsigned long long]; the conversion throws a
    [TypeError] on a value that is not finite or whose integer part is
    outside [0, 2^53 - 1], and gives the integer part otherwise. *)
Definition toSize (v : JSNumber) : option Z :=
  match v with
  | Finite q =>
      let x := integerPart q in
      if (x <? 0)%Z || (2 ^ 53 - 1 <? x)%Z then None else Some x
  | NotFinite => None
  end.

(** The [try] block: [drawCanvas(ctx, canvas.width, canvas.height, state,
    bitmaps)] at the size read back from the canvas. *)
Definition paint (g : Global) (width height : Z) (state : WorkerState)
           (bitmaps : WorkerBitmapsPayload) : Global * list Op * Ending :=
  let r := UIWorker.drawCanvas (inject_Z width) (inject_Z height) state bitmaps in
  ({| ctx := ctx g; canvas := Some (width, height) |},
   painted r,
   match thrown r with
   | Some error => Logged error
   | None => Returned
   end).

(** [self.onmessage]: the new globals, what was painted, how the call
    ends. *)
Definition onmessage (g : Global) (d : Data) : Global * list Op * Ending :=
  match String.eqb (data_type d) "init", data_canvas d with
  | true, Some c =>
      ({| ctx := off_has2d c; canvas := Some (off_width c, off_height c) |}, [], Returned)
  | _, _ =>
      if String.eqb (data_type d) "draw" then
        match ctx g, canvas g, data_state d, data_bitmaps d, data_viewport d with
        | true, Some (w, h), Some st, Some bm, Some (vw, vh) =>
            if differs w vw || differs h vh then
              match toSize vw with
              | None => (g, [], Rejected)
              | Some w' =>
                  match toSize vh with
                  | None => ({| ctx := ctx g; canvas := Some (w', h) |}, [], Rejected)
                  | Some h' => paint g w' h' st bm
                  end
              end
            else paint g w h st bm
        | _, _, _, _, _ => (g, [], Returned)
        end
      else (g, [], Returned)
  end.

(** A run of messages: the globals left and everything painted. *)
Fixpoint onmessages (g : Global) (ds : list Data) : Global * list Op :=
  match ds with
  | [] => (g, [])
  | d :: rest =>
      let '(g', ops, _) := onmessage g d in
      let (g'', more) := onmessages g' rest in
      (g'', ops ++ more)
  end.

End UIWorkerLoop.

(** ** components/BulkImageResizer.tsx: checksum and density tagging *)

Module BulkImageResizer.

(** The 32-bit integers of the bitwise operators: [ToUint32], [ToInt32],
    and the operators written with their wrap-around. Bytes are integers
    in [0, 255]. *)
Definition toUint32 (z : Z) : Z := (z mod 2 ^ 32)%Z.

Definition toInt32 (z : Z) : Z := ((z + 2 ^ 31) mod 2 ^ 32 - 2 ^ 31)%Z.

(** [a ^ b] *)
Definition xor (a b : Z) : Z := toInt32 (Z.lxor (toInt32 a) (toInt32 b)).

(** [a & b] *)
Definition and (a b : Z) : Z := toInt32 (Z.land (toInt32 a) (toInt32 b)).

(** [a >>> n] *)
Definition ushr (a n : Z) : Z := Z.shiftr (toUint32 a) n.

(** [a >> n] *)
Definition sar (a n : Z) : Z := Z.shiftr (toInt32 a) n.

(** [c = (c & 1) ? (0xEDB88320 ^ (c >>> 1)) : (c >>> 1)] *)
Definition tableStep (c : Z) : Z :=
  if (and c 1 =? 0)%Z then ushr c 1 else xor 0xEDB88320%Z (ushr c 1).

(** [table[i]]: eight steps from [i], then [c >>> 0]. *)
Definition tableEntry (i : Z) : Z := ushr (Nat.iter 8 tableStep i) 0.

(** [crc32.table], its 256 entries. *)
Definition table : list Z := map tableEntry (JSMath.range 256).

(** [crc = (crc >>> 8) ^ table[(crc ^ buf[i]) & 0xFF]] *)
Definition crcStep (crc byte : Z) : Z :=
  xor (ushr crc 8) (nth (Z.to_nat (and (xor crc byte) 255)) table 0%Z).

(** [crc32(buf)] *)
Definition crc32 (buf : list Z) : Z :=
  ushr (xor (fold_left crcStep buf (-1)%Z) (-1)%Z) 0.

(** [(v >> 24) & 0xFF, (v >> 16) & 0xFF, (v >> 8) & 0xFF, v & 0xFF] *)
Definition bytes4 (v : Z) : list Z :=
  [and (sar v 24) 255; and (sar v 16) 255; and (sar v 8) 255; and v 255].

(** [Math.round(dpi / 0.0254)] *)
Definition ppm (dpi : Q) : Z := JSMath.round (dpi / (254 # 10000)).

Definition chunkType : list Z := [0x70; 0x48; 0x59; 0x73]%Z.

Definition chunkData (dpi : Q) : list Z := bytes4 (ppm dpi) ++ bytes4 (ppm dpi) ++ [1%Z].

(** The pHYs chunk: length, type, data, CRC over type and data. *)
Definition chunk (dpi : Q) : list Z :=
  [0; 0; 0; 9]%Z ++ chunkType ++ chunkData dpi
  ++ bytes4 (crc32 (chunkType ++ chunkData dpi)).

(** The APP0 segment put into a JPEG. *)
Definition app0 : list Z :=
  [0xFF; 0xE0; 0x00; 0x10; 0x4A; 0x46; 0x49; 0x46; 0x00; 0x01; 0x01; 0x01;
   0x00; 0xC8; 0x00; 0xC8; 0x00; 0x00]%Z.

(** PNG signature plus IHDR chunk. *)
Definition ihdrEnd : nat := (8 + 25)%nat.

(** [setDPI(blob, dpi, type)] on the bytes [arr] read from the blob: the
    bytes of the blob it resolves with. *)
Definition setDPI (arr : list Z) (dpi : Q) (type : string) : list Z :=
  if String.eqb type "image/png" then
    let before := firstn ihdrEnd arr in
    let after := skipn ihdrEnd arr in
    before ++ chunk dpi ++ after
  else if String.eqb type "image/jpeg" then
    match arr with
    | a0 :: a1 :: _ =>
        if (a0 =? 0xFF)%Z && (a1 =? 0xD8)%Z
        then firstn 2 arr ++ app0 ++ skipn 2 arr
        else arr
    | _ => arr
    end
  else arr.

(** Reading four bytes as a big-endian number. *)
Definition be32 (l : list Z) : Z :=
  match l with
  | [b3; b2; b1; b0] => (b3 * 2 ^ 24 + b2 * 2 ^ 16 + b1 * 2 ^ 8 + b0)%Z
  | _ => 0%Z
  end.

(** Reading two bytes as a big-endian number. *)
Definition be16 (l : list Z) : Z :=
  match l with
  | [b1; b0] => (b1 * 2 ^ 8 + b0)%Z
  | _ => 0%Z
  end.

(** [l.slice(from, to)] *)
Definition slice {A : Type} (from to : nat) (l : list A) : list A :=
  firstn (to - from) (skipn from l).

(** The bitwise CRC-32 the table abbreviates: one step per bit. *)
Definition bitwiseByte (crc byte : Z) : Z :=
  Nat.iter 8 tableStep (xor crc byte).

(** What [tableStep] does to the unsigned value [c >>> 0]. *)
Definition bitStep (u : Z) : Z :=
  if Z.testbit u 0 then Z.lxor 0xEDB88320%Z (Z.shiftr u 1) else Z.shiftr u 1.

End BulkImageResizer.

(** ** components/FreeformCanvas.tsx: loading the items, the pixel grid *)

Module FreeformPreload.
Import Types FreeformCanvas.

Section Preload.

(** [naturalWidth] and [naturalHeight] of the element loaded from a url,
    0 x 0 when loading failed. *)
Variable naturalSize : string -> Z * Z.

(** [Math.cos], [Math.sin] and [Math.PI]. *)
Variables cos sin : Q -> Q.
Variable PI : Q.

(** [existing.get(id)] for [existing = new Map(items.map(i => [i.id, i]))]:
    of several items with the id the last one stays in the map. *)
Definition existingGet (prev : list Item) (id : string) : option Item :=
  find (fun i => String.eqb (item_id i) id) (rev prev).

(** The item pushed for image [im] at position [idx]. *)
Definition placed (w h : Q) (prev : list Item) (n : Z) (im : ImageState) (idx : Z) : Item :=
  let el := naturalSize (url im) in
  match existingGet prev (id im) with
  | Some p =>
      {| item_id := item_id p;
         item_naturalWidth := fst el; item_naturalHeight := snd el;
         item_x := item_x p; item_y := item_y p;
         item_scale := item_scale p; item_rotation := item_rotation p |}
  | None =>
      let angle := (inject_Z idx / inject_Z (Z.max 1 n)) * PI * 2 in
      let radius := 60 + inject_Z (idx mod 5) * 25 in
      {| item_id := id im;
         item_naturalWidth := fst el; item_naturalHeight := snd el;
         item_x := w / 2 + cos angle * radius;
         item_y := h / 2 + sin angle * radius;
         item_scale := 4 # 10; item_rotation := 0 |}
  end.

(** The effect that follows the image list, run to its end: the items
    it sets. *)
Definition preload (w h : Q) (prev : list Item) (images : list ImageState) : list Item :=
  JSMath.mapi (placed w h prev (JSMath.len images)) images.

End Preload.

(** [for (let x = 0; x <= limit; x += step)] from [x] on: the values [x]
    takes, a line being stroked at each [x + 0.5]; [None] when the loop
    is still running after [fuel] tests. *)
Fixpoint gridLoop (fuel : nat) (x limit step : Q) : option (list Q) :=
  match fuel with
  | O => None
  | S fuel' =>
      if Qle_bool x limit
      then option_map (cons x) (gridLoop fuel' (x + step) limit step)
      else Some []
  end.

(** The pixel grid of [draw]: the vertical and the horizontal lines. *)
Definition pixelGrid (fuel : nat) (showGrid : bool) (c : Config) : option (list Q * list Q) :=
  if showGrid then
    match gridLoop fuel 0 (size_w c) (gridSize c) with
    | Some xs =>
        match gridLoop fuel 0 (size_h c) (gridSize c) with
        | Some ys => Some (xs, ys)
        | None => None
        end
    | None => None
    end
  else Some ([], []).

End FreeformPreload.

(** ** Text layers of the application *)

Module AppText.
Import Types.

(** [interactionState] *)
Record InteractionState := {
  dragging_mode : bool;          (* mode === 'dragging' *)
  text_target : bool;            (* target === 'text' *)
  interaction_id : option string;
  offsetX : option Q;
  offsetY : option Q
}.

(** [{ mode: 'idle', target: null }] *)
Definition idle : InteractionState :=
  {| dragging_mode := false; text_target := false; interaction_id := None;
     offsetX := None; offsetY := None |}.

(** [{ ...layer, x, y }] *)
Definition moveLayer (layer : TextLayer) (x y : Q) : TextLayer :=
  {| layer_id := layer_id layer; layer_text := layer_text layer;
     layer_x := x; layer_y := y;
     fontSize := fontSize layer; fontFamily := fontFamily layer; color := color layer;
     layer_rotation := layer_rotation layer; shadow := shadow layer;
     backgroundColor := backgroundColor layer;
     backgroundOpacity := backgroundOpacity layer; padding := padding layer |}.

(** [Partial<TextLayer>] *)
Record Patch := {
  patch_id : option string;
  patch_text : option string;
  patch_x : option Q;
  patch_y : option Q;
  patch_fontSize : option Q;
  patch_fontFamily : option string;
  patch_color : option string;
  patch_rotation : option Q;
  patch_shadow : option bool;
  patch_backgroundColor : option string;
  patch_backgroundOpacity : option Q;
  patch_padding : option Q
}.

(** [p ?? v] for a field of a patch *)
Definition orKeep {A : Type} (p : option A) (v : A) : A :=
  match p with
  | Some a => a
  | None => v
  end.

(** [{ ...layer, ...props }] *)
Definition applyPatch (layer : TextLayer) (props : Patch) : TextLayer :=
  {| layer_id := orKeep (patch_id props) (layer_id layer);
     layer_text := orKeep (patch_text props) (layer_text layer);
     layer_x := orKeep (patch_x props) (layer_x layer);
     layer_y := orKeep (patch_y props) (layer_y layer);
     fontSize := orKeep (patch_fontSize props) (fontSize layer);
     fontFamily := orKeep (patch_fontFamily props) (fontFamily layer);
     color := orKeep (patch_color props) (color layer);
     layer_rotation := orKeep (patch_rotation props) (layer_rotation layer);
     shadow := orKeep (patch_shadow props) (shadow layer);
     backgroundColor := orKeep (patch_backgroundColor props) (backgroundColor layer);
     backgroundOpacity := orKeep (patch_backgroundOpacity props) (backgroundOpacity layer);
     padding := orKeep (patch_padding props) (padding layer) |}.

(** [!selectedTextId] is false: an id that is neither null nor empty. *)
Definition selectedOf (selectedTextId : option string) : option string :=
  match selectedTextId with
  | Some id => if String.eqb id EmptyString then None else Some id
  | None => None
  end.

(** [addTextLayer] with the id [generateId()] gave and the canvas's
    [width] and [height], if there is a canvas: layers and selection. *)
Definition addTextLayer (newId : string) (canvas : option (Z * Z)) (layers : list TextLayer)
  : list TextLayer * option string :=
  let newLayer :=
    {| layer_id := newId; layer_text := "New Text";
       layer_x := match canvas with Some (cw, _) => inject_Z cw / 2 | None => 400 end;
       layer_y := match canvas with Some (_, ch) => inject_Z ch / 2 | None => 300 end;
       fontSize := 48; fontFamily := "Montserrat"; color := "#FFFFFF";
       layer_rotation := 0; shadow := true; backgroundColor := "#000000";
       backgroundOpacity := 5 # 10; padding := 10 |} in
  (layers ++ [newLayer], Some newId).

(** [updateSelectedLayer(props)] *)
Definition updateSelectedLayer (props : Patch) (selectedTextId : option string)
           (layers : list TextLayer) : list TextLayer :=
  match selectedOf selectedTextId with
  | None => layers
  | Some sel =>
      map (fun layer => if String.eqb (layer_id layer) sel then applyPatch layer props
                        else layer) layers
  end.

(** [deleteTextLayer(id)]: layers and selection. *)
Definition deleteTextLayer (id : string) (selectedTextId : option string)
           (layers : list TextLayer) : list TextLayer * option string :=
  (filter (fun layer => negb (String.eqb (layer_id layer) id)) layers,
   match selectedTextId with
   | Some sel => if String.eqb sel id then None else selectedTextId
   | None => selectedTextId
   end).

(** [selectedLayer] *)
Definition selectedLayer (selectedTextId : option string) (layers : list TextLayer)
  : option TextLayer :=
  match selectedOf selectedTextId with
  | None => None
  | Some sel => find (fun layer => String.eqb (layer_id layer) sel) layers
  end.

Section Pointer.

(** [ctx.measureText(text).width] under the font of a size and family. *)
Variable measureText : Q -> string -> string -> Q.

(** [Math.cos], [Math.sin] and [Math.PI]. *)
Variables cos sin : Q -> Q.
Variable PI : Q.

(** The test inside the loop of [handleMouseDown]. *)
Definition hitsLayer (layer : TextLayer) (mouseX mouseY : Q) : bool :=
  let textWidth :=
    measureText (fontSize layer) (fontFamily layer) (layer_text layer) + padding layer * 2 in
  let textHeight := fontSize layer + padding layer * 2 in
  let angle := layer_rotation layer * PI / 180 in
  let c := cos (- angle) in
  let s := sin (- angle) in
  let dx := mouseX - layer_x layer in
  let dy := mouseY - layer_y layer in
  let rotatedX := dx * c - dy * s in
  let rotatedY := dx * s + dy * c in
  JSMath.Qlt_bool (JSMath.abs rotatedX) (textWidth / 2)
  && JSMath.Qlt_bool (JSMath.abs rotatedY) (textHeight / 2).

(** The loop of [handleMouseDown], from the last layer down. *)
Fixpoint pickLayer (layers : list TextLayer) (mouseX mouseY : Q) : option TextLayer :=
  match layers with
  | [] => None
  | layer :: rest =>
      match pickLayer rest mouseX mouseY with
      | Some hit => Some hit
      | None => if hitsLayer layer mouseX mouseY then Some layer else None
      end
  end.

(** [handleMouseDown] at [(mouseX, mouseY)] on a canvas with a context:
    selection and interaction state. *)
Definition handleMouseDown (layers : list TextLayer) (st : InteractionState)
           (mouseX mouseY : Q) : option string * InteractionState :=
  match pickLayer layers mouseX mouseY with
  | Some layer =>
      (Some (layer_id layer),
       {| dragging_mode := true; text_target := true; interaction_id := Some (layer_id layer);
          offsetX := Some (mouseX - layer_x layer);
          offsetY := Some (mouseY - layer_y layer) |})
  | None => (None, st)
  end.

End Pointer.

(** [handleMouseMove] at [(mouseX, mouseY)], once the animation frame it
    asks for has run: the layers. *)
Definition handleMouseMove (st : InteractionState) (layers : list TextLayer)
           (mouseX mouseY : Q) : list TextLayer :=
  if negb (dragging_mode st) then layers
  else
    match text_target st, selectedOf (interaction_id st) with
    | true, Some id =>
        map (fun layer =>
               if String.eqb (layer_id layer) id
               then moveLayer layer (mouseX - orKeep (offsetX st) 0)
                                    (mouseY - orKeep (offsetY st) 0)
               else layer) layers
    | _, _ => layers
    end.

(** [handleMouseUp] *)
Definition handleMouseUp (st : InteractionState) : InteractionState := idle.

End AppText.

(** ** Notions the properties are stated with *)

Module Geometry.
Import Compositor.

(** Two rectangles are the same when their coordinates are the same numbers. *)
Definition Rect_eq (a b : Rect) : Prop :=
  rect_x a == rect_x b /\ rect_y a == rect_y b /\
  rect_w a == rect_w b /\ rect_h a == rect_h b.

(** The interiors of two rectangles meet. *)
Definition overlap (a b : Rect) : Prop :=
  rect_x a < rect_x b + rect_w b /\ rect_x b < rect_x a + rect_w a /\
  rect_y a < rect_y b + rect_h b /\ rect_y b < rect_y a + rect_h a.

(** A rectangle lies in the canvas [[0, W] x [0, H]]. *)
Definition inside (W H : Q) (r : Rect) : Prop :=
  0 <= rect_x r /\ rect_x r + rect_w r <= W /\
  0 <= rect_y r /\ rect_y r + rect_h r <= H.

(** The rectangle has an interior: the local [drawImage] paints it. *)
Definition proper (r : Rect) : Prop := 0 < rect_w r /\ 0 < rect_h r.

(** The rectangles [cellCall] is given for indices [0 .. n-1]. *)
Definition cellRects (n : Z) (cols : Z) (startX startY cellWidth cellHeight gapX gapY : Q)
  : list Rect :=
  map (fun i : Z =>
         {| rect_x := startX + inject_Z (i mod cols) * (cellWidth + gapX);
            rect_y := startY + inject_Z (i / cols) * (cellHeight + gapY);
            rect_w := cellWidth; rect_h := cellHeight |})
      (JSMath.range n).


(** No two entries of a list, at different positions, overlap. *)
Definition pairwise_disjoint (l : list Rect) : Prop :=
  forall i j a b, (i <> j)%nat ->
    nth_error l i = Some a -> nth_error l j = Some b -> ~ overlap a b.

(** The same, for the entries that get painted. *)
Definition painted_disjoint (l : list Rect) : Prop :=
  forall i j a b, (i <> j)%nat ->
    nth_error l i = Some a -> nth_error l j = Some b ->
    proper a -> proper b -> ~ overlap a b.

(** Every painted entry lies in the canvas. *)
Definition painted_inside (W H : Q) (l : list Rect) : Prop :=
  forall r, In r l -> proper r -> inside W H r.

(** The rectangles of the ['grid'] case for [n] images. *)
Definition gridShape (n : Z) (W H gapX gapY : Q) : list Rect :=
  let cols := colsFor n in
  let rows := rowsFor n cols in
  let cellWidth := JSMath.max 0 ((W - (inject_Z cols + 1) * gapX) / inject_Z cols) in
  let cellHeight := JSMath.max 0 ((H - (inject_Z rows + 1) * gapY) / inject_Z rows) in
  cellRects n cols gapX gapY cellWidth cellHeight gapX gapY.

(** The big rectangle of ['left-big'] / ['right-big']. *)
Definition sideBig (isLeftBig : bool) (W H gapX gapY : Q) : Rect :=
  {| rect_x := if isLeftBig then gapX else W / 2 + gapX / 2;
     rect_y := gapY;
     rect_w := JSMath.max 0 (W / 2 - gapX * (3 # 2));
     rect_h := JSMath.max 0 (H - gapY * 2) |}.

(** The cells of ['left-big'] / ['right-big'] for [m] remaining images. *)
Definition sideCells (isLeftBig : bool) (m : Z) (W H gapX gapY : Q) : list Rect :=
  let cols := colsFor m in
  let rows := rowsFor m cols in
  let startX := if isLeftBig then W / 2 + gapX / 2 else gapX in
  let availableWidth := JSMath.max 0 (W / 2 - gapX * (3 # 2)) in
  let cellWidth :=
    JSMath.max 0 ((availableWidth - (inject_Z cols - 1) * gapX) / inject_Z cols) in
  let cellHeight := JSMath.max 0 ((H - (inject_Z rows + 1) * gapY) / inject_Z rows) in
  cellRects m cols startX gapY cellWidth cellHeight gapX gapY.

(** The big rectangle of ['top-big'] / ['bottom-big']. *)
Definition stackBig (isTopBig : bool) (W H gapX gapY : Q) : Rect :=
  {| rect_x := gapX;
     rect_y := if isTopBig then gapY else H / 2 + gapY / 2;
     rect_w := JSMath.max 0 (W - gapX * 2);
     rect_h := JSMath.max 0 (H / 2 - gapY * (3 # 2)) |}.

(** The cells of ['top-big'] / ['bottom-big'] for [m] remaining images. *)
Definition stackCells (isTopBig : bool) (m : Z) (W H gapX gapY : Q) : list Rect :=
  let startY := if isTopBig then H / 2 + gapY / 2 else gapY in
  let gridHeight := JSMath.max 0 (H / 2 - gapY * (3 # 2)) in
  let cols := colsFor m in
  let rows := rowsFor m cols in
  let cellWidth := JSMath.max 0 ((W - (inject_Z cols + 1) * gapX) / inject_Z cols) in
  let cellHeight :=
    JSMath.max 0 ((gridHeight - (inject_Z rows - 1) * gapY) / inject_Z rows) in
  cellRects m cols gapX startY cellWidth cellHeight gapX gapY.



(** The modes whose rectangles are kept apart. *)
Definition tiledModes : list string :=
  ["grid"; "left-big"; "right-big"; "top-big"; "bottom-big"].



End Geometry.

(** ** The specification's own wording, for comparison *)

Module Spec.
Import Compositor.

(** The layout modes as the specification enumerates them. *)
Definition claimed_modes : list string :=
  ["grid"; "left-big"; "right-big"; "top-big"; "bottom-big"; "single-focus"; "freeform"].


(** The response messages as the specification words them. *)
Definition claimed_success (b : ExportWorker.Blob) : ExportWorker.Message :=
  [("status", ExportWorker.vString "success"); ("blob", ExportWorker.vBlob b)].

Definition claimed_error (message : string) : ExportWorker.Message :=
  [("status", ExportWorker.vString "error"); ("message", ExportWorker.vString message)].

End Spec.

(** ** What a search over one axis can end in *)

Module SnapNotions.
Import FreeformCanvas.

(** No candidate of [l] is within the threshold of [n]: the loop
    variables are untouched. *)
Definition miss (n : Q) (l : list Q) (b : Best) : Prop :=
  guide b = None /\ snappedTo b = n /\ bestD b = thresh + 1 /\
  forall t, In t l -> thresh < JSMath.abs (t - n).

(** The loop stopped on a candidate of [l] within the threshold of [n],
    and no candidate of [l] is nearer to [n]. *)
Definition hit (n : Q) (l : list Q) (b : Best) : Prop :=
  guide b = Some (snappedTo b) /\ In (snappedTo b) l /\
  bestD b = JSMath.abs (snappedTo b - n) /\
  JSMath.abs (snappedTo b - n) <= thresh /\
  forall t, In t l -> JSMath.abs (snappedTo b - n) <= JSMath.abs (t - n).

End SnapNotions.

(** ** The snap search in double precision: what it is meant to do *)

Module DoubleNotions.
Import FreeformCanvas Float64.

(** The distance the search computes between the raw coordinate [n] and
    a candidate [t]: [Math.abs(t - n)], the difference rounded. *)
Definition dist (n t : Q) : Q := Qabs (fl (t - n)).

(** [s] is the first candidate of [l] at the least computed distance
    from [n]. *)
Definition firstNearest (n : Q) (l : list Q) (s : Q) : Prop :=
  exists pre post, l = pre ++ s :: post
    /\ (forall t, In t pre -> dist n s < dist n t)
    /\ (forall t, In t post -> dist n s <= dist n t).

(** What the search does on one axis, from the raw coordinate [n] and the
    candidates [l], for the coordinate [s] and the guides [g] it returns. *)
Definition axisResult (n : Q) (l : list Q) (s : Q) (g : list Q) : Prop :=
  ((exists t, In t l /\ dist n t <= 8) ->
     firstNearest n l s /\ dist n s <= 8 /\ g = [s])
  /\ ((forall t, In t l -> 8 < dist n t) -> s = n /\ g = []).

(** The loop variables when no candidate seen so far was accepted. *)
Definition noneYet (n : Q) (l : list Q) (b : Best) : Prop :=
  guide b = None /\ snappedTo b = n /\ bestD b = 8 + 1 /\
  forall t, In t l -> 8 < dist n t.

(** The loop variables once a candidate was accepted. *)
Definition bestSoFar (n : Q) (l : list Q) (b : Best) : Prop :=
  guide b = Some (snappedTo b) /\ bestD b = dist n (snappedTo b) /\
  dist n (snappedTo b) <= 8 /\ firstNearest n l (snappedTo b).

(** The size of a cell and the start of cell [k] along one axis of
    [extent] pixels cut into [count] cells with [gap] around each. *)
Definition cellSize (extent gap : Q) (count : Z) : Q :=
  fl (fl (extent - fl (fl (inject_Z count + 1) * gap)) / inject_Z count).

Definition cellStart (extent gap : Q) (count k : Z) : Q :=
  fl (gap + fl (inject_Z k * fl (cellSize extent gap count + gap))).

(** Where the candidates of one axis come from: the canvas edges and
    centre; the nearest line of the pixel grid; the start, centre and end
    of every cell; the centres of the items other than the active one. *)
Definition axisSource (extent gap : Q) (count : Z) (proj : Item -> Q)
           (c : Config) (n t : Q) : Prop :=
  (t = 0 \/ t = fl (extent / 2) \/ t = extent)
  \/ (snapGrid c = true /\ ~ gridSize c == 0 /\
      t = fl (inject_Z (Qfloor (fl (n / gridSize c) + (1 # 2))) * gridSize c))
  \/ (showCells c = true /\ (0 < rows c)%Z /\ (0 < cols c)%Z /\
      exists k, (0 <= k < count)%Z /\
        (t = cellStart extent gap count k
         \/ t = fl (cellStart extent gap count k + fl (cellSize extent gap count / 2))
         \/ t = fl (cellStart extent gap count k + cellSize extent gap count)))
  \/ (snapSmart c = true /\ (1 < JSMath.len (items c))%Z /\
      exists it, In it (items c) /\ activeId c <> Some (item_id it) /\ t = proj it).

Definition sourceX (c : Config) : Q -> Q -> Prop :=
  axisSource (size_w c) (cellGapX c) (cols c) item_x c.

Definition sourceY (c : Config) : Q -> Q -> Prop :=
  axisSource (size_h c) (cellGapY c) (rows c) item_y c.

(** [{ x: nx, y: ny, guidesX: [], guidesY: [] }] *)
Definition unsnapped (nx ny : Q) : Snapped :=
  {| snapped_x := nx; snapped_y := ny; guidesX := []; guidesY := [] |}.

End DoubleNotions.

(** ** The big-image layouts against the specification's grid *)

Module BigLayout.
Import Compositor Geometry.






End BigLayout.

(** ** The big image of the interactive routine *)

Module BigSelection.
Import Types Compositor Geometry BigLayout.


(** The image has a decoded bitmap. *)
Definition decoded (s : App.State) (im : ImageState) : bool :=
  match App.imageBitmaps s (id im) with
  | Some _ => true
  | None => false
  end.

(** The image the interactive routine singles out: the first one whose
    id is [bigImageId], or the first image's id when that is null. *)
Definition selected (s : App.State) : option ImageState :=
  match App.bigImageId s, App.images s with
  | Some b, ims => find (fun im => String.eqb (id im) b) ims
  | None, first :: _ => Some first
  | None, [] => None
  end.

(** Whether the interactive routine draws the big rectangle: the
    selected image is decoded, or no image is selected and some image is
    decoded (the first decoded one is drawn big). *)
Definition bigDrawn (s : App.State) : bool :=
  match selected s with
  | Some im => decoded s im
  | None => existsb (decoded s) (App.images s)
  end.

(** How many images the interactive routine lays out in cells: with two
    images or more, the decoded ones other than the selected one. *)
Definition cellCount (s : App.State) : Z :=
  if (1 <? JSMath.len (App.images s))%Z then
    (JSMath.len (filter (decoded s) (App.images s))
     - match selected s with
       | Some im => if decoded s im then 1 else 0
       | None => 0
       end)%Z
  else 0%Z.

End BigSelection.

(** ** Notions for the draw routines *)

Module DrawNotions.
Import Types Compositor.

(** Any number of mode switches, one after the other. *)
Definition switchModes (values : list string) (s : App.State) : App.State :=
  fold_left (fun st v => App.onLayoutModeChange v st) values s.

(** The call names an image that exists. *)
Definition defined_call (c : Call) : Prop :=
  match c with
  | callDrawImage None _ _ _ _ _ => False
  | _ => True
  end.

(** The call goes through the local [drawImage] helper. *)
Definition helper_call (c : Call) : Prop :=
  match c with
  | callDrawImage _ _ _ _ _ _ => True
  | callTile _ _ _ _ _ _ _ => False
  end.

(** The operation writes text: only the placeholder does, text layers
    being [drawLayer]. *)
Definition paints_text (op : Op) : bool :=
  match op with
  | fillText _ _ _ _ _ => true
  | _ => false
  end.

(** The operation paints one of the working set's images. *)
Definition paints_image (op : Op) : bool :=
  match op with
  | drawClipped _ _ _ => true
  | _ => false
  end.

(** A response as the specification words it. *)
Definition claimed_response (m : ExportWorker.Message) : Prop :=
  (exists b, m = Spec.claimed_success b) \/ (exists d, m = Spec.claimed_error d).

End DrawNotions.

(** ** Concrete inputs the scenarios run on *)

Module Samples.
Import Types Compositor.

Definition bmp : ImageBitmap := {| width := 1200; height := 900 |}.

Definition image (n : string) : ImageState := {| id := n; url := "blob:" ++ n |}.

Definition plainBackground : BackgroundState :=
  {| bg_type := type_color; bg_value := value_string "#F3F4F6" |}.

(** A worker state in a given mode with the default knobs. *)
Definition workerState (mode : string) (ims : list ImageState) : WorkerState :=
  {| layoutMode := mode; images := ims; textLayers := []; watermark := None;
     background := plainBackground; gap := 16; globalZoom := 1; mainZoom := 1;
     bgBlur := 10; bgOpacity := 3 # 10 |}.

Definition workerBitmaps (n : nat) : WorkerBitmapsPayload :=
  {| bitmaps_grid := repeat bmp n; bitmaps_watermark := None; bitmaps_background := None |}.

Definition threeImages : list ImageState := [image "a"; image "b"; image "c"].

(** The application with its initial knobs on an 800 x 600 viewport,
    every image decoded. *)
Definition appState (mode : string) (ims : list ImageState) (big : option string) : App.State :=
  {| App.viewport_width := 800; App.viewport_height := 600;
     App.images := ims; App.bigImageId := big;
     App.globalZoom := 1; App.gap := 16; App.freeformTidyTick := 0%Z;
     App.layoutMode := mode; App.mainZoom := 1; App.bgBlur := 10; App.bgOpacity := 3 # 10;
     App.debouncedGlobalZoom := 1; App.debouncedGap := 16; App.debouncedMainZoom := 1;
     App.debouncedBgBlur := 10; App.debouncedBgOpacity := 3 # 10;
     App.background := plainBackground; App.watermark := None; App.textLayers := [];
     App.imageBitmaps := fun _ => Some bmp;
     App.watermarkBitmap := None; App.backgroundBitmap := None |}.

Definition rect (x y w h : Q) : Rect :=
  {| rect_x := x; rect_y := y; rect_w := w; rect_h := h |}.

(** An export request for a 2000 x 1500 canvas from an 800 x 600 viewport. *)
Definition exportRequest (mode : string) (n : nat) (ctx : bool) (fails : option Thrown)
  : ExportWorker.WorkerMessageData :=
  {| ExportWorker.data_canvas :=
       {| ExportWorker.canvas_width := 2000; ExportWorker.canvas_height := 1500;
          ExportWorker.has2d := ctx; ExportWorker.convertFails := fails |};
     ExportWorker.source_width := 800; ExportWorker.source_height := 600;
     ExportWorker.data_state := workerState mode (repeat (image "a") n);
     ExportWorker.data_bitmaps := workerBitmaps n |}.

End Samples.

(** ** A freeform scene the snap scenarios run on *)

Module SnapSamples.
Import FreeformCanvas.

(** The default toggles on an 800 x 800 canvas with two items. *)
Definition sampleConfig : Config :=
  {| size_w := 800; size_h := 800; snapGrid := true; gridSize := 40;
     showCells := true; rows := 2; cols := 3; cellGapX := 16; cellGapY := 16;
     snapSmart := true;
     items := [ {| item_id := "a"; item_naturalWidth := 400; item_naturalHeight := 300;
                   item_x := 100; item_y := 100; item_scale := 4 # 10; item_rotation := 0 |};
                {| item_id := "b"; item_naturalWidth := 400; item_naturalHeight := 300;
                   item_x := 507; item_y := 333; item_scale := 4 # 10; item_rotation := 0 |} ];
     activeId := Some "a" |}.

End SnapSamples.

Module DoubleSamples.
Import FreeformCanvas Float64.

Definition item (id : string) (x y : Q) : Item :=
  {| item_id := id; item_naturalWidth := 400; item_naturalHeight := 300;
     item_x := x; item_y := y; item_scale := 4 # 10; item_rotation := 0 |}.

(** Item a at the double nearest to -8.3, item b at the double nearest
    to -0.3; only the smart snapping is on. *)
Definition nearMiss : Config :=
  {| size_w := 800; size_h := 800; snapGrid := false; gridSize := 40;
     showCells := false; rows := 2; cols := 3; cellGapX := 16; cellGapY := 16;
     snapSmart := true;
     items := [ item "a" (fl (- (83 # 10))) 213; item "b" (fl (- (3 # 10))) 507 ];
     activeId := Some "a" |}.

(** An 800 x 800 canvas with the three snapping toggles off. *)
Definition togglesOff : Config :=
  {| size_w := 800; size_h := 800; snapGrid := false; gridSize := 40;
     showCells := false; rows := 2; cols := 3; cellGapX := 16; cellGapY := 16;
     snapSmart := false;
     items := [ item "a" 100 100; item "b" 507 333 ];
     activeId := Some "a" |}.

(** An 800 x 800 canvas of 2 x 3 cells with a gap of 16, only the cells
    on. *)
Definition cellsOnly : Config :=
  {| size_w := 800; size_h := 800; snapGrid := false; gridSize := 40;
     showCells := true; rows := 2; cols := 3; cellGapX := 16; cellGapY := 16;
     snapSmart := false;
     items := [ item "a" 100 100; item "b" 507 333 ];
     activeId := Some "a" |}.

(** A drag of the item grabbed at its centre. *)
Definition grabbed : DragRefs :=
  {| dragging := true; dragOffset := Some (0, 0); lastGuides := ([], []) |}.

End DoubleSamples.

(** ** The preview worker's message handler: what it is meant to do *)

Module WorkerLoopNotions.
Import Types Compositor UIWorkerLoop.

(** The number [v] is the integer [size]. *)
Definition sameNumber (size : Z) (v : JSNumber) : Prop :=
  match v with
  | Finite q => q == inject_Z size
  | NotFinite => False
  end.

(** Assigning [v] to a canvas dimension succeeds and leaves [n] there:
    [v] is finite, above -1 and below 2^53, and [n] is [v] without its
    fraction. *)
Definition accepted (v : JSNumber) (n : Z) : Prop :=
  exists q, v = Finite q /\ - (1) < q /\ q < inject_Z (2 ^ 53)
            /\ n = Z.max 0 (Qfloor q).

(** Assigning [v] to a canvas dimension throws. *)
Definition refused (v : JSNumber) : Prop :=
  v = NotFinite \/ exists q, v = Finite q /\ (q <= - (1) \/ inject_Z (2 ^ 53) <= q).

(** The worker holds a canvas of [w] by [h] with its context, and the
    message is a draw with state, bitmaps and viewport. *)
Definition ready (g : Global) (d : Data) (w h : Z) (st : WorkerState)
           (bm : WorkerBitmapsPayload) (vw vh : JSNumber) : Prop :=
  data_type d = "draw" /\ ctx g = true /\ canvas g = Some (w, h)
  /\ data_state d = Some st /\ data_bitmaps d = Some bm
  /\ data_viewport d = Some (vw, vh).

(** The handler painted [drawCanvas] at [width] by [height], the size
    the canvas is left with. *)
Definition paintedAt (out : Global * list Op * Ending) (width height : Z)
           (st : WorkerState) (bm : WorkerBitmapsPayload) : Prop :=
  let r := UIWorker.drawCanvas (inject_Z width) (inject_Z height) st bm in
  ctx (fst (fst out)) = true
  /\ canvas (fst (fst out)) = Some (width, height)
  /\ snd (fst out) = painted r
  /\ (exists rest,
        snd (fst out) = clearRect 0 0 (inject_Z width) (inject_Z height) :: rest)
  /\ snd out = match thrown r with
               | Some error => Logged error
               | None => Returned
               end.

End WorkerLoopNotions.

(** ** Concrete inputs of the arrangement scenarios *)

Module SceneSamples.
Import FreeformCanvas FreeformScene.

(** The initial knobs of the tidy arrangement. *)
Definition tidyDefaults : TidyOptions :=
  {| thumbWidth := 160; thumbGap := 12; maxCols := 5 |}.

End SceneSamples.

(** ** Notions of the scene properties *)

Module SceneNotions.
Import FreeformCanvas.

(** What an item shows: its id and the natural size of its image. *)
Definition pictures (l : list Item) : list (string * Z * Z) :=
  map (fun p => (item_id p, item_naturalWidth p, item_naturalHeight p)) l.


(** Cosine and sine at the angle zero, the only rotation of the samples. *)
Definition cos0 (a : Q) : Q := 1.
Definition sin0 (a : Q) : Q := 0.

End SceneNotions.

(** ** Notions of the export properties *)

Module ScaleNotions.
Import Compositor Geometry.

(** A rectangle stretched by [sx] across and [sy] down, from the origin. *)
Definition scaleRect (sx sy : Q) (r : Rect) : Rect :=
  {| rect_x := sx * rect_x r; rect_y := sy * rect_y r;
     rect_w := sx * rect_w r; rect_h := sy * rect_h r |}.

(** Call [e] is call [p] stretched: the same picture with the same zoom
    or opacity, on the stretched rectangle, the blur radius stretched
    with the width. *)
Definition stretched (sx sy : Q) (e p : Call) : Prop :=
  Rect_eq (placement e) (scaleRect sx sy (placement p))
  /\ match e, p with
     | callDrawImage i _ _ _ _ z, callDrawImage i' _ _ _ _ z' => i = i' /\ z = z'
     | callTile i _ _ _ _ a b, callTile i' _ _ _ _ a' b' =>
         i = i' /\ a = a' /\ b == sx * b'
     | _, _ => False
     end.

End ScaleNotions.

(** * Properties *)

(** ** Arithmetic of the [Math] helpers *)

Module JSMathFacts.
Import JSMath.

Lemma Qlt_bool_true (a b : Q) : Qlt_bool a b = true <-> a < b.
Proof.
  unfold Qlt_bool. rewrite negb_true_iff. split.
  - intro H. apply Qnot_le_lt. intro L. apply Qle_bool_iff in L. congruence.
  - intro H. destruct (Qle_bool b a) eqn:E; [|reflexivity].
    apply Qle_bool_iff in E. exfalso. lra.
Qed.

Lemma Qlt_bool_false (a b : Q) : Qlt_bool a b = false <-> b <= a.
Proof.
  unfold Qlt_bool. rewrite negb_false_iff. apply Qle_bool_iff.
Qed.

Lemma Qle_bool_false (a b : Q) : Qle_bool a b = false <-> b < a.
Proof.
  split.
  - intro H. apply Qnot_le_lt. intro L. apply Qle_bool_iff in L. congruence.
  - intro H. destruct (Qle_bool a b) eqn:E; [|reflexivity].
    apply Qle_bool_iff in E. exfalso. lra.
Qed.

Lemma max_0_cases (a : Q) : (0 <= a /\ max 0 a = a) \/ (a < 0 /\ max 0 a = 0).
Proof.
  unfold max. destruct (Qle_bool 0 a) eqn:E.
  - left. apply Qle_bool_iff in E. auto.
  - right. apply Qle_bool_false in E. auto.
Qed.

Lemma max_0_nonneg (a : Q) : 0 <= max 0 a.
Proof. destruct (max_0_cases a) as [[? ->]|[? ->]]; lra. Qed.

Lemma max_0_pos (a : Q) : 0 < max 0 a -> max 0 a = a.
Proof. destruct (max_0_cases a) as [[? ->]|[? ->]]; [reflexivity | lra]. Qed.

Lemma ceil_sqrt_spec (n : Z) : (0 <= n)%Z ->
  (0 <= ceil_sqrt n /\ n <= ceil_sqrt n * ceil_sqrt n /\
   forall k, 0 <= k -> n <= k * k -> ceil_sqrt n <= k)%Z.
Proof.
  intro Hn. unfold ceil_sqrt.
  pose proof (Z.sqrt_spec n Hn) as [Hlo Hhi].
  pose proof (Z.sqrt_nonneg n) as Hs.
  destruct (Z.eqb_spec (Z.sqrt n * Z.sqrt n) n) as [E|E]; cbv zeta.
  - repeat split; [lia | lia |]. intros k Hk Hkk.
    destruct (Z_lt_le_dec k (Z.sqrt n)) as [L|L]; [nia | lia].
  - repeat split; [lia | nia |]. intros k Hk Hkk.
    destruct (Z_lt_le_dec k (Z.sqrt n + 1)) as [L|L]; [nia | lia].
Qed.

Lemma ceil_sqrt_pos (n : Z) : (1 <= n)%Z -> (1 <= ceil_sqrt n)%Z.
Proof.
  intro Hn. destruct (ceil_sqrt_spec n ltac:(lia)) as (H0 & H1 & _). nia.
Qed.

(** [Math.ceil(n / d)] is the integer ceiling of the quotient. *)
Lemma ceil_div_spec (n d : Z) : (0 < d)%Z ->
  ((ceil_div n d - 1) * d < n <= ceil_div n d * d)%Z.
Proof.
  intro Hd. unfold ceil_div.
  set (q := inject_Z n / inject_Z d).
  assert (Hdq : 0 < inject_Z d) by (change 0 with (inject_Z 0); rewrite <- Zlt_Qlt; lia).
  assert (Hq : q * inject_Z d == inject_Z n) by (unfold q; field; lra).
  pose proof (Qle_ceiling q) as Hle.
  pose proof (Qceiling_lt q) as Hlt.
  split.
  - rewrite Zlt_Qlt, inject_Z_mult, <- Hq.
    apply Qmult_lt_compat_r; [exact Hdq | exact Hlt].
  - rewrite Zle_Qle, inject_Z_mult, <- Hq.
    apply Qmult_le_compat_r; [exact Hle | lra].
Qed.

Lemma ceil_div_pos (n d : Z) : (1 <= n)%Z -> (0 < d)%Z -> (1 <= ceil_div n d)%Z.
Proof.
  intros Hn Hd. pose proof (ceil_div_spec n d Hd) as [_ H]. nia.
Qed.


Lemma range_length (n : Z) : List.length (range n) = Z.to_nat n.
Proof. unfold range. rewrite length_map, length_seq. reflexivity. Qed.

Lemma range_nth (n : Z) (i : nat) :
  (i < Z.to_nat n)%nat -> nth_error (range n) i = Some (Z.of_nat i).
Proof.
  intro H. unfold range. rewrite nth_error_map, nth_error_seq.
  destruct (Nat.ltb_spec i (Z.to_nat n)); [reflexivity | lia].
Qed.

Lemma In_range (n i : Z) : In i (range n) <-> (0 <= i < n)%Z.
Proof.
  unfold range. rewrite in_map_iff. split.
  - intros (k & <- & Hk). apply in_seq in Hk. lia.
  - intro H. exists (Z.to_nat i). split; [lia|]. apply in_seq. lia.
Qed.

Lemma mapi_from_map {A B C : Type} (g : B -> C) (f : A -> Z -> B) (l : list A) (i : Z) :
  map g (mapi_from i f l) = mapi_from i (fun a k => g (f a k)) l.
Proof.
  revert i. induction l as [|a r IH]; intro i; simpl; [reflexivity|].
  now rewrite IH.
Qed.

Lemma mapi_from_const {A B : Type} (f : Z -> B) (l : list A) (i : Z) :
  mapi_from i (fun _ k => f k) l
  = map (fun k : nat => f (i + Z.of_nat k)%Z) (seq 0 (List.length l)).
Proof.
  revert i. induction l as [|a r IH]; intro i; simpl; [reflexivity|].
  f_equal.
  - f_equal. lia.
  - rewrite IH. rewrite <- seq_shift, map_map.
    apply map_ext. intro k. f_equal. lia.
Qed.

End JSMathFacts.

(** ** Rounding to double precision *)

Module Float64Facts.
Import Float64.

Lemma pow2_pos (z : Z) : 0 < pow2 z.
Proof. unfold pow2. apply Qpower_0_lt. reflexivity. Qed.

Lemma pow2_plus (n m : Z) : pow2 (n + m) == pow2 n * pow2 m.
Proof. unfold pow2. apply Qpower_plus. discriminate. Qed.

Lemma pow2_le (n m : Z) : (n <= m)%Z -> pow2 n <= pow2 m.
Proof. intro H. unfold pow2. apply Qpower_le_compat_l; [exact H | discriminate]. Qed.

Lemma pow2_nonneg_Z (n : Z) : (0 <= n)%Z -> pow2 n == inject_Z (2 ^ n).
Proof. intro H. unfold pow2. rewrite Zpower_Qpower by exact H. reflexivity. Qed.

Lemma ilog2_spec (a : Q) : 0 < a -> pow2 (ilog2 a) <= a /\ a < pow2 (ilog2 a + 1).
Proof.
  intro Ha. destruct a as [n d]. 
  assert (Hn : (0 < n)%Z) by (unfold Qlt in Ha; cbn in Ha; lia).
  unfold ilog2. cbn [Qnum Qden].
  set (ln := Z.log2 n). set (ld := Z.log2 (Z.pos d)).
  destruct (Z.log2_spec n Hn) as [N1 N2]. fold ln in N1, N2.
  destruct (Z.log2_spec (Z.pos d) eq_refl) as [D1 D2]. fold ld in D1, D2.
  assert (Ln : (0 <= ln)%Z) by apply Z.log2_nonneg.
  assert (Ld : (0 <= ld)%Z) by apply Z.log2_nonneg.
  set (P := pow2 (ln - ld)).
  assert (PB : P * inject_Z (2 ^ ld) == inject_Z (2 ^ ln)).
  { unfold P. rewrite <- (pow2_nonneg_Z ld), <- (pow2_nonneg_Z ln) by assumption.
    rewrite <- pow2_plus. replace (ln - ld + ld)%Z with ln by lia. reflexivity. }
  assert (Pp : 0 < P) by apply pow2_pos.
  assert (E1 : pow2 (ln - ld + 1) == 2 * P).
  { rewrite pow2_plus. fold P. change (pow2 1) with 2. ring. }
  assert (E2 : 2 * pow2 (ln - ld - 1) == P).
  { change 2 with (pow2 1) at 1. rewrite <- pow2_plus.
    replace (1 + (ln - ld - 1))%Z with (ln - ld)%Z by lia. reflexivity. }
  set (A := inject_Z (2 ^ ln)) in *. set (B := inject_Z (2 ^ ld)) in *.
  set (a := n # d).
  assert (aD : a * inject_Z (Z.pos d) == inject_Z n).
  { unfold a. rewrite (Qmake_Qdiv n d). field. discriminate. }
  assert (HA : A <= inject_Z n) by (unfold A; rewrite <- Zle_Qle; exact N1).
  assert (HA2 : inject_Z n < 2 * A).
  { unfold A. change 2 with (inject_Z 2). rewrite <- inject_Z_mult, <- Zlt_Qlt.
    rewrite Z.pow_succ_r in N2 by assumption. exact N2. }
  assert (HB : B <= inject_Z (Z.pos d)) by (unfold B; rewrite <- Zle_Qle; exact D1).
  assert (HB2 : inject_Z (Z.pos d) < 2 * B).
  { unfold B. change 2 with (inject_Z 2). rewrite <- inject_Z_mult, <- Zlt_Qlt.
    rewrite Z.pow_succ_r in D2 by assumption. exact D2. }
  assert (Bp : 0 < B).
  { unfold B. change 0 with (inject_Z 0). rewrite <- Zlt_Qlt. apply Z.pow_pos_nonneg; lia. }
  set (D := inject_Z (Z.pos d)) in *. set (N := inject_Z n) in *.
  assert (Up : a < 2 * P).
  { apply Qnot_le_lt. intro F. 
    assert (2 * P * D <= a * D) by (apply Qmult_le_compat_r; lra).
    assert (2 * P * B <= 2 * P * D) by (apply Qmult_le_l; lra).
    lra. }
  assert (Lo : pow2 (ln - ld - 1) <= a).
  { apply Qnot_lt_le. intro F.
    assert (a * D < pow2 (ln - ld - 1) * D) by (apply Qmult_lt_compat_r; lra).
    assert (pow2 (ln - ld - 1) * D <= pow2 (ln - ld - 1) * (2 * B)).
    { apply Qmult_le_l; [apply pow2_pos | lra]. }
    assert (pow2 (ln - ld - 1) * (2 * B) == P * B) by (rewrite <- E2; ring).
    lra. }
  fold P. destruct (Qle_bool P a) eqn:E.
  - apply Qle_bool_iff in E. split; [exact E|]. rewrite E1. exact Up.
  - split; [exact Lo|]. replace (ln - ld - 1 + 1)%Z with (ln - ld)%Z by lia. fold P.
    apply Qnot_le_lt. intro F. apply Qle_bool_iff in F. congruence.
Qed.

Lemma nearestEven_floor (m : Q) :
  (Qfloor m <= nearestEven m <= Qfloor m + 1)%Z.
Proof.
  unfold nearestEven.
  destruct (Qle_bool (m - inject_Z (Qfloor m)) (1 # 2));
    [destruct (Qle_bool (1 # 2) (m - inject_Z (Qfloor m)));
     [destruct (Z.even (Qfloor m))|]|]; lia.
Qed.

Lemma nearestEven_ge (m : Q) (k : Z) : inject_Z k <= m -> (k <= nearestEven m)%Z.
Proof.
  intro H. pose proof (nearestEven_floor m).
  assert (k <= Qfloor m)%Z; [|lia].
  rewrite <- (Qfloor_Z k). apply Qfloor_resp_le. exact H.
Qed.

Lemma nearestEven_gt (m : Q) (k : Z) : inject_Z k + (1 # 2) < m -> (k + 1 <= nearestEven m)%Z.
Proof.
  intro H. pose proof (nearestEven_floor m) as F.
  assert (K : (k <= Qfloor m)%Z).
  { rewrite <- (Qfloor_Z k). apply Qfloor_resp_le. lra. }
  destruct (Z.eq_dec (Qfloor m) k) as [E|E]; [|lia].
  unfold nearestEven. rewrite E.
  destruct (Qle_bool (m - inject_Z k) (1 # 2)) eqn:L; [|lia].
  apply Qle_bool_iff in L. exfalso. lra.
Qed.

Lemma nearestDouble_above_8 (a : Q) : 8 + pow2 (-50) < a -> 8 < nearestDouble a.
Proof.
  intro H. assert (P50 : 0 < pow2 (-50)) by apply pow2_pos.
  assert (Ha : 0 < a) by lra.
  destruct (ilog2_spec a Ha) as [Lo Up].
  assert (He : (3 <= ilog2 a)%Z).
  { apply Znot_gt_le. intro F.
    assert (pow2 (ilog2 a + 1) <= pow2 3) by (apply pow2_le; lia).
    change (pow2 3) with 8 in *. lra. }
  unfold nearestDouble, spacing.
  replace (Z.max (ilog2 a - 52) (-1074)) with (ilog2 a - 52)%Z by lia.
  set (s := pow2 (ilog2 a - 52)).
  assert (Sp : 0 < s) by apply pow2_pos.
  assert (S52 : inject_Z (2 ^ 52) * s == pow2 (ilog2 a)).
  { unfold s. rewrite <- (pow2_nonneg_Z 52) by lia. rewrite <- pow2_plus.
    replace (52 + (ilog2 a - 52))%Z with (ilog2 a) by lia. reflexivity. }
  assert (Em : a / s * s == a) by (field; lra).
  destruct (Z.eq_dec (ilog2 a) 3) as [E3|E3].
  - assert (Es : s == pow2 (-49)) by (unfold s; rewrite E3; reflexivity).
    assert (G : (2 ^ 52 + 1 <= nearestEven (a / s))%Z).
    { apply nearestEven_gt.
      apply Qnot_le_lt. intro F.
      assert (a / s * s <= (inject_Z (2 ^ 52) + (1 # 2)) * s)
        by (apply Qmult_le_compat_r; lra).
      rewrite Em in H0.
      assert ((inject_Z (2 ^ 52) + (1 # 2)) * s == 8 + pow2 (-50)).
      { rewrite Es. vm_compute. reflexivity. }
      lra. }
    rewrite Zle_Qle in G.
    assert (inject_Z (2 ^ 52 + 1) * s <= inject_Z (nearestEven (a / s)) * s)
      by (apply Qmult_le_compat_r; lra).
    assert (8 < inject_Z (2 ^ 52 + 1) * s) by (rewrite Es; vm_compute; reflexivity).
    lra.
  - assert (G : (2 ^ 52 <= nearestEven (a / s))%Z).
    { apply nearestEven_ge. apply Qnot_lt_le. intro F.
      assert (a / s * s < inject_Z (2 ^ 52) * s) by (apply Qmult_lt_compat_r; lra).
      rewrite Em, S52 in H0. lra. }
    rewrite Zle_Qle in G.
    assert (inject_Z (2 ^ 52) * s <= inject_Z (nearestEven (a / s)) * s)
      by (apply Qmult_le_compat_r; lra).
    assert (pow2 4 <= pow2 (ilog2 a)) by (apply pow2_le; lia).
    change (pow2 4) with 16 in *. lra.
Qed.

Lemma nearestDouble_nonneg (a : Q) : 0 <= a -> 0 <= nearestDouble a.
Proof.
  intro Ha. unfold nearestDouble.
  assert (Sp : 0 < spacing a) by apply pow2_pos.
  apply Qmult_le_0_compat; [|lra].
  change 0 with (inject_Z 0). rewrite <- Zle_Qle. apply nearestEven_ge.
  change (inject_Z 0) with 0. unfold Qdiv. apply Qmult_le_0_compat; [exact Ha|].
  apply Qlt_le_weak. now apply Qinv_lt_0_compat.
Qed.

Lemma fl_0 : fl 0 = 0.
Proof. reflexivity. Qed.

(** What the threshold test of a rounded difference says of the exact one. *)
Lemma fl_within_8 (x : Q) : Qabs (fl x) <= 8 -> Qabs x <= 8 + pow2 (-50).
Proof.
  assert (P50 : 0 < pow2 (-50)) by apply pow2_pos.
  unfold fl. destruct (Qle_bool x 0) eqn:E1.
  - apply Qle_bool_iff in E1. destruct (Qle_bool 0 x) eqn:E2.
    + apply Qle_bool_iff in E2. intros _. 
      assert (x == 0) by lra. rewrite H. cbn. lra.
    + intro H. rewrite Qabs_opp in H.
      assert (N : 0 <= nearestDouble (- x)) by (apply nearestDouble_nonneg; lra).
      rewrite Qabs_pos in H by exact N.
      rewrite Qabs_neg by exact E1.
      apply Qnot_lt_le. intro F. pose proof (nearestDouble_above_8 (- x) F). lra.
  - intro H. 
    assert (X : 0 < x). { apply Qnot_le_lt. intro F. apply Qle_bool_iff in F. congruence. }
    assert (N : 0 <= nearestDouble x) by (apply nearestDouble_nonneg; lra).
    rewrite Qabs_pos in H by exact N. rewrite Qabs_pos by lra.
    apply Qnot_lt_le. intro F. pose proof (nearestDouble_above_8 x F). lra.
Qed.

(** [nearestEven] is within a half of its argument. *)
Lemma nearestEven_close (m : Q) : Qabs (inject_Z (nearestEven m) - m) <= 1 # 2.
Proof.
  pose proof (Qfloor_le m) as L. pose proof (Qlt_floor m) as U.
  rewrite inject_Z_plus in U. change (inject_Z 1) with 1 in U.
  apply Qabs_Qle_condition. unfold nearestEven.
  destruct (Qle_bool (m - inject_Z (Qfloor m)) (1 # 2)) eqn:E1.
  - apply Qle_bool_iff in E1.
    destruct (Qle_bool (1 # 2) (m - inject_Z (Qfloor m))) eqn:E2.
    + apply Qle_bool_iff in E2. destruct (Z.even (Qfloor m)).
      * split; lra.
      * rewrite inject_Z_plus. change (inject_Z 1) with 1. split; lra.
    + split; lra.
  - assert (X : (1 # 2) < m - inject_Z (Qfloor m)).
    { apply Qnot_le_lt. intro F. apply Qle_bool_iff in F. congruence. }
    rewrite inject_Z_plus. change (inject_Z 1) with 1. split; lra.
Qed.

(** Rounding moves a number by at most half the spacing of the doubles
    around it. *)
Lemma nearestDouble_close (a : Q) : Qabs (nearestDouble a - a) <= spacing a / 2.
Proof.
  assert (Sp : 0 < spacing a) by apply pow2_pos.
  unfold nearestDouble. set (s := spacing a) in *.
  assert (E : inject_Z (nearestEven (a / s)) * s - a
              == (inject_Z (nearestEven (a / s)) - a / s) * s) by (field; lra).
  rewrite E, Qabs_Qmult, (Qabs_pos s) by lra.
  pose proof (nearestEven_close (a / s)) as C.
  assert (Qabs (inject_Z (nearestEven (a / s)) - a / s) * s <= (1 # 2) * s)
    by (apply Qmult_le_compat_r; lra).
  assert ((1 # 2) * s == s / 2) by (field).
  lra.
Qed.

Lemma fl_close (q : Q) : Qabs (fl q - q) <= spacing (Qabs q) / 2.
Proof.
  assert (Sp : 0 < spacing (Qabs q)) by apply pow2_pos.
  unfold fl. destruct (Qle_bool q 0) eqn:E1.
  - apply Qle_bool_iff in E1. destruct (Qle_bool 0 q) eqn:E2.
    + apply Qle_bool_iff in E2.
      assert (Z0 : 0 - q == 0) by lra. rewrite Z0. change (Qabs 0) with 0.
      unfold Qdiv. change (/ 2) with (1 # 2). lra.
    + assert (A : - nearestDouble (- q) - q == - (nearestDouble (- q) - (- q))) by ring.
      rewrite A, Qabs_opp. 
      assert (B : Qabs q = - q).
      { destruct q as [n d]. unfold Qabs, Qopp. cbn [Qnum Qden].
        unfold Qle in E1. cbn in E1. rewrite Z.abs_neq by lia. reflexivity. }
      rewrite B. apply nearestDouble_close.
  - assert (X : 0 < q). { apply Qnot_le_lt. intro F. apply Qle_bool_iff in F. congruence. }
    assert (B : Qabs q = q).
    { destruct q as [n d]. unfold Qabs. cbn [Qnum Qden].
      unfold Qlt in X. cbn in X. rewrite Z.abs_eq by lia. reflexivity. }
    rewrite B. apply nearestDouble_close.
Qed.

(** The doubles nearest to 0.1 and to 2^53 + 1 (a tie, which goes to the
    even significand), and whole numbers, which round to themselves. *)
Example fl_one_tenth : fl (1 # 10) == 3602879701896397 # 36028797018963968.
Proof. vm_compute. reflexivity. Qed.

Example fl_tie_to_even :
  fl (inject_Z (2 ^ 53 + 1)) == inject_Z (2 ^ 53)
  /\ fl (inject_Z (2 ^ 53 + 3)) == inject_Z (2 ^ 53 + 4).
Proof. split; vm_compute; reflexivity. Qed.

Example fl_whole_numbers : fl 8 == 8 /\ fl 395 == 395 /\ fl (- (10)) == - (10).
Proof. repeat split; vm_compute; reflexivity. Qed.

End Float64Facts.


(** ** The snap search *)

Module SnapFacts.
Import JSMath JSMathFacts FreeformCanvas SnapNotions.

Lemma step_miss (n : Q) (l : list Q) (b : Best) (t : Q) :
  miss n l b -> miss n (l ++ [t]) (step n b t) \/ hit n (l ++ [t]) (step n b t).
Proof.
  intros (Hg & Hs & Hb & Hall). unfold step. rewrite Hb.
  destruct (Qle_bool (abs (t - n)) thresh) eqn:Ele.
  - apply Qle_bool_iff in Ele.
    assert (Hlt : Qlt_bool (abs (t - n)) (thresh + 1) = true)
      by (apply Qlt_bool_true; lra).
    rewrite Hlt. right. unfold hit. cbn [andb snappedTo guide bestD]. repeat split; auto.
    + apply in_or_app. right. now left.
    + intros u Hu. apply in_app_or in Hu as [Hu|[<-|[]]]; [|lra].
      specialize (Hall u Hu). lra.
  - rewrite andb_false_r. left. apply Qle_bool_false in Ele.
    repeat split; auto.
    intros u Hu. apply in_app_or in Hu as [Hu|[<-|[]]]; auto.
Qed.

Lemma step_hit (n : Q) (l : list Q) (b : Best) (t : Q) :
  hit n l b -> hit n (l ++ [t]) (step n b t).
Proof.
  intros (Hg & Hin & Hb & Hle & Hall). unfold step.
  destruct (Qlt_bool (abs (t - n)) (bestD b) && Qle_bool (abs (t - n)) thresh) eqn:E.
  - apply andb_true_iff in E as [E1 E2].
    apply Qlt_bool_true in E1. apply Qle_bool_iff in E2. rewrite Hb in E1.
    unfold hit. cbn [snappedTo guide bestD]. repeat split; auto.
    + apply in_or_app. right. now left.
    + intros u Hu. apply in_app_or in Hu as [Hu|[<-|[]]]; [|lra].
      specialize (Hall u Hu). lra.
  - repeat split; auto.
    + apply in_or_app. now left.
    + intros u Hu. apply in_app_or in Hu as [Hu|[<-|[]]]; [now apply Hall|].
      apply andb_false_iff in E as [E|E].
      * apply Qlt_bool_false in E. rewrite Hb in E. exact E.
      * apply Qle_bool_false in E. lra.
Qed.

(** The loop invariant of the search, at the end of the loop. *)
Lemma nearest_inv (n : Q) (l : list Q) :
  miss n l (nearest n l) \/ hit n l (nearest n l).
Proof.
  unfold nearest. induction l as [|t l IH] using rev_ind.
  - left. cbn. repeat split; auto. intros t [].
  - rewrite fold_left_app. cbn [fold_left].
    destruct IH as [IH|IH].
    + now apply step_miss.
    + right. now apply step_hit.
Qed.


Lemma guideList_length (b : Best) : (List.length (guideList b) <= 1)%nat.
Proof. unfold guideList. destruct (guide b); simpl; lia. Qed.





End SnapFacts.

(** ** Claims about the snap search *)

Section SnapClaims.
Import JSMath FreeformCanvas SnapNotions SnapFacts SnapSamples.

(** Dropping an item five pixels left of the horizontal centre snaps its
    x to [w / 2] and yields one vertical guide; y, with nothing within
    eight pixels of 213, stays raw. *)
Example snap_to_canvas_centre :
  let s := getSnapped sampleConfig 395 213 false in
  snapped_x s == 400 /\ guidesX s = [snapped_x s] /\
  snapped_y s = 213 /\ guidesY s = [].
Proof. vm_compute. repeat split. Qed.


End SnapClaims.

(** ** The snap search in double precision *)

Module DoubleSnapFacts.
Import JSMath JSMathFacts FreeformCanvas Float64 Float64Facts.
Import FreeformDoubles DoubleNotions.

Lemma fl_eq0 (q : Q) : q == 0 -> fl q = 0.
Proof.
  intro E. unfold fl.
  assert (A : Qle_bool q 0 = true) by (apply Qle_bool_iff; lra).
  assert (B : Qle_bool 0 q = true) by (apply Qle_bool_iff; lra).
  now rewrite A, B.
Qed.

Lemma dist_self (n : Q) : dist n n = 0.
Proof. unfold dist. rewrite fl_eq0 by ring. reflexivity. Qed.

Lemma step_none_yet (n : Q) (l : list Q) (b : Best) (t : Q) :
  noneYet n l b -> noneYet n (l ++ [t]) (step n b t) \/ bestSoFar n (l ++ [t]) (step n b t).
Proof.
  intros (Hg & Hs & Hb & Hall). unfold step, abs, thresh. rewrite Hb. fold (dist n t).
  destruct (Qle_bool (dist n t) 8) eqn:Ele.
  - apply Qle_bool_iff in Ele.
    assert (Hlt : Qlt_bool (dist n t) (8 + 1) = true) by (apply Qlt_bool_true; lra).
    rewrite Hlt. right. unfold bestSoFar. cbn [andb snappedTo guide bestD].
    split; [reflexivity|]. split; [reflexivity|]. split; [exact Ele|].
    exists l, []. split; [reflexivity|]. split.
    + intros u Hu. specialize (Hall u Hu). lra.
    + intros u [].
  - rewrite andb_false_r. left. apply Qle_bool_false in Ele.
    split; [exact Hg|]. split; [exact Hs|]. split; [exact Hb|].
    intros u Hu. apply in_app_or in Hu as [Hu|[<-|[]]]; auto.
Qed.

Lemma step_best_so_far (n : Q) (l : list Q) (b : Best) (t : Q) :
  bestSoFar n l b -> bestSoFar n (l ++ [t]) (step n b t).
Proof.
  intros (Hg & Hb & Hle & pre & post & El & Hpre & Hpost).
  unfold step, abs, thresh. fold (dist n t).
  destruct (Qlt_bool (dist n t) (bestD b) && Qle_bool (dist n t) 8) eqn:E.
  - apply andb_true_iff in E as [E1 E2].
    apply Qlt_bool_true in E1. apply Qle_bool_iff in E2. rewrite Hb in E1.
    unfold bestSoFar. cbn [snappedTo guide bestD].
    split; [reflexivity|]. split; [reflexivity|]. split; [exact E2|].
    exists l, []. split; [reflexivity|]. split.
    + intros u Hu. rewrite El in Hu. apply in_app_or in Hu as [Hu|[<-|Hu]].
      * specialize (Hpre u Hu). lra.
      * exact E1.
      * specialize (Hpost u Hu). lra.
    + intros u [].
  - split; [exact Hg|]. split; [exact Hb|]. split; [exact Hle|].
    exists pre, (post ++ [t]). split.
    + rewrite El, <- app_assoc. reflexivity.
    + split; [exact Hpre|].
      intros u Hu. apply in_app_or in Hu as [Hu|[<-|[]]]; [now apply Hpost|].
      apply andb_false_iff in E as [E|E].
      * apply Qlt_bool_false in E. rewrite Hb in E. exact E.
      * apply Qle_bool_false in E. lra.
Qed.

(** The loop invariant of the search, at the end of the loop. *)
Lemma search_inv (n : Q) (l : list Q) :
  noneYet n l (nearest n l) \/ bestSoFar n l (nearest n l).
Proof.
  unfold nearest. induction l as [|t l IH] using rev_ind.
  - left. cbn. repeat split; auto. intros t [].
  - rewrite fold_left_app. cbn [fold_left].
    destruct IH as [IH|IH].
    + now apply step_none_yet.
    + right. now apply step_best_so_far.
Qed.

Lemma firstNearest_In (n : Q) (l : list Q) (s : Q) : firstNearest n l s -> In s l.
Proof. intros (pre & post & -> & _). apply in_or_app. right. now left. Qed.

Lemma nearest_axisResult (n : Q) (l : list Q) :
  axisResult n l (snappedTo (nearest n l)) (guideList (nearest n l)).
Proof.
  unfold axisResult, guideList.
  destruct (search_inv n l) as [(Hg & Hs & _ & Hall)|(Hg & _ & Hle & Hfn)];
    rewrite Hg; split.
  - intros (t & Ht & Hd). specialize (Hall t Ht). exfalso. lra.
  - intros _. auto.
  - intros _. auto.
  - intros Hfar. specialize (Hfar _ (firstNearest_In _ _ _ Hfn)). exfalso. lra.
Qed.

(** The difference the code computes is within the threshold. *)
Lemma nearest_computed_within (n : Q) (l : list Q) :
  dist n (snappedTo (nearest n l)) <= 8.
Proof.
  destruct (search_inv n l) as [(_ & Hs & _)|(_ & _ & Hle & _)]; [|exact Hle].
  rewrite Hs, dist_self. lra.
Qed.

(** The exact difference is within the threshold and the rounding of
    one subtraction. *)
Lemma nearest_exact_within (n : Q) (l : list Q) :
  Qabs (snappedTo (nearest n l) - n) <= 8 + pow2 (-50).
Proof. apply fl_within_8. apply nearest_computed_within. Qed.

Lemma unsnapped_within (n : Q) : dist n n <= 8 /\ Qabs (n - n) <= 8 + pow2 (-50).
Proof.
  split; [rewrite dist_self; lra|].
  setoid_replace (n - n) with 0 by ring. pose proof (pow2_pos (-50)). cbn [Qabs Z.abs Qnum Qden]. 
  change (Qabs 0) with 0. lra.
Qed.

Lemma range_In (n k : Z) : In k (range n) <-> (0 <= k < n)%Z.
Proof.
  unfold range. rewrite in_map_iff. split.
  - intros (i & <- & Hi). apply in_seq in Hi. lia.
  - intros H. exists (Z.to_nat k). split; [lia|]. apply in_seq. lia.
Qed.

Lemma cellCandX_In (c : Config) (t : Q) :
  In t (cellCandX c) <->
  showCells c = true /\ (0 < rows c)%Z /\ (0 < cols c)%Z /\
  exists k, (0 <= k < cols c)%Z /\
    (t = cellStart (size_w c) (cellGapX c) (cols c) k
     \/ t = fl (cellStart (size_w c) (cellGapX c) (cols c) k
               + fl (cellSize (size_w c) (cellGapX c) (cols c) / 2))
     \/ t = fl (cellStart (size_w c) (cellGapX c) (cols c) k
               + cellSize (size_w c) (cellGapX c) (cols c))).
Proof.
  unfold cellCandX, cellsOn, cellStart, cellSize. split.
  - destruct (showCells c); [|intros []].
    destruct (Z.ltb_spec 0 (rows c)); [|intros []].
    destruct (Z.ltb_spec 0 (cols c)); [|intros []]. cbn [andb].
    rewrite in_flat_map. intros (r & Hr & Hin).
    rewrite in_flat_map in Hin. destruct Hin as (k & Hk & Hin).
    apply range_In in Hk.
    split; [reflexivity|]. split; [assumption|]. split; [assumption|].
    exists k. split; [exact Hk|].
    destruct Hin as [<-|[<-|[<-|[]]]]; auto.
  - intros (-> & Hrows & Hcols & k & Hk & Ht).
    apply Z.ltb_lt in Hrows as Hr'. apply Z.ltb_lt in Hcols as Hc'. rewrite Hr', Hc'.
    cbn [andb]. rewrite in_flat_map. exists 0%Z. split; [apply range_In; lia|].
    rewrite in_flat_map. exists k. split; [apply range_In; exact Hk|].
    destruct Ht as [-> | [-> | ->]]; cbn; auto.
Qed.

Lemma cellCandY_In (c : Config) (t : Q) :
  In t (cellCandY c) <->
  showCells c = true /\ (0 < rows c)%Z /\ (0 < cols c)%Z /\
  exists k, (0 <= k < rows c)%Z /\
    (t = cellStart (size_h c) (cellGapY c) (rows c) k
     \/ t = fl (cellStart (size_h c) (cellGapY c) (rows c) k
               + fl (cellSize (size_h c) (cellGapY c) (rows c) / 2))
     \/ t = fl (cellStart (size_h c) (cellGapY c) (rows c) k
               + cellSize (size_h c) (cellGapY c) (rows c))).
Proof.
  unfold cellCandY, cellsOn, cellStart, cellSize. split.
  - destruct (showCells c); [|intros []].
    destruct (Z.ltb_spec 0 (rows c)); [|intros []].
    destruct (Z.ltb_spec 0 (cols c)); [|intros []]. cbn [andb].
    rewrite in_flat_map. intros (k & Hk & Hin).
    rewrite in_flat_map in Hin. destruct Hin as (cc & Hcc & Hin).
    apply range_In in Hk.
    split; [reflexivity|]. split; [assumption|]. split; [assumption|].
    exists k. split; [exact Hk|].
    destruct Hin as [<-|[<-|[<-|[]]]]; auto.
  - intros (-> & Hrows & Hcols & k & Hk & Ht).
    apply Z.ltb_lt in Hrows as Hr'. apply Z.ltb_lt in Hcols as Hc'. rewrite Hr', Hc'.
    cbn [andb]. rewrite in_flat_map. exists k. split; [apply range_In; exact Hk|].
    rewrite in_flat_map. exists 0%Z. split; [apply range_In; lia|].
    destruct Ht as [-> | [-> | ->]]; cbn; auto.
Qed.

Lemma others_In (proj : Item -> Q) (c : Config) (t : Q) :
  In t (itemCand proj c) <->
  snapSmart c = true /\ (1 < len (items c))%Z /\
  exists it, In it (items c) /\ activeId c <> Some (item_id it) /\ t = proj it.
Proof.
  assert (A : forall it, is_active c it = false <-> activeId c <> Some (item_id it)).
  { intro it. unfold is_active. destruct (activeId c) as [a|].
    - destruct (String.eqb_spec (item_id it) a) as [E|E]; split; intro H;
        try congruence; try (exfalso; apply H; now rewrite E).
    - split; [discriminate | reflexivity]. }
  unfold itemCand, othersOn. split.
  - destruct (snapSmart c); [|intros []].
    destruct (Z.ltb_spec 1 (len (items c))); [|intros []]. cbn.
    rewrite in_map_iff. intros (it & <- & Hin). apply filter_In in Hin as [Hin Hact].
    apply negb_true_iff in Hact. apply A in Hact. eauto 7.
  - intros (-> & Hlen & it & Hin & Hact & ->).
    apply Z.ltb_lt in Hlen. rewrite Hlen. cbn.
    apply in_map. apply filter_In. split; [exact Hin|].
    apply A in Hact. now rewrite Hact.
Qed.

Lemma gridCand_source (c : Config) (n t : Q) :
  In t (gridCand c n) <->
  snapGrid c = true /\ ~ gridSize c == 0 /\
  t = fl (inject_Z (Qfloor (fl (n / gridSize c) + (1 # 2))) * gridSize c).
Proof.
  unfold gridCand, gridLine, round. destruct (snapGrid c).
  - destruct (Qeq_bool (gridSize c) 0) eqn:E.
    + apply Qeq_bool_iff in E. split; [intros [] | intros (_ & H & _); contradiction].
    + apply Qeq_bool_neq in E. cbn. split.
      * intros [<-|[]]. auto.
      * intros (_ & _ & ->). auto.
  - split; [intros [] | intros (H & _); discriminate].
Qed.

Lemma candX_sources (c : Config) (nx t : Q) : In t (candX c nx) <-> sourceX c nx t.
Proof.
  unfold candX, sourceX, axisSource.
  rewrite !in_app_iff, gridCand_source, cellCandX_In, others_In. cbn.
  intuition (subst; auto).
Qed.

Lemma candY_sources (c : Config) (ny t : Q) : In t (candY c ny) <-> sourceY c ny t.
Proof.
  unfold candY, sourceY, axisSource.
  rewrite !in_app_iff, gridCand_source, cellCandY_In, others_In. cbn.
  intuition (subst; auto).
Qed.

End DoubleSnapFacts.

(** ** Claims about the snap search as the engine computes it *)

Section DoubleSnapClaims.
Import JSMath FreeformCanvas FreeformScene Float64 Float64Facts.
Import FreeformDoubles DoubleNotions DoubleSnapFacts DoubleSamples.

(** C2 (as amended): when the search runs it picks, separately for X and
    for Y, the first candidate at the least distance from the raw
    coordinate among those within the threshold of 8, the distance being
    the one the code computes, [Math.abs(t - n)] with the difference
    rounded to a double; an axis with no candidate within the threshold
    keeps its raw coordinate and reports no guide. The candidates are the
    canvas edges and centre, the nearest line of the pixel grid when grid
    snapping is on and the grid size is not zero, the start, centre and
    end of every cell when cells are shown and there are rows and
    columns, and the centres of the items other than the active one when
    smart snapping is on and there are two items or more. Neither axis
    looks at the other, and with the modifier held the raw position comes
    back with no guide. A drag frame runs the search, at the rounded
    [x - dx] and [y - dy] and with the state of the modifier, only when
    one of the three toggles is on; with all three off the item goes to
    the raw position. *)
Theorem C2_snap_search_per_axis (c : Config) (nx ny : Q) :
  let s := getSnapped c nx ny false in
  axisResult nx (candX c nx) (snapped_x s) (guidesX s)
  /\ axisResult ny (candY c ny) (snapped_y s) (guidesY s)
  /\ (forall t, In t (candX c nx) <-> sourceX c nx t)
  /\ (forall t, In t (candY c ny) <-> sourceY c ny t)
  /\ (forall ny', snapped_x (getSnapped c nx ny' false) = snapped_x s
                  /\ guidesX (getSnapped c nx ny' false) = guidesX s)
  /\ (forall nx', snapped_y (getSnapped c nx' ny false) = snapped_y s
                  /\ guidesY (getSnapped c nx' ny false) = guidesY s)
  /\ getSnapped c nx ny true = unsnapped nx ny
  /\ (forall r x y dx dy id altDown,
        dragging r = true -> dragOffset r = Some (dx, dy) ->
        activeId c = Some id -> id <> EmptyString ->
        let out := onMouseMove c r x y altDown in
        let raw_x := fl (x - dx) in
        let raw_y := fl (y - dy) in
        (snapSmart c = true \/ snapGrid c = true \/ showCells c = true ->
         let t := getSnapped c raw_x raw_y altDown in
         fst out = map (moveItem id (snapped_x t) (snapped_y t)) (items c)
         /\ lastGuides (snd out) = (guidesX t, guidesY t))
        /\ (snapSmart c = false -> snapGrid c = false -> showCells c = false ->
            out = (map (moveItem id raw_x raw_y) (items c), r))).
Proof.
  cbv zeta. unfold getSnapped. cbn [snapped_x snapped_y guidesX guidesY].
  split; [apply nearest_axisResult|].
  split; [apply nearest_axisResult|].
  split; [intro t; apply candX_sources|].
  split; [intro t; apply candY_sources|].
  split; [split; reflexivity|].
  split; [split; reflexivity|].
  split; [reflexivity|].
  intros r x y dx dy id altDown Hd Ho Ha Hne. unfold onMouseMove.
  rewrite Hd, Ho, Ha. apply String.eqb_neq in Hne. rewrite Hne. split.
  - intro Hon.
    assert (E : snapSmart c || snapGrid c || showCells c = true).
    { destruct Hon as [-> | [-> | ->]]; rewrite ?orb_true_r; reflexivity. }
    rewrite E. cbn [fst snd lastGuides]. split; reflexivity.
  - intros -> -> ->. reflexivity.
Qed.

(** C2 as stated fails for a drag frame with the three toggles off: on
    the 800 x 800 canvas the centre 400 is a candidate within the
    threshold of the raw x = 395 and the search would select it, yet the
    frame leaves the item at 395. *)
Lemma C2_no_search_with_toggles_off :
  (In (fl (800 / 2)) (candX togglesOff 395) /\ fl (800 / 2) == 400
   /\ dist 395 (fl (800 / 2)) <= 8)
  /\ snapped_x (getSnapped togglesOff 395 213 false) == 400
  /\ match fst (onMouseMove togglesOff grabbed 395 213 false) with
     | p :: _ => item_id p = "a" /\ item_x p == 395 /\ item_y p == 213
     | [] => False
     end.
Proof.
  split; [split; [|split]|split].
  - right. left. reflexivity.
  - vm_compute. reflexivity.
  - vm_compute. discriminate.
  - vm_compute. reflexivity.
  - vm_compute. split; [reflexivity|]. split; reflexivity.
Qed.

(** C10 (as amended): each returned coordinate is within the threshold
    of 8 of the raw one as the code measures it, the difference rounded
    to a double, hence within 8 + 2^-50 exactly; at most one guide is
    reported per axis. *)
Theorem C10_snap_within_threshold (c : Config) (nx ny : Q) (ignoreSnap : bool) :
  let s := getSnapped c nx ny ignoreSnap in
  Qabs (fl (snapped_x s - nx)) <= 8 /\ Qabs (fl (snapped_y s - ny)) <= 8
  /\ Qabs (snapped_x s - nx) <= 8 + pow2 (-50)
  /\ Qabs (snapped_y s - ny) <= 8 + pow2 (-50)
  /\ (List.length (guidesX s) <= 1)%nat /\ (List.length (guidesY s) <= 1)%nat.
Proof.
  cbv zeta. unfold getSnapped.
  destruct ignoreSnap; cbn [snapped_x snapped_y guidesX guidesY].
  - destruct (unsnapped_within nx) as [A B]. destruct (unsnapped_within ny) as [C D].
    repeat split; auto.
  - split; [apply nearest_computed_within|].
    split; [apply nearest_computed_within|].
    split; [apply nearest_exact_within|].
    split; [apply nearest_exact_within|].
    split; apply SnapFacts.guideList_length.
Qed.

(** C10 as stated fails: with the raw x at the double nearest to -8.3
    and another item at the double nearest to -0.3 the computed
    difference is 8 and the item is snapped, while the two doubles are
    more than 8 apart. *)
Lemma C10_exact_difference_above_8 :
  let nx := fl (- (83 # 10)) in
  let s := getSnapped nearMiss nx 213 false in
  snapped_x s = fl (- (3 # 10))
  /\ fl (snapped_x s - nx) == 8
  /\ 8 < Qabs (snapped_x s - nx).
Proof. vm_compute. split; [reflexivity|]. split; reflexivity. Qed.

(** The two readings differ on cells as well: with the raw x at the
    double nearest to 760/3 the cell edge the code computes, the double
    above 784/3, is farther than 8 as the code measures it, and x stays
    raw; in exact arithmetic the edge 784/3 is within the threshold. *)
Example rounded_cell_edge_out_of_reach :
  let nx := fl (760 # 3) in
  snapped_x (getSnapped cellsOnly nx 213 false) = nx
  /\ guidesX (getSnapped cellsOnly nx 213 false) = []
  /\ snapped_x (FreeformCanvas.getSnapped cellsOnly nx 213 false) == 784 # 3.
Proof. vm_compute. split; [reflexivity|]. split; reflexivity. Qed.

End DoubleSnapClaims.


(** ** Geometry of the cell loops *)

Module GeometryFacts.
Import JSMath JSMathFacts Types Compositor Geometry.

(** Linear arithmetic once halves are written as products. *)
Ltac halves := unfold Qdiv in *; change (/ 2) with (1 # 2) in *.
Ltac qlra := halves; lra.

Lemma inject_Z_succ_le (a b : Z) : (a + 1 <= b)%Z -> inject_Z a + 1 <= inject_Z b.
Proof.
  intro H. rewrite Zle_Qle, inject_Z_plus in H. exact H.
Qed.

Lemma inject_Z_nonneg (a : Z) : (0 <= a)%Z -> 0 <= inject_Z a.
Proof. intro H. rewrite Zle_Qle in H. exact H. Qed.

Lemma inject_Z_pos (a : Z) : (0 < a)%Z -> 0 < inject_Z a.
Proof. intro H. rewrite Zlt_Qlt in H. exact H. Qed.

Lemma overlap_sym (a b : Rect) : overlap a b -> overlap b a.
Proof. unfold overlap. tauto. Qed.

Lemma placements_cells (cols : Z) (x0 y0 cw ch gx gy : Q) (imgs : list ImageBitmap) :
  map placement (mapi (cellCall cols x0 y0 cw ch gx gy) imgs)
  = cellRects (len imgs) cols x0 y0 cw ch gx gy.
Proof.
  unfold mapi, cellRects, range, len. rewrite mapi_from_map.
  unfold cellCall, placement.
  rewrite (mapi_from_const
             (fun k => {| rect_x := x0 + inject_Z (k mod cols) * (cw + gx);
                          rect_y := y0 + inject_Z (k / cols) * (ch + gy);
                          rect_w := cw; rect_h := ch |})).
  rewrite Nat2Z.id, map_map. reflexivity.
Qed.


Lemma cellRects_nth (n cols : Z) (x0 y0 cw ch gx gy : Q) (i : nat) (r : Rect) :
  nth_error (cellRects n cols x0 y0 cw ch gx gy) i = Some r ->
  (Z.of_nat i < n)%Z /\
  r = {| rect_x := x0 + inject_Z (Z.of_nat i mod cols) * (cw + gx);
         rect_y := y0 + inject_Z (Z.of_nat i / cols) * (ch + gy);
         rect_w := cw; rect_h := ch |}.
Proof.
  unfold cellRects. rewrite nth_error_map. intro H.
  destruct (nth_error (range n) i) as [k|] eqn:E; [|discriminate].
  assert (Hi : (i < Z.to_nat n)%nat).
  { rewrite <- (range_length n). apply nth_error_Some. congruence. }
  rewrite range_nth in E by exact Hi. injection E as <-. injection H as <-.
  split; [lia | reflexivity].
Qed.

Lemma cellRects_In (n cols : Z) (x0 y0 cw ch gx gy : Q) (r : Rect) :
  In r (cellRects n cols x0 y0 cw ch gx gy) ->
  exists i, (0 <= i < n)%Z /\
    r = {| rect_x := x0 + inject_Z (i mod cols) * (cw + gx);
           rect_y := y0 + inject_Z (i / cols) * (ch + gy);
           rect_w := cw; rect_h := ch |}.
Proof.
  unfold cellRects. rewrite in_map_iff. intros (i & <- & Hi).
  apply In_range in Hi. eauto.
Qed.


(** Different indices fall into different columns or different rows. *)
Lemma index_split (cols i j : Z) :
  (0 < cols)%Z -> i <> j ->
  (i mod cols + 1 <= j mod cols \/ j mod cols + 1 <= i mod cols \/
   i / cols + 1 <= j / cols \/ j / cols + 1 <= i / cols)%Z.
Proof.
  intros Hc Hij.
  pose proof (Z.div_mod i cols ltac:(lia)). pose proof (Z.div_mod j cols ltac:(lia)).
  destruct (Z.eq_dec (i mod cols) (j mod cols)) as [Em|Em]; [|lia].
  destruct (Z.eq_dec (i / cols) (j / cols)) as [Ed|Ed]; [|lia].
  exfalso. apply Hij. rewrite H, H0, Em, Ed. reflexivity.
Qed.

(** Along one axis, a cell further on starts after the nearer cell ends. *)
Lemma later_cell_clear (a b : Z) (start size gap_ : Q) :
  (a + 1 <= b)%Z -> 0 <= size -> 0 <= gap_ ->
  start + inject_Z a * (size + gap_) + size <= start + inject_Z b * (size + gap_).
Proof.
  intros Hab Hs Hg. apply inject_Z_succ_le in Hab.
  assert ((inject_Z a + 1) * (size + gap_) <= inject_Z b * (size + gap_))
    by (apply Qmult_le_compat_r; lra).
  lra.
Qed.

Lemma cellRects_disjoint (n cols : Z) (x0 y0 cw ch gx gy : Q) :
  (0 < cols)%Z -> 0 <= cw -> 0 <= ch -> 0 <= gx -> 0 <= gy ->
  pairwise_disjoint (cellRects n cols x0 y0 cw ch gx gy).
Proof.
  intros Hc Hw Hh Hgx Hgy i j a b Hij Ha Hb.
  apply cellRects_nth in Ha as [_ ->]. apply cellRects_nth in Hb as [_ ->].
  unfold overlap. cbn [rect_x rect_y rect_w rect_h].
  destruct (index_split cols (Z.of_nat i) (Z.of_nat j) Hc ltac:(lia)) as [L|[L|[L|L]]].
  - pose proof (later_cell_clear _ _ x0 cw gx L Hw Hgx). lra.
  - pose proof (later_cell_clear _ _ x0 cw gx L Hw Hgx). lra.
  - pose proof (later_cell_clear _ _ y0 ch gy L Hh Hgy). lra.
  - pose proof (later_cell_clear _ _ y0 ch gy L Hh Hgy). lra.
Qed.


(** Column and row counts. *)
Lemma colsFor_pos (n : Z) : (1 <= colsFor n)%Z.
Proof. unfold colsFor. lia. Qed.

Lemma rowsFor_pos (n cols : Z) : (1 <= rowsFor n cols)%Z.
Proof. unfold rowsFor. lia. Qed.

Lemma colsFor_ceil_sqrt (n : Z) : (1 <= n)%Z -> colsFor n = ceil_sqrt n.
Proof. intro H. unfold colsFor. pose proof (ceil_sqrt_pos n H). lia. Qed.

Lemma rowsFor_ceil_div (n cols : Z) :
  (1 <= n)%Z -> (0 < cols)%Z -> rowsFor n cols = ceil_div n cols.
Proof. intros H Hc. unfold rowsFor. pose proof (ceil_div_pos n cols H Hc). lia. Qed.

Lemma rows_cover (n : Z) : (n <= rowsFor n (colsFor n) * colsFor n)%Z.
Proof.
  pose proof (colsFor_pos n) as Hc. pose proof (rowsFor_pos n (colsFor n)) as Hr.
  pose proof (ceil_div_spec n (colsFor n) ltac:(lia)) as [_ H].
  unfold rowsFor in *. nia.
Qed.

(** The column and the row of an index. *)
Lemma col_row_range (n i : Z) :
  (0 <= i < n)%Z ->
  (0 <= i mod colsFor n /\ i mod colsFor n + 1 <= colsFor n /\
   0 <= i / colsFor n /\ i / colsFor n + 1 <= rowsFor n (colsFor n))%Z.
Proof.
  intro Hi. pose proof (colsFor_pos n) as Hc. pose proof (rows_cover n) as Hr.
  pose proof (Z.mod_pos_bound i (colsFor n) ltac:(lia)).
  assert (0 <= i / colsFor n)%Z by (apply Z.div_pos; lia).
  assert (i / colsFor n < rowsFor n (colsFor n))%Z
    by (apply Z.div_lt_upper_bound; lia).
  lia.
Qed.

(** Extent of the cells along one axis: the first starts at [start],
    the last ends at [start + count * size + (count - 1) * gap]. *)
Lemma cell_extent (k count : Z) (start size gap_ : Q) :
  (0 <= k)%Z -> (k + 1 <= count)%Z -> 0 <= size -> 0 <= gap_ ->
  start <= start + inject_Z k * (size + gap_) /\
  start + inject_Z k * (size + gap_) + size
  <= start + inject_Z count * size + (inject_Z count - 1) * gap_.
Proof.
  intros Hk Hkc Hs Hg. apply inject_Z_nonneg in Hk. apply inject_Z_succ_le in Hkc.
  assert (0 <= inject_Z k * (size + gap_)) by (apply Qmult_le_0_compat; lra).
  assert (inject_Z k * (size + gap_) <= (inject_Z count - 1) * (size + gap_))
    by (apply Qmult_le_compat_r; lra).
  split; lra.
Qed.

(** An unclamped cell size fills what the gaps leave. *)
Lemma unclamped_fill (avail gaps : Q) (count : Z) :
  (0 < count)%Z -> 0 < max 0 ((avail - gaps) / inject_Z count) ->
  inject_Z count * max 0 ((avail - gaps) / inject_Z count) == avail - gaps.
Proof.
  intros Hc Hpos. rewrite (max_0_pos _ Hpos).
  apply inject_Z_pos in Hc. field. lra.
Qed.

End GeometryFacts.

(** ** The rectangles each routine hands out *)

Module PlacementFacts.
Import JSMath JSMathFacts Types Compositor Geometry GeometryFacts.

Ltac pick_mode H :=
  rewrite H; repeat (simpl (String.eqb _ _)); cbv beta iota zeta delta [orb andb negb].

Lemma export_grid (st : WorkerState) (bm : WorkerBitmapsPayload) (W H sx gx gy : Q) :
  layoutMode st = "grid" ->
  map placement (ExportWorker.layoutCalls st bm W H sx gx gy)
  = if (len (bitmaps_grid bm) =? 0)%Z then []
    else gridShape (len (bitmaps_grid bm)) W H gx gy.
Proof.
  intro Hm. unfold ExportWorker.layoutCalls. pick_mode Hm.
  destruct (len (bitmaps_grid bm) =? 0)%Z; [reflexivity|].
  apply placements_cells.
Qed.

Lemma export_side (isLeftBig : bool) (st : WorkerState) (bm : WorkerBitmapsPayload)
      (W H sx gx gy : Q) :
  layoutMode st = (if isLeftBig then "left-big" else "right-big") ->
  map placement (ExportWorker.layoutCalls st bm W H sx gx gy)
  = match bitmaps_grid bm with
    | [] => []
    | _ :: _ => [sideBig isLeftBig W H gx gy]
    end
    ++ if (1 <? len (bitmaps_grid bm))%Z
       then sideCells isLeftBig (len (tl (bitmaps_grid bm))) W H gx gy
       else [].
Proof.
  intro Hm. unfold ExportWorker.layoutCalls.
  destruct isLeftBig; pick_mode Hm; rewrite map_app; f_equal;
    try (destruct (bitmaps_grid bm); reflexivity);
    (destruct (1 <? len (bitmaps_grid bm))%Z; [apply placements_cells | reflexivity]).
Qed.

Lemma export_stack (isTopBig : bool) (st : WorkerState) (bm : WorkerBitmapsPayload)
      (W H sx gx gy : Q) :
  layoutMode st = (if isTopBig then "top-big" else "bottom-big") ->
  map placement (ExportWorker.layoutCalls st bm W H sx gx gy)
  = match bitmaps_grid bm with
    | [] => []
    | _ :: _ => [stackBig isTopBig W H gx gy]
    end
    ++ if (1 <? len (bitmaps_grid bm))%Z
       then stackCells isTopBig (len (tl (bitmaps_grid bm))) W H gx gy
       else [].
Proof.
  intro Hm. unfold ExportWorker.layoutCalls.
  destruct isTopBig; pick_mode Hm; rewrite map_app; f_equal;
    try (destruct (bitmaps_grid bm); reflexivity);
    (destruct (1 <? len (bitmaps_grid bm))%Z; [apply placements_cells | reflexivity]).
Qed.


Lemma app_grid (s : App.State) (W H sx gx gy : Q) :
  App.layoutMode s = "grid" ->
  map placement (App.layoutCalls s W H sx gx gy)
  = if (len (App.bitmapsOf s (App.images s)) =? 0)%Z then []
    else gridShape (len (App.bitmapsOf s (App.images s))) W H gx gy.
Proof.
  intro Hm. unfold App.layoutCalls. pick_mode Hm.
  destruct (len (App.bitmapsOf s (App.images s)) =? 0)%Z; [reflexivity|].
  apply placements_cells.
Qed.

Lemma app_side (isLeftBig : bool) (s : App.State) (W H sx gx gy : Q) :
  App.layoutMode s = (if isLeftBig then "left-big" else "right-big") ->
  map placement (App.layoutCalls s W H sx gx gy)
  = (if (0 <? len (App.bitmapsOf s (App.images s)))%Z
     then match App.bigBitmap s with
          | Some _ => [sideBig isLeftBig W H gx gy]
          | None => []
          end
     else [])
    ++ if (1 <? len (App.images s))%Z
       then sideCells isLeftBig (len (App.gridImages s)) W H gx gy
       else [].
Proof.
  intro Hm. unfold App.layoutCalls.
  destruct isLeftBig; pick_mode Hm; rewrite map_app; f_equal;
    try (destruct (0 <? len (App.bitmapsOf s (App.images s)))%Z; [|reflexivity];
         destruct (App.bigBitmap s); reflexivity);
    (destruct (1 <? len (App.images s))%Z; [apply placements_cells | reflexivity]).
Qed.

Lemma app_stack (isTopBig : bool) (s : App.State) (W H sx gx gy : Q) :
  App.layoutMode s = (if isTopBig then "top-big" else "bottom-big") ->
  map placement (App.layoutCalls s W H sx gx gy)
  = (if (0 <? len (App.bitmapsOf s (App.images s)))%Z
     then match App.bigBitmap s with
          | Some _ => [stackBig isTopBig W H gx gy]
          | None => []
          end
     else [])
    ++ if (1 <? len (App.images s))%Z
       then stackCells isTopBig (len (App.gridImages s)) W H gx gy
       else [].
Proof.
  intro Hm. unfold App.layoutCalls.
  destruct isTopBig; pick_mode Hm; rewrite map_app; f_equal;
    try (destruct (0 <? len (App.bitmapsOf s (App.images s)))%Z; [|reflexivity];
         destruct (App.bigBitmap s); reflexivity);
    (destruct (1 <? len (App.images s))%Z; [apply placements_cells | reflexivity]).
Qed.



End PlacementFacts.

(** ** Painted rectangles stay apart and inside the canvas *)

Module ShapeFacts.
Import JSMath JSMathFacts Types Compositor Geometry GeometryFacts.

Lemma pairwise_painted (l : list Rect) : pairwise_disjoint l -> painted_disjoint l.
Proof. intros H i j a b Hij Ha Hb _ _. exact (H i j a b Hij Ha Hb). Qed.

(** A rectangle put in front of a list that it stays clear of. *)
Lemma painted_disjoint_cons (a : Rect) (l : list Rect) :
  (forall b, In b l -> proper a -> proper b -> ~ overlap a b) ->
  painted_disjoint l -> painted_disjoint (a :: l).
Proof.
  intros Ha Hl i j x y Hij Hx Hy Px Py.
  destruct i as [|i], j as [|j]; cbn in Hx, Hy.
  - congruence.
  - injection Hx as <-. apply Ha; auto. eapply nth_error_In; eauto.
  - injection Hy as <-. intro O. apply overlap_sym in O. revert O.
    apply Ha; auto. eapply nth_error_In; eauto.
  - apply (Hl i j x y); auto.
Qed.

Lemma painted_disjoint_nil : painted_disjoint [].
Proof. intros i j a b _ Ha. destruct i; discriminate. Qed.

Lemma painted_inside_app (W H : Q) (l1 l2 : list Rect) :
  painted_inside W H l1 -> painted_inside W H l2 -> painted_inside W H (l1 ++ l2).
Proof.
  intros H1 H2 r Hr. apply in_app_or in Hr as [Hr|Hr]; auto.
Qed.

Lemma painted_inside_nil (W H : Q) : painted_inside W H [].
Proof. intros r []. Qed.

Lemma painted_inside_one (W H : Q) (r : Rect) :
  (proper r -> inside W H r) -> painted_inside W H [r].
Proof. intros Hr x [<-|[]]. exact Hr. Qed.

(** *** grid *)

Lemma gridShape_disjoint (n : Z) (W H gx gy : Q) :
  0 <= gx -> 0 <= gy -> pairwise_disjoint (gridShape n W H gx gy).
Proof.
  intros Hgx Hgy. unfold gridShape.
  apply cellRects_disjoint; auto using max_0_nonneg.
  pose proof (colsFor_pos n). lia.
Qed.

Lemma gridShape_inside (n : Z) (W H gx gy : Q) :
  0 <= gx -> 0 <= gy -> painted_inside W H (gridShape n W H gx gy).
Proof.
  intros Hgx Hgy r Hr [Pw Ph]. unfold gridShape in Hr.
  apply cellRects_In in Hr as (i & Hi & ->). cbn [rect_w rect_h] in Pw, Ph.
  destruct (col_row_range n i Hi) as (C0 & C1 & R0 & R1).
  pose proof (colsFor_pos n) as Hc. pose proof (rowsFor_pos n (colsFor n)) as Hr.
  pose proof (unclamped_fill W _ (colsFor n) ltac:(lia) Pw) as Fw.
  pose proof (unclamped_fill H _ (rowsFor n (colsFor n)) ltac:(lia) Ph) as Fh.
  pose proof (cell_extent _ _ gx _ gx C0 C1 (Qlt_le_weak _ _ Pw) Hgx) as [X0 X1].
  pose proof (cell_extent _ _ gy _ gy R0 R1 (Qlt_le_weak _ _ Ph) Hgy) as [Y0 Y1].
  unfold inside. cbn [rect_x rect_y rect_w rect_h].
  repeat split; lra.
Qed.

(** *** left-big and right-big *)

Lemma sideBig_inside (isLeftBig : bool) (W H gx gy : Q) :
  0 <= gx -> 0 <= gy -> proper (sideBig isLeftBig W H gx gy) ->
  inside W H (sideBig isLeftBig W H gx gy).
Proof.
  intros Hgx Hgy [Pw Ph]. unfold sideBig in *. cbn [rect_x rect_y rect_w rect_h] in *.
  unfold inside. cbn [rect_x rect_y rect_w rect_h].
  pose proof (max_0_pos _ Pw) as Ew. pose proof (max_0_pos _ Ph) as Eh.
  rewrite Ew in *. rewrite Eh in *.
  destruct isLeftBig; repeat split; qlra.
Qed.

(** A painted cell of the side grid: where it lies. *)
Lemma sideCells_extent (isLeftBig : bool) (m : Z) (W H gx gy : Q) (r : Rect) :
  0 <= gx -> 0 <= gy ->
  In r (sideCells isLeftBig m W H gx gy) -> proper r ->
  (if isLeftBig then W / 2 + gx / 2 else gx) <= rect_x r /\
  rect_x r + rect_w r <= (if isLeftBig then W - gx else W / 2 - gx / 2) /\
  gy <= rect_y r /\ rect_y r + rect_h r <= H - gy /\
  0 < W / 2 - gx * (3 # 2).
Proof.
  intros Hgx Hgy Hr [Pw Ph]. unfold sideCells in Hr.
  apply cellRects_In in Hr as (i & Hi & ->). cbn [rect_x rect_y rect_w rect_h] in *.
  destruct (col_row_range m i Hi) as (C0 & C1 & R0 & R1).
  pose proof (colsFor_pos m) as Hc. pose proof (rowsFor_pos m (colsFor m)) as Hrw.
  pose proof (unclamped_fill _ _ (colsFor m) ltac:(lia) Pw) as Fw.
  pose proof (unclamped_fill H _ (rowsFor m (colsFor m)) ltac:(lia) Ph) as Fh.
  set (cw := max 0 ((max 0 (W / 2 - gx * (3 # 2)) - (inject_Z (colsFor m) - 1) * gx)
                    / inject_Z (colsFor m))) in *.
  set (ch := max 0 ((H - (inject_Z (rowsFor m (colsFor m)) + 1) * gy)
                    / inject_Z (rowsFor m (colsFor m)))) in *.
  assert (Hcq : 1 <= inject_Z (colsFor m)).
  { change 1 with (inject_Z 1). rewrite <- Zle_Qle. lia. }
  assert (G : 0 <= (inject_Z (colsFor m) - 1) * gx) by (apply Qmult_le_0_compat; lra).
  assert (P : 0 < inject_Z (colsFor m) * cw) by (apply Qmult_lt_0_compat; lra).
  assert (A : 0 < max 0 (W / 2 - gx * (3 # 2))) by lra.
  pose proof (max_0_pos _ A) as EA. rewrite EA in *.
  pose proof (cell_extent _ _ (if isLeftBig then W / 2 + gx / 2 else gx) cw gx
                C0 C1 (Qlt_le_weak _ _ Pw) Hgx) as [X0 X1].
  pose proof (cell_extent _ _ gy ch gy R0 R1 (Qlt_le_weak _ _ Ph) Hgy) as [Y0 Y1].
  destruct isLeftBig; repeat split; qlra.
Qed.

Lemma side_sound (isLeftBig : bool) (bigPart : list Rect) (m : Z) (W H gx gy : Q) :
  0 <= gx -> 0 <= gy ->
  bigPart = [] \/ bigPart = [sideBig isLeftBig W H gx gy] ->
  painted_inside W H (bigPart ++ sideCells isLeftBig m W H gx gy) /\
  painted_disjoint (bigPart ++ sideCells isLeftBig m W H gx gy).
Proof.
  intros Hgx Hgy Hbig.
  assert (Cin : painted_inside W H (sideCells isLeftBig m W H gx gy)).
  { intros r Hr Pr.
    destruct (sideCells_extent isLeftBig m W H gx gy r Hgx Hgy Hr Pr)
      as (X0 & X1 & Y0 & Y1 & A).
    unfold inside. destruct isLeftBig; repeat split; qlra. }
  assert (Cdis : painted_disjoint (sideCells isLeftBig m W H gx gy)).
  { apply pairwise_painted. unfold sideCells.
    apply cellRects_disjoint; auto using max_0_nonneg.
    pose proof (colsFor_pos m). lia. }
  destruct Hbig as [->| ->]; cbn [app].
  - split; assumption.
  - split.
    + apply (painted_inside_app W H [_]); [|exact Cin].
      apply painted_inside_one. now apply sideBig_inside.
    + apply painted_disjoint_cons; [|exact Cdis].
      intros b Hb [Pw Ph] Pb.
      destruct (sideCells_extent isLeftBig m W H gx gy b Hgx Hgy Hb Pb)
        as (X0 & X1 & Y0 & Y1 & A).
      unfold sideBig in *. cbn [rect_x rect_y rect_w rect_h] in *.
      pose proof (max_0_pos _ Pw) as Ew. rewrite Ew in *.
      unfold overlap. cbn [rect_x rect_y rect_w rect_h].
      destruct isLeftBig; qlra.
Qed.

(** *** top-big and bottom-big *)

Lemma stackBig_inside (isTopBig : bool) (W H gx gy : Q) :
  0 <= gx -> 0 <= gy -> proper (stackBig isTopBig W H gx gy) ->
  inside W H (stackBig isTopBig W H gx gy).
Proof.
  intros Hgx Hgy [Pw Ph]. unfold stackBig in *. cbn [rect_x rect_y rect_w rect_h] in *.
  unfold inside. cbn [rect_x rect_y rect_w rect_h].
  pose proof (max_0_pos _ Pw) as Ew. pose proof (max_0_pos _ Ph) as Eh.
  rewrite Ew in *. rewrite Eh in *.
  destruct isTopBig; repeat split; qlra.
Qed.

Lemma stackCells_extent (isTopBig : bool) (m : Z) (W H gx gy : Q) (r : Rect) :
  0 <= gx -> 0 <= gy ->
  In r (stackCells isTopBig m W H gx gy) -> proper r ->
  gx <= rect_x r /\ rect_x r + rect_w r <= W - gx /\
  (if isTopBig then H / 2 + gy / 2 else gy) <= rect_y r /\
  rect_y r + rect_h r <= (if isTopBig then H - gy else H / 2 - gy / 2) /\
  0 < H / 2 - gy * (3 # 2).
Proof.
  intros Hgx Hgy Hr [Pw Ph]. unfold stackCells in Hr.
  apply cellRects_In in Hr as (i & Hi & ->). cbn [rect_x rect_y rect_w rect_h] in *.
  destruct (col_row_range m i Hi) as (C0 & C1 & R0 & R1).
  pose proof (colsFor_pos m) as Hc. pose proof (rowsFor_pos m (colsFor m)) as Hrw.
  pose proof (unclamped_fill W _ (colsFor m) ltac:(lia) Pw) as Fw.
  pose proof (unclamped_fill _ _ (rowsFor m (colsFor m)) ltac:(lia) Ph) as Fh.
  set (cw := max 0 ((W - (inject_Z (colsFor m) + 1) * gx) / inject_Z (colsFor m))) in *.
  set (ch := max 0 ((max 0 (H / 2 - gy * (3 # 2))
                     - (inject_Z (rowsFor m (colsFor m)) - 1) * gy)
                    / inject_Z (rowsFor m (colsFor m)))) in *.
  assert (Hrq : 1 <= inject_Z (rowsFor m (colsFor m))).
  { change 1 with (inject_Z 1). rewrite <- Zle_Qle. lia. }
  assert (G : 0 <= (inject_Z (rowsFor m (colsFor m)) - 1) * gy)
    by (apply Qmult_le_0_compat; lra).
  assert (P : 0 < inject_Z (rowsFor m (colsFor m)) * ch)
    by (apply Qmult_lt_0_compat; lra).
  assert (A : 0 < max 0 (H / 2 - gy * (3 # 2))) by lra.
  pose proof (max_0_pos _ A) as EA. rewrite EA in *.
  pose proof (cell_extent _ _ gx cw gx C0 C1 (Qlt_le_weak _ _ Pw) Hgx) as [X0 X1].
  pose proof (cell_extent _ _ (if isTopBig then H / 2 + gy / 2 else gy) ch gy
                R0 R1 (Qlt_le_weak _ _ Ph) Hgy) as [Y0 Y1].
  destruct isTopBig; repeat split; qlra.
Qed.

Lemma stack_sound (isTopBig : bool) (bigPart : list Rect) (m : Z) (W H gx gy : Q) :
  0 <= gx -> 0 <= gy ->
  bigPart = [] \/ bigPart = [stackBig isTopBig W H gx gy] ->
  painted_inside W H (bigPart ++ stackCells isTopBig m W H gx gy) /\
  painted_disjoint (bigPart ++ stackCells isTopBig m W H gx gy).
Proof.
  intros Hgx Hgy Hbig.
  assert (Cin : painted_inside W H (stackCells isTopBig m W H gx gy)).
  { intros r Hr Pr.
    destruct (stackCells_extent isTopBig m W H gx gy r Hgx Hgy Hr Pr)
      as (X0 & X1 & Y0 & Y1 & A).
    unfold inside. destruct isTopBig; repeat split; qlra. }
  assert (Cdis : painted_disjoint (stackCells isTopBig m W H gx gy)).
  { apply pairwise_painted. unfold stackCells.
    apply cellRects_disjoint; auto using max_0_nonneg.
    pose proof (colsFor_pos m). lia. }
  destruct Hbig as [->| ->]; cbn [app].
  - split; assumption.
  - split.
    + apply (painted_inside_app W H [_]); [|exact Cin].
      apply painted_inside_one. now apply stackBig_inside.
    + apply painted_disjoint_cons; [|exact Cdis].
      intros b Hb [Pw Ph] Pb.
      destruct (stackCells_extent isTopBig m W H gx gy b Hgx Hgy Hb Pb)
        as (X0 & X1 & Y0 & Y1 & A).
      unfold stackBig in *. cbn [rect_x rect_y rect_w rect_h] in *.
      pose proof (max_0_pos _ Ph) as Eh. rewrite Eh in *.
      unfold overlap. cbn [rect_x rect_y rect_w rect_h].
      destruct isTopBig; qlra.
Qed.

(** *** single-blur *)






End ShapeFacts.

(** ** Claims about the grid layout *)

Section GridClaims.
Import JSMath JSMathFacts Types Compositor Geometry GeometryFacts PlacementFacts Samples.

Lemma len_nonzero {A : Type} (l : list A) : (1 <= len l)%Z -> (len l =? 0)%Z = false.
Proof. intro H. apply Z.eqb_neq. lia. Qed.

Lemma gridShape_counts (n : Z) (W H gx gy : Q) :
  (1 <= n)%Z ->
  gridShape n W H gx gy
  = cellRects n (ceil_sqrt n) gx gy
      (max 0 ((W - (inject_Z (ceil_sqrt n) + 1) * gx) / inject_Z (ceil_sqrt n)))
      (max 0 ((H - (inject_Z (ceil_div n (ceil_sqrt n)) + 1) * gy)
              / inject_Z (ceil_div n (ceil_sqrt n))))
      gx gy.
Proof.
  intro Hn. unfold gridShape. rewrite (colsFor_ceil_sqrt n Hn).
  rewrite (rowsFor_ceil_div n (ceil_sqrt n) Hn) by (pose proof (ceil_sqrt_pos n Hn); lia).
  reflexivity.
Qed.

(** C1: with N >= 1 images the grid case uses cols = ceil(sqrt N)
    columns and rows = ceil(N / cols) rows, cells of width
    (W - (cols + 1) g) / cols and height (H - (rows + 1) g) / rows clamped
    at zero, image i in column i mod cols and row floor(i / cols) at
    g + col (width + g), g + row (height + g); so the gap lies before the
    first cell, between neighbours, and, for cells that have an extent,
    between the last cell and the far canvas edge. Both the interactive
    routine and the export worker do so, each with its horizontal and
    vertical gap. *)
Theorem C1_grid_layout (imgs : list ImageBitmap) (W H gx gy : Q) :
  (1 <= len imgs)%Z ->
  let N := len imgs in
  let cols := ceil_sqrt N in
  let rows := ceil_div N cols in
  let cellWidth := max 0 ((W - (inject_Z cols + 1) * gx) / inject_Z cols) in
  let cellHeight := max 0 ((H - (inject_Z rows + 1) * gy) / inject_Z rows) in
  ((cols - 1) * (cols - 1) < N <= cols * cols)%Z
  /\ ((rows - 1) * cols < N <= rows * cols)%Z
  /\ (forall st bm sx,
        layoutMode st = "grid" -> bitmaps_grid bm = imgs ->
        map placement (ExportWorker.layoutCalls st bm W H sx gx gy)
        = cellRects N cols gx gy cellWidth cellHeight gx gy)
  /\ (forall s sx,
        App.layoutMode s = "grid" -> App.bitmapsOf s (App.images s) = imgs ->
        map placement (App.layoutCalls s W H sx gx gy)
        = cellRects N cols gx gy cellWidth cellHeight gx gy)
  /\ List.length (cellRects N cols gx gy cellWidth cellHeight gx gy) = List.length imgs
  /\ (forall i r,
        nth_error (cellRects N cols gx gy cellWidth cellHeight gx gy) i = Some r ->
        rect_w r = cellWidth /\ rect_h r = cellHeight /\
        rect_x r = gx + inject_Z (Z.of_nat i mod cols) * (cellWidth + gx) /\
        rect_y r = gy + inject_Z (Z.of_nat i / cols) * (cellHeight + gy))
  /\ (0 < cellWidth ->
      gx + inject_Z (cols - 1) * (cellWidth + gx) + cellWidth + gx == W)
  /\ (0 < cellHeight ->
      gy + inject_Z (rows - 1) * (cellHeight + gy) + cellHeight + gy == H).
Proof.
  intro HN. cbv zeta.
  pose proof (ceil_sqrt_spec (len imgs) ltac:(lia)) as (C0 & C1 & Cmin).
  pose proof (ceil_sqrt_pos (len imgs) HN) as Cpos.
  pose proof (ceil_div_spec (len imgs) (ceil_sqrt (len imgs)) ltac:(lia)) as [R0 R1].
  pose proof (ceil_div_pos (len imgs) (ceil_sqrt (len imgs)) HN ltac:(lia)) as Rpos.
  split.
  { split; [|exact C1].
    destruct (Z_lt_le_dec ((ceil_sqrt (len imgs) - 1) * (ceil_sqrt (len imgs) - 1))
                          (len imgs)) as [L|L]; [exact L|].
    specialize (Cmin (ceil_sqrt (len imgs) - 1)%Z ltac:(lia) L). lia. }
  split; [split; assumption|].
  split.
  { intros st bm sx Hm <-. rewrite (export_grid st bm W H sx gx gy Hm).
    rewrite (len_nonzero _ HN). now apply gridShape_counts. }
  split.
  { intros s sx Hm <-. rewrite (app_grid s W H sx gx gy Hm).
    rewrite (len_nonzero _ HN). now apply gridShape_counts. }
  split.
  { unfold cellRects. rewrite length_map, range_length. unfold len. lia. }
  split.
  { intros i r Hr. apply cellRects_nth in Hr as [_ ->]. cbn. auto. }
  split.
  - intro P.
    pose proof (unclamped_fill W _ (ceil_sqrt (len imgs)) ltac:(lia) P) as F.
    unfold Z.sub. rewrite inject_Z_plus, inject_Z_opp. change (inject_Z 1) with 1.
    set (size := max 0 _) in *. lra.
  - intro P.
    pose proof (unclamped_fill H _ (ceil_div (len imgs) (ceil_sqrt (len imgs)))
                  ltac:(lia) P) as F.
    unfold Z.sub. rewrite inject_Z_plus, inject_Z_opp. change (inject_Z 1) with 1.
    set (size := max 0 _) in *. lra.
Qed.

(** The scenario of C1: four images on an 800 x 600 canvas with gap 16
    are laid out 2 x 2 in cells of 376 x 276. *)
Lemma C1_grid_800x600_gap16 :
  ceil_sqrt 4 = 2%Z /\ ceil_div 4 2 = 2%Z /\
  Forall2 Rect_eq
    (map placement
       (ExportWorker.layoutCalls (workerState "grid" []) (workerBitmaps 4) 800 600 1 16 16))
    [rect 16 16 376 276; rect 408 16 376 276; rect 16 308 376 276; rect 408 308 376 276].
Proof.
  destruct (C1_grid_layout (repeat bmp 4) 800 600 16 16) as (_ & _ & HE & _).
  - vm_compute. discriminate.
  - rewrite (HE (workerState "grid" []) (workerBitmaps 4) 1 eq_refl eq_refl).
    vm_compute. repeat constructor.
Defined.

End GridClaims.

(** ** The application's choice of the big image *)

Module AppFacts.
Import JSMath JSMathFacts Types Compositor.

Lemma findIndex_from_range {A : Type} (p : A -> bool) (i : Z) (l : list A) :
  App.findIndex_from p i l = (-1)%Z \/
  (i <= App.findIndex_from p i l < i + len l)%Z.
Proof.
  revert i. induction l as [|a r IH]; intro i; cbn [App.findIndex_from].
  - now left.
  - destruct (p a).
    + right. unfold len. cbn [List.length]. lia.
    + destruct (IH (i + 1)%Z) as [E|E]; [now left|].
      right. unfold len in *. cbn [List.length]. lia.
Qed.

Lemma bigIdx_range (s : App.State) :
  (0 <= App.bigIdx s)%Z -> (App.bigIdx s < len (App.images s))%Z.
Proof.
  unfold App.bigIdx, App.findIndex. intro H.
  match goal with |- context [App.findIndex_from ?p 0%Z ?l] =>
    destruct (findIndex_from_range p 0%Z l) as [E|E] end; lia.
Qed.

Lemma bitmapsOf_length (s : App.State) (l : list ImageState) :
  (forall im, In im l -> App.imageBitmaps s (id im) <> None) ->
  List.length (App.bitmapsOf s l) = List.length l.
Proof.
  unfold App.bitmapsOf. induction l as [|im r IH]; intro Hall; cbn; [reflexivity|].
  destruct (App.imageBitmaps s (id im)) eqn:E.
  - cbn. f_equal. apply IH. intros x Hx. apply Hall. now right.
  - exfalso. apply (Hall im); [now left | exact E].
Qed.

Import BigSelection.










End AppFacts.

(** ** Claims about the big-image layouts *)

Section BigClaims.
Import JSMath JSMathFacts Types Compositor Geometry GeometryFacts PlacementFacts.
Import AppFacts BigLayout BigSelection Samples.





















(** A selection that names no current image: the big rectangle is drawn
    all the same and the three images all go to cells. *)
Example stale_selection :
  let s := appState "left-big" threeImages (Some "gone") in
  selected s = None /\ bigDrawn s = true /\ cellCount s = 3%Z
  /\ List.length (App.layoutCalls s 800 600 1 16 16) = 4%nat.
Proof. vm_compute. repeat split. Qed.


End BigClaims.

(** ** Claims about overlap and canvas bounds *)

Section BoundsClaims.
Import JSMath JSMathFacts Types Compositor Geometry GeometryFacts PlacementFacts.
Import ShapeFacts Samples.

Lemma sideCells_none (b : bool) (W H gx gy : Q) : sideCells b 0 W H gx gy = [].
Proof. reflexivity. Qed.

Lemma stackCells_none (b : bool) (W H gx gy : Q) : stackCells b 0 W H gx gy = [].
Proof. reflexivity. Qed.

Lemma grid_part_sound (n : Z) (c : bool) (W H gx gy : Q) :
  0 <= gx -> 0 <= gy ->
  painted_inside W H (if c then [] else gridShape n W H gx gy) /\
  painted_disjoint (if c then [] else gridShape n W H gx gy).
Proof.
  intros Hgx Hgy. destruct c.
  - split; [apply painted_inside_nil | apply painted_disjoint_nil].
  - split; [now apply gridShape_inside|].
    apply pairwise_painted. now apply gridShape_disjoint.
Qed.

Lemma side_part_sound (b c : bool) (bigPart : list Rect) (m : Z) (W H gx gy : Q) :
  0 <= gx -> 0 <= gy ->
  bigPart = [] \/ bigPart = [sideBig b W H gx gy] ->
  painted_inside W H (bigPart ++ if c then sideCells b m W H gx gy else []) /\
  painted_disjoint (bigPart ++ if c then sideCells b m W H gx gy else []).
Proof.
  intros Hgx Hgy Hbig. destruct c.
  - now apply side_sound.
  - rewrite <- (sideCells_none b W H gx gy). now apply side_sound.
Qed.

Lemma stack_part_sound (b c : bool) (bigPart : list Rect) (m : Z) (W H gx gy : Q) :
  0 <= gx -> 0 <= gy ->
  bigPart = [] \/ bigPart = [stackBig b W H gx gy] ->
  painted_inside W H (bigPart ++ if c then stackCells b m W H gx gy else []) /\
  painted_disjoint (bigPart ++ if c then stackCells b m W H gx gy else []).
Proof.
  intros Hgx Hgy Hbig. destruct c.
  - now apply stack_sound.
  - rewrite <- (stackCells_none b W H gx gy). now apply stack_sound.
Qed.

Lemma export_tiled_sound (st : WorkerState) (bm : WorkerBitmapsPayload) (W H sx gx gy : Q) :
  0 <= gx -> 0 <= gy -> In (layoutMode st) tiledModes ->
  painted_inside W H (map placement (ExportWorker.layoutCalls st bm W H sx gx gy)) /\
  painted_disjoint (map placement (ExportWorker.layoutCalls st bm W H sx gx gy)).
Proof.
  intros Hgx Hgy Hin. unfold tiledModes in Hin. cbn [In] in Hin.
  destruct Hin as [Hm|[Hm|[Hm|[Hm|[Hm|[]]]]]]; symmetry in Hm.
  - rewrite (export_grid st bm W H sx gx gy Hm). now apply grid_part_sound.
  - rewrite (export_side true st bm W H sx gx gy Hm).
    apply side_part_sound; auto. destruct (bitmaps_grid bm); auto.
  - rewrite (export_side false st bm W H sx gx gy Hm).
    apply side_part_sound; auto. destruct (bitmaps_grid bm); auto.
  - rewrite (export_stack true st bm W H sx gx gy Hm).
    apply stack_part_sound; auto. destruct (bitmaps_grid bm); auto.
  - rewrite (export_stack false st bm W H sx gx gy Hm).
    apply stack_part_sound; auto. destruct (bitmaps_grid bm); auto.
Qed.

Lemma app_big_part (s : App.State) (r : Rect) :
  (if (0 <? len (App.bitmapsOf s (App.images s)))%Z
   then match App.bigBitmap s with Some _ => [r] | None => [] end
   else []) = [] \/
  (if (0 <? len (App.bitmapsOf s (App.images s)))%Z
   then match App.bigBitmap s with Some _ => [r] | None => [] end
   else []) = [r].
Proof.
  destruct (0 <? len (App.bitmapsOf s (App.images s)))%Z; [|now left].
  destruct (App.bigBitmap s); auto.
Qed.

Lemma app_tiled_sound (s : App.State) (W H sx gx gy : Q) :
  0 <= gx -> 0 <= gy -> In (App.layoutMode s) tiledModes ->
  painted_inside W H (map placement (App.layoutCalls s W H sx gx gy)) /\
  painted_disjoint (map placement (App.layoutCalls s W H sx gx gy)).
Proof.
  intros Hgx Hgy Hin. unfold tiledModes in Hin. cbn [In] in Hin.
  destruct Hin as [Hm|[Hm|[Hm|[Hm|[Hm|[]]]]]]; symmetry in Hm.
  - rewrite (app_grid s W H sx gx gy Hm). now apply grid_part_sound.
  - rewrite (app_side true s W H sx gx gy Hm).
    apply side_part_sound; auto. apply app_big_part.
  - rewrite (app_side false s W H sx gx gy Hm).
    apply side_part_sound; auto. apply app_big_part.
  - rewrite (app_stack true s W H sx gx gy Hm).
    apply stack_part_sound; auto. apply app_big_part.
  - rewrite (app_stack false s W H sx gx gy Hm).
    apply stack_part_sound; auto. apply app_big_part.
Qed.








End BoundsClaims.

(** ** Claims about the layout modes and the mode switch *)

Section ModeClaims.
Import Types Compositor Geometry PlacementFacts Samples DrawNotions.

(** C6 (as amended): the modes the selector offers, and so the values
    the active mode takes, are exactly the seven values grid, left-big,
    right-big, top-big, bottom-big, single-blur (the single-focus mode)
    and freeform. The declared [LayoutMode] type lists grid, left-big,
    right-big, top-big, bottom-big and single-blur and, besides,
    grid-square and justified, which the selector does not offer and for
    which no draw routine has a case. *)
Theorem C6_layout_modes :
  (forall v, In v App.modeOptions <->
             In v ["grid"; "left-big"; "right-big"; "top-big"; "bottom-big";
                   "single-blur"; "freeform"])
  /\ NoDup App.modeOptions
  /\ (forall v s, App.layoutMode (App.onLayoutModeChange v s) = v)
  /\ (forall m : LayoutMode, In m LayoutMode_all)
  /\ NoDup LayoutMode_all
  /\ map LayoutMode_string LayoutMode_all
     = ["grid"; "left-big"; "right-big"; "top-big"; "bottom-big";
        "single-blur"; "grid-square"; "justified"]
  /\ (forall m, m = grid_square \/ m = justified ->
        ~ In (LayoutMode_string m) App.modeOptions
        /\ (forall st bm W H sx gx gy,
              layoutMode st = LayoutMode_string m ->
              ExportWorker.layoutCalls st bm W H sx gx gy = []
              /\ UIWorker.layoutCalls st bm W H = [])
        /\ (forall s W H sx gx gy,
              App.layoutMode s = LayoutMode_string m ->
              App.layoutCalls s W H sx gx gy = [])).
Proof.
  split.
  { intro v. unfold App.modeOptions. cbn [In]. tauto. }
  split.
  { unfold App.modeOptions. repeat constructor; cbn [In]; intuition discriminate. }
  split.
  { intros v s. unfold App.onLayoutModeChange, App.layoutModeEffect, App.setLayoutMode.
    cbn [App.layoutMode App.with_mode_tick].
    destruct (String.eqb (App.layoutMode s) v); [reflexivity|].
    destruct (String.eqb v "freeform"); reflexivity. }
  split.
  { intro m. unfold LayoutMode_all. destruct m; cbn [In]; tauto. }
  split.
  { unfold LayoutMode_all. repeat constructor; cbn [In]; intuition discriminate. }
  split; [reflexivity|].
  intros m Hm. split.
  { destruct Hm as [-> | ->]; unfold App.modeOptions; cbn; intuition discriminate. }
  split.
  - intros st bm W H sx gx gy Hst.
    unfold ExportWorker.layoutCalls, UIWorker.layoutCalls.
    destruct Hm as [-> | ->]; cbn [LayoutMode_string] in Hst; pick_mode Hst; auto.
  - intros s W H sx gx gy Hs. unfold App.layoutCalls.
    destruct Hm as [-> | ->]; cbn [LayoutMode_string] in Hs; pick_mode Hs; auto.
Qed.

(** C6 as stated fails: [LayoutMode] is not the seven values the claim
    lists. It has the values grid-square and justified, which are not
    among them, and neither the type nor the selector knows a value
    single-focus. *)
Lemma C6_not_the_claimed_seven :
  In "justified" (map LayoutMode_string LayoutMode_all)
  /\ ~ In "justified" Spec.claimed_modes
  /\ In "grid-square" (map LayoutMode_string LayoutMode_all)
  /\ ~ In "grid-square" Spec.claimed_modes
  /\ In "single-focus" Spec.claimed_modes
  /\ ~ In "single-focus" (map LayoutMode_string LayoutMode_all)
  /\ ~ In "single-focus" App.modeOptions
  /\ List.length LayoutMode_all = 8%nat
  /\ List.length Spec.claimed_modes = 7%nat.
Proof.
  unfold Spec.claimed_modes, LayoutMode_all, App.modeOptions. cbn.
  repeat split; try tauto; intuition discriminate.
Qed.

Lemma onLayoutModeChange_frame (v : string) (s : App.State) :
  App.images (App.onLayoutModeChange v s) = App.images s
  /\ App.bigImageId (App.onLayoutModeChange v s) = App.bigImageId s
  /\ App.imageBitmaps (App.onLayoutModeChange v s) = App.imageBitmaps s.
Proof.
  unfold App.onLayoutModeChange, App.layoutModeEffect, App.setLayoutMode.
  cbn [App.layoutMode App.with_mode_tick].
  destruct (String.eqb (App.layoutMode s) v); [repeat split|].
  destruct (String.eqb v "freeform"); repeat split.
Qed.

(** C9: switching the layout mode, from any mode to any other, once or
    any number of times, leaves the image list and its order as they
    were (and with them the selected big image and the decoded bitmaps). *)
Theorem C9_mode_switch_keeps_images (values : list string) (s : App.State) :
  App.images (switchModes values s) = App.images s
  /\ App.bigImageId (switchModes values s) = App.bigImageId s
  /\ App.imageBitmaps (switchModes values s) = App.imageBitmaps s
  /\ (forall v, App.images (App.onLayoutModeChange v s) = App.images s)
  /\ (forall v, App.images (App.setLayoutMode v s) = App.images s).
Proof.
  split; [|split; [|split; [|split]]].
  1-3: revert s; induction values as [|v r IH]; intro s; cbn [switchModes fold_left];
       [reflexivity | fold (switchModes r (App.onLayoutModeChange v s)); rewrite IH;
                      apply onLayoutModeChange_frame].
  - intro v. apply onLayoutModeChange_frame.
  - intro v. reflexivity.
Qed.

End ModeClaims.

(** ** What the draw routines paint *)

Module DrawFacts.
Import JSMath JSMathFacts Types Compositor Geometry GeometryFacts PlacementFacts.
Import ShapeFacts DrawNotions.

Lemma Forall_mapi_from {A B : Type} (P : B -> Prop) (f : A -> Z -> B) (l : list A) (i : Z) :
  (forall a k, P (f a k)) -> Forall P (mapi_from i f l).
Proof.
  intro H. revert i. induction l as [|a r IH]; intro i; cbn [mapi_from]; constructor; auto.
Qed.

Lemma Forall_mapi {A B : Type} (P : B -> Prop) (f : A -> Z -> B) (l : list A) :
  (forall a k, P (f a k)) -> Forall P (mapi f l).
Proof. apply Forall_mapi_from. Qed.

Lemma perform_defined (z : Q) (c : Call) : defined_call c -> thrown (perform z c) = None.
Proof.
  destruct c as [[img|] x y w h ez | img x y w h a b]; cbn [defined_call perform];
    intro H; try contradiction; [|reflexivity].
  unfold drawImage. destruct (Qle_bool w 0 || Qle_bool h 0); [reflexivity|].
  destruct ((width img <=? 0)%Z || (height img <=? 0)%Z); reflexivity.
Qed.

Lemma performAll_from (z : Q) (cs : list Call) (acc : Outcome) :
  thrown acc = None -> Forall defined_call cs ->
  thrown (fold_left (fun a c => andThen a (perform z c)) cs acc) = None.
Proof.
  revert acc. induction cs as [|c r IH]; intros acc Ha Hd; cbn [fold_left]; [exact Ha|].
  inversion Hd as [|? ? Hc Hr]; subst. apply IH; [|exact Hr].
  unfold andThen. rewrite Ha. cbn [thrown]. now apply perform_defined.
Qed.

Lemma performAll_defined (z : Q) (cs : list Call) :
  Forall defined_call cs -> thrown (performAll z cs) = None.
Proof. intro H. unfold performAll. now apply performAll_from. Qed.

Ltac each_case :=
  repeat match goal with
         | |- Forall _ (if ?c then _ else _) => destruct c
         | |- Forall _ (_ ++ _) => apply Forall_app; split
         | |- Forall _ (match ?l with [] => _ | _ :: _ => _ end) => destruct l
         | |- Forall _ (match ?o with Some _ => _ | None => _ end) => destruct o
         | |- Forall _ [] => constructor
         | |- Forall _ [_] => constructor; [exact I | constructor]
         | |- Forall _ (mapi _ _) => apply Forall_mapi; intros; exact I
         end.

Lemma export_calls_defined (st : WorkerState) (bm : WorkerBitmapsPayload)
      (W H sx gx gy : Q) :
  Forall defined_call (ExportWorker.layoutCalls st bm W H sx gx gy).
Proof. unfold ExportWorker.layoutCalls. cbv zeta. each_case. Qed.

Lemma app_calls_defined (s : App.State) (W H sx gx gy : Q) :
  Forall defined_call (App.layoutCalls s W H sx gx gy).
Proof. unfold App.layoutCalls. cbv zeta. each_case. Qed.

Lemma export_never_throws (W H sw sh : Q) (st : WorkerState) (bm : WorkerBitmapsPayload) :
  thrown (ExportWorker.drawExportCanvas W H sw sh st bm) = None.
Proof.
  unfold ExportWorker.drawExportCanvas. cbv zeta. unfold andThen at 1. cbn [thrown done].
  unfold andThen. rewrite performAll_defined by apply export_calls_defined. reflexivity.
Qed.

Lemma app_never_throws (s : App.State) (lw lh : Q) (forExport : bool) :
  thrown (App.drawCanvas s lw lh forExport) = None.
Proof.
  unfold App.drawCanvas. cbv zeta.
  destruct ((len (App.images s) =? 0)%Z && negb forExport); [reflexivity|].
  unfold andThen at 1. cbn [thrown done].
  unfold andThen. rewrite performAll_defined by apply app_calls_defined. reflexivity.
Qed.

(** No images, no calls. *)
Lemma app_no_images (s : App.State) (W H sx gx gy : Q) :
  App.images s = [] -> App.layoutCalls s W H sx gx gy = [].
Proof.
  intro E. unfold App.layoutCalls. rewrite E. cbn.
  repeat match goal with |- context [if ?c then _ else _] => destruct c end; reflexivity.
Qed.

Lemma export_no_images (st : WorkerState) (bm : WorkerBitmapsPayload) (W H sx gx gy : Q) :
  bitmaps_grid bm = [] -> ExportWorker.layoutCalls st bm W H sx gx gy = [].
Proof.
  intro E. unfold ExportWorker.layoutCalls. rewrite E. cbn.
  repeat match goal with |- context [if ?c then _ else _] => destruct c end; reflexivity.
Qed.

(** A rectangle without interior is not painted, whatever the image. *)
Lemma drawImage_degenerate (z : Q) (img : option ImageBitmap) (x y w h ez : Q) :
  w <= 0 \/ h <= 0 -> drawImage z img x y w h ez = done [].
Proof.
  intro H. unfold drawImage.
  assert (E : Qle_bool w 0 || Qle_bool h 0 = true).
  { apply orb_true_iff. destruct H as [H|H]; [left|right]; now apply Qle_bool_iff. }
  now rewrite E.
Qed.

Lemma performAll_nothing (z : Q) (cs : list Call) :
  (forall c, In c cs -> perform z c = done []) -> performAll z cs = done [].
Proof.
  unfold performAll. induction cs as [|c r IH] using rev_ind; intro H; [reflexivity|].
  rewrite fold_left_app. cbn [fold_left].
  rewrite IH by (intros x Hx; apply H; apply in_or_app; now left).
  rewrite (H c) by (apply in_or_app; right; now left). reflexivity.
Qed.

Lemma export_calls_helper (st : WorkerState) (bm : WorkerBitmapsPayload) (W H sx gx gy : Q) :
  In (layoutMode st) tiledModes ->
  Forall helper_call (ExportWorker.layoutCalls st bm W H sx gx gy).
Proof.
  intro Hin. unfold tiledModes in Hin. cbn [In] in Hin.
  unfold ExportWorker.layoutCalls.
  destruct Hin as [Hm|[Hm|[Hm|[Hm|[Hm|[]]]]]]; symmetry in Hm; pick_mode Hm; each_case.
Qed.

Lemma app_calls_helper (s : App.State) (W H sx gx gy : Q) :
  In (App.layoutMode s) tiledModes ->
  Forall helper_call (App.layoutCalls s W H sx gx gy).
Proof.
  intro Hin. unfold tiledModes in Hin. cbn [In] in Hin.
  unfold App.layoutCalls.
  destruct Hin as [Hm|[Hm|[Hm|[Hm|[Hm|[]]]]]]; symmetry in Hm; pick_mode Hm; each_case.
Qed.

(** On a canvas without extent nothing that must lie inside it is painted. *)
Lemma nothing_painted (z W H : Q) (cs : list Call) :
  W <= 0 \/ H <= 0 ->
  Forall helper_call cs -> painted_inside W H (map placement cs) ->
  performAll z cs = done [].
Proof.
  intros Hz Hh Hin. apply performAll_nothing. intros c Hc.
  pose proof (proj1 (Forall_forall _ _) Hh c Hc) as Hhc.
  destruct c as [img x y w h ez | img x y w h a b]; [|destruct Hhc].
  cbn [perform]. apply drawImage_degenerate.
  destruct (Qlt_le_dec 0 w) as [Pw|Pw]; [|now left].
  destruct (Qlt_le_dec 0 h) as [Ph|Ph]; [|now right].
  exfalso.
  assert (I : inside W H (placement (callDrawImage img x y w h ez))).
  { apply Hin; [now apply in_map | split; assumption]. }
  unfold inside in I. cbn [placement rect_x rect_y rect_w rect_h] in I.
  destruct Hz; lra.
Qed.

End DrawFacts.

(** ** Claims about empty input, degenerate geometry and the export reply *)

Section DrawClaims.
Import JSMath JSMathFacts Types Compositor Geometry GeometryFacts PlacementFacts.
Import ShapeFacts DrawNotions DrawFacts Samples.

Lemma export_tiled_inside (st : WorkerState) (bm : WorkerBitmapsPayload) (W H sx gx gy : Q) :
  0 <= gx -> 0 <= gy -> In (layoutMode st) tiledModes ->
  painted_inside W H (map placement (ExportWorker.layoutCalls st bm W H sx gx gy)).
Proof. intros Hgx Hgy Hin. now apply export_tiled_sound. Qed.

Lemma app_tiled_inside (s : App.State) (W H sx gx gy : Q) :
  0 <= gx -> 0 <= gy -> In (App.layoutMode s) tiledModes ->
  painted_inside W H (map placement (App.layoutCalls s W H sx gx gy)).
Proof. intros Hgx Hgy Hin. now apply app_tiled_sound. Qed.

(** C7 (as amended): with an empty working set the layout hands out no
    placement; the interactive draw and the preview worker's draw paint
    the background and then the placeholder text and stop; the two export
    draws ([drawCanvas] for export and the export worker) paint the
    background, the watermark and the text layers and no placeholder. No
    interactive or export draw ever throws, and the preview worker's draw
    does not on an empty working set. A placement of non-positive width
    or height is a no-op of the image helper, and in grid mode and the big
    modes, with gaps >= 0, nothing of the image layer is painted on a
    canvas of non-positive width or height. *)
Theorem C7_empty_and_degenerate :
  (forall s lw lh,
     App.images s = [] ->
     App.drawCanvas s lw lh false
     = done (clearRect 0 0 lw lh
             :: drawBackground (App.background s) (App.backgroundBitmap s) lw lh
             ++ [placeholder lw lh]))
  /\ (forall w h st bm,
     images st = [] ->
     UIWorker.drawCanvas w h st bm
     = done (clearRect 0 0 w h
             :: drawBackground (background st) (bitmaps_background bm) w h
             ++ [placeholder w h])
     /\ snd (UIWorker.onDraw w h st bm) = None)
  /\ (forall s lw lh,
     App.images s = [] ->
     App.drawCanvas s lw lh true
     = done (clearRect 0 0 App.EXPORT_WIDTH App.EXPORT_HEIGHT
             :: drawBackground (App.background s) (App.backgroundBitmap s)
                               App.EXPORT_WIDTH App.EXPORT_HEIGHT
             ++ drawWatermark (App.watermark s) (App.watermarkBitmap s)
                              App.EXPORT_WIDTH App.EXPORT_HEIGHT
                              (App.debouncedGap s * (App.EXPORT_WIDTH / App.viewport_width s))
                              (App.debouncedGap s * (App.EXPORT_HEIGHT / App.viewport_height s))
             ++ drawTextLayers (App.textLayers s)
                               (App.EXPORT_WIDTH / App.viewport_width s)
                               (App.EXPORT_HEIGHT / App.viewport_height s)))
  /\ (forall W H sw sh st bm,
     bitmaps_grid bm = [] ->
     ExportWorker.drawExportCanvas W H sw sh st bm
     = done (clearRect 0 0 W H
             :: drawBackground (background st) (bitmaps_background bm) W H
             ++ drawWatermark (watermark st) (bitmaps_watermark bm) W H
                              (gap st * (W / sw)) (gap st * (H / sh))
             ++ drawTextLayers (textLayers st) (W / sw) (H / sh)))
  /\ (forall s W H sx gx gy, App.images s = [] -> App.layoutCalls s W H sx gx gy = [])
  /\ (forall st bm W H sx gx gy,
        bitmaps_grid bm = [] -> ExportWorker.layoutCalls st bm W H sx gx gy = [])
  /\ (forall s lw lh forExport, thrown (App.drawCanvas s lw lh forExport) = None)
  /\ (forall W H sw sh st bm, thrown (ExportWorker.drawExportCanvas W H sw sh st bm) = None)
  /\ (forall z img x y w h extraZoom,
        w <= 0 \/ h <= 0 -> drawImage z img x y w h extraZoom = done [])
  /\ (forall W H gx gy z sx,
        0 <= gx -> 0 <= gy -> W <= 0 \/ H <= 0 ->
        (forall st bm, In (layoutMode st) tiledModes ->
           performAll z (ExportWorker.layoutCalls st bm W H sx gx gy) = done [])
        /\ (forall s, In (App.layoutMode s) tiledModes ->
           performAll z (App.layoutCalls s W H sx gx gy) = done [])).
Proof.
  split.
  { intros s lw lh E. unfold App.drawCanvas. rewrite E. reflexivity. }
  split.
  { intros w h st bm E. unfold UIWorker.onDraw, UIWorker.drawCanvas. rewrite E.
    split; reflexivity. }
  split.
  { intros s lw lh E. unfold App.drawCanvas. cbv zeta.
    rewrite (app_no_images s _ _ _ _ _ E), E. reflexivity. }
  split.
  { intros W H sw sh st bm E. unfold ExportWorker.drawExportCanvas. cbv zeta.
    rewrite (export_no_images st bm _ _ _ _ _ E). reflexivity. }
  split; [intros; now apply app_no_images|].
  split; [intros; now apply export_no_images|].
  split; [intros; apply app_never_throws|].
  split; [intros; apply export_never_throws|].
  split; [intros; now apply drawImage_degenerate|].
  intros W H gx gy z sx Hgx Hgy Hz. split.
  - intros st bm Hin. apply (nothing_painted z W H); auto.
    + now apply export_calls_helper.
    + now apply export_tiled_inside.
  - intros s Hin. apply (nothing_painted z W H); auto.
    + now apply app_calls_helper.
    + now apply app_tiled_inside.
Qed.

(** C7 as stated fails for the export draws: with an empty working set
    the interactive draw paints the placeholder text, but neither the
    export worker nor [drawCanvas] for export does; they paint the
    background only. *)
Lemma C7_export_paints_no_placeholder :
  existsb paints_text (painted (App.drawCanvas (appState "grid" [] None) 800 600 false)) = true
  /\ ExportWorker.drawExportCanvas 2000 1500 800 600 (workerState "grid" []) (workerBitmaps 0)
     = done [clearRect 0 0 2000 1500; fillRect "#F3F4F6" 0 0 2000 1500]
  /\ existsb paints_text
       (painted (ExportWorker.drawExportCanvas 2000 1500 800 600
                   (workerState "grid" []) (workerBitmaps 0))) = false
  /\ App.drawCanvas (appState "grid" [] None) 800 600 true
     = done [clearRect 0 0 2000 1500; fillRect "#F3F4F6" 0 0 2000 1500]
  /\ existsb paints_text
       (painted (App.drawCanvas (appState "grid" [] None) 800 600 true)) = false.
Proof. repeat split. Qed.

(** C8 (as amended): for every export request the worker posts exactly
    one message: either [{type: 'success', blob}], the blob being the PNG
    of what the draw painted, when the context was obtained and the
    encoding went through, or [{type: 'error', error}] carrying a
    description otherwise. *)
Theorem C8_export_posts_one_message (data : ExportWorker.WorkerMessageData) :
  let canvas := ExportWorker.data_canvas data in
  let drawn :=
    ExportWorker.drawExportCanvas
      (ExportWorker.canvas_width canvas) (ExportWorker.canvas_height canvas)
      (ExportWorker.source_width data) (ExportWorker.source_height data)
      (ExportWorker.data_state data) (ExportWorker.data_bitmaps data) in
  exists m, ExportWorker.onmessage data = [m] /\
    ((ExportWorker.has2d canvas = true /\ ExportWorker.convertFails canvas = None /\
      m = [("type", ExportWorker.vString "success");
           ("blob", ExportWorker.vBlob
                      {| ExportWorker.blob_type := "image/png";
                         ExportWorker.blob_content := painted drawn |})])
     \/ ((ExportWorker.has2d canvas = false \/ ExportWorker.convertFails canvas <> None) /\
         exists description,
           m = [("type", ExportWorker.vString "error");
                ("error", ExportWorker.vString description)])).
Proof.
  cbv zeta. unfold ExportWorker.onmessage.
  destruct (ExportWorker.has2d (ExportWorker.data_canvas data)) eqn:Hc; cbn [negb].
  - rewrite export_never_throws.
    destruct (ExportWorker.convertFails (ExportWorker.data_canvas data)) as [e|] eqn:Hf.
    + eexists. split; [reflexivity|]. right. split; [right; discriminate|].
      eexists. reflexivity.
    + eexists. split; [reflexivity|]. left. auto.
  - eexists. split; [reflexivity|]. right. split; [now left|].
    eexists. reflexivity.
Qed.

(** C8 as stated fails on the shape: the messages carry their kind under
    the key [type], not [status], and the description under [error], not
    [message]. *)
Lemma C8_keys_are_type_and_error :
  (exists m,
     ExportWorker.onmessage (exportRequest "grid" 4 true None) = [m]
     /\ ExportWorker.field "type" m = Some (ExportWorker.vString "success")
     /\ ExportWorker.field "status" m = None
     /\ ~ claimed_response m)
  /\ (exists m,
     ExportWorker.onmessage (exportRequest "grid" 4 false None) = [m]
     /\ ExportWorker.field "type" m = Some (ExportWorker.vString "error")
     /\ ExportWorker.field "error" m
        = Some (ExportWorker.vString "Could not get OffscreenCanvas context")
     /\ ExportWorker.field "status" m = None
     /\ ExportWorker.field "message" m = None
     /\ ~ claimed_response m).
Proof.
  split.
  - eexists. split; [vm_compute; reflexivity|].
    repeat split.
    intros [[b Hb]|[d Hd]]; discriminate.
  - eexists. split; [vm_compute; reflexivity|].
    repeat split.
    intros [[b Hb]|[d Hd]]; discriminate.
Qed.

End DrawClaims.

(** * Further properties of the code *)

(** ** Lists as the array methods use them *)

Module ArrayFacts.
Import JSMath JSMathFacts.

Lemma mapi_from_nth {A B : Type} (f : A -> Z -> B) (l : list A) (i : Z) (k : nat) :
  nth_error (mapi_from i f l) k
  = option_map (fun a => f a (i + Z.of_nat k)%Z) (nth_error l k).
Proof.
  revert i k. induction l as [|a r IH]; intros i k.
  - destruct k; reflexivity.
  - destruct k as [|k]; cbn [mapi_from nth_error option_map].
    + f_equal. f_equal. lia.
    + rewrite IH. destruct (nth_error r k); cbn [option_map]; [|reflexivity].
      f_equal. f_equal. lia.
Qed.

Lemma mapi_nth {A B : Type} (f : A -> Z -> B) (l : list A) (k : nat) :
  nth_error (mapi f l) k = option_map (fun a => f a (Z.of_nat k)) (nth_error l k).
Proof. unfold mapi. rewrite mapi_from_nth. reflexivity. Qed.

Lemma mapi_from_length {A B : Type} (f : A -> Z -> B) (l : list A) (i : Z) :
  List.length (mapi_from i f l) = List.length l.
Proof.
  revert i. induction l as [|a r IH]; intro i; cbn [mapi_from List.length]; [reflexivity|].
  now rewrite IH.
Qed.

Lemma mapi_len {A B : Type} (f : A -> Z -> B) (l : list A) :
  List.length (mapi f l) = List.length l.
Proof. apply mapi_from_length. Qed.

(** [findIndex]: the first position whose element passes. *)
Lemma findIndex_from_found {A : Type} (p : A -> bool) (i : Z) (l : list A) :
  (0 <= i)%Z -> (i <= App.findIndex_from p i l)%Z ->
  exists l1 a l2,
    l = l1 ++ a :: l2 /\ p a = true /\ (forall x, In x l1 -> p x = false) /\
    App.findIndex_from p i l = (i + Z.of_nat (List.length l1))%Z.
Proof.
  revert i. induction l as [|a r IH]; intros i Hi; cbn [App.findIndex_from].
  - lia.
  - destruct (p a) eqn:E.
    + intros _. exists [], a, r. cbn. repeat split; auto; [intros x []|lia].
    + intro H. destruct (IH (i + 1)%Z) as (l1 & b & l2 & -> & Hb & Hl1 & Hidx).
      * lia.
      * destruct (AppFacts.findIndex_from_range p (i + 1) r) as [F|F]; lia.
      * exists (a :: l1), b, l2. cbn [app List.length]. repeat split; auto.
        -- intros x [<-|Hx]; auto.
        -- lia.
Qed.

Lemma findIndex_from_missing {A : Type} (p : A -> bool) (i : Z) (l : list A) :
  (0 <= i)%Z ->
  (App.findIndex_from p i l = (-1)%Z <-> forall x, In x l -> p x = false).
Proof.
  intro Hi. revert i Hi. induction l as [|a r IH]; intros i Hi; cbn [App.findIndex_from].
  - split; [intros _ x [] | reflexivity].
  - destruct (p a) eqn:E.
    + split; [lia|]. intro H. specialize (H a (or_introl eq_refl)). congruence.
    + rewrite IH by lia. split.
      * intros H x [<-|Hx]; auto.
      * intros H x Hx. apply H. now right.
Qed.

Lemma findIndex_found {A : Type} (p : A -> bool) (l : list A) :
  (0 <= App.findIndex p l)%Z ->
  exists l1 a l2,
    l = l1 ++ a :: l2 /\ p a = true /\ (forall x, In x l1 -> p x = false) /\
    App.findIndex p l = Z.of_nat (List.length l1).
Proof.
  intro H. destruct (findIndex_from_found p 0 l ltac:(lia) H)
    as (l1 & a & l2 & E & Ha & Hl & Hi).
  exists l1, a, l2. repeat split; auto.
Qed.

Lemma findIndex_some {A : Type} (p : A -> bool) (l : list A) (x : A) :
  In x l -> p x = true -> (0 <= App.findIndex p l)%Z.
Proof.
  intros Hin Hp. unfold App.findIndex.
  destruct (AppFacts.findIndex_from_range p 0 l) as [F|F]; [|lia].
  pose proof (proj1 (findIndex_from_missing p 0 l ltac:(lia)) F) as G.
  rewrite (G x Hin) in Hp. discriminate.
Qed.

(** Taking the element at the end of [l1] out of [l1 ++ a :: l2]. *)
Lemma firstn_middle {A : Type} (l1 l2 : list A) (a : A) :
  firstn (List.length l1) (l1 ++ a :: l2) = l1.
Proof.
  rewrite firstn_app, Nat.sub_diag, firstn_all. cbn. apply app_nil_r.
Qed.

Lemma skipn_middle {A : Type} (l1 l2 : list A) (a : A) :
  skipn (S (List.length l1)) (l1 ++ a :: l2) = l2.
Proof.
  rewrite skipn_app. replace (S (List.length l1) - List.length l1)%nat with 1%nat by lia.
  rewrite skipn_all2 by lia. reflexivity.
Qed.

Lemma nth_middle {A : Type} (l1 l2 : list A) (a : A) :
  nth_error (l1 ++ a :: l2) (List.length l1) = Some a.
Proof. rewrite nth_error_app2, Nat.sub_diag by lia. reflexivity. Qed.

End ArrayFacts.

(** ** The tidy arrangement *)

Section TidyFacts.
Import JSMath JSMathFacts GeometryFacts ArrayFacts FreeformCanvas FreeformScene SceneSamples.

Lemma effectiveCols_pos (w : Q) (o : TidyOptions) : (1 <= effectiveCols w o)%Z.
Proof. unfold effectiveCols. lia. Qed.

(** X1: The tidy arrangement uses between one and [maxCols] columns; when at
    least one thumbnail fits, all its columns fit into the canvas width
    with a gap on either side of each, and it uses fewer than [maxCols]
    columns only when one more would not fit. *)
Theorem tidy_columns_fit (w : Q) (o : TidyOptions) :
  0 < thumbWidth o + thumbGap o -> (1 <= maxCols o)%Z ->
  let k := effectiveCols w o in
  (1 <= k <= maxCols o)%Z
  /\ ((1 <= Qfloor ((w - thumbGap o) / (thumbWidth o + thumbGap o)))%Z ->
      thumbGap o + inject_Z k * (thumbWidth o + thumbGap o) <= w)
  /\ ((k < maxCols o)%Z ->
      w < thumbGap o + inject_Z (k + 1) * (thumbWidth o + thumbGap o)).
Proof.
  intros Hpos Hmax. cbv zeta. unfold effectiveCols, tidyCols.
  set (q := (w - thumbGap o) / (thumbWidth o + thumbGap o)).
  assert (Hq : q * (thumbWidth o + thumbGap o) == w - thumbGap o)
    by (unfold q; field; lra).
  pose proof (Qfloor_le q) as Hlo. pose proof (Qlt_floor q) as Hhi.
  set (f := Qfloor q) in *.
  split; [lia|]. split.
  - intro Hf.
    assert (Hk : (Z.max 1 (Z.max 1 (Z.min (maxCols o) f)) <= f)%Z) by lia.
    rewrite Zle_Qle in Hk.
    assert (inject_Z (Z.max 1 (Z.max 1 (Z.min (maxCols o) f))) * (thumbWidth o + thumbGap o)
            <= q * (thumbWidth o + thumbGap o))
      by (apply Qmult_le_compat_r; lra).
    lra.
  - intro Hk.
    assert (Hk1 : (f + 1 <= Z.max 1 (Z.max 1 (Z.min (maxCols o) f)) + 1)%Z) by lia.
    rewrite Zle_Qle in Hk1.
    assert (q * (thumbWidth o + thumbGap o)
            < inject_Z (Z.max 1 (Z.max 1 (Z.min (maxCols o) f)) + 1)
              * (thumbWidth o + thumbGap o))
      by (apply Qmult_lt_compat_r; lra).
    lra.
Qed.

(** The initial knobs on a 900 pixel wide canvas: five columns. *)
Lemma tidy_columns_900 :
  effectiveCols 900 tidyDefaults = 5%Z
  /\ thumbGap tidyDefaults + inject_Z 5 * (thumbWidth tidyDefaults + thumbGap tidyDefaults)
     <= 900.
Proof.
  destruct (tidy_columns_fit 900 tidyDefaults) as (_ & Hfit & _).
  - vm_compute. reflexivity.
  - vm_compute. discriminate.
  - split; [reflexivity|]. apply Hfit. vm_compute. discriminate.
Defined.

Lemma widthOr1_nonzero (p : Item) : ~ inject_Z (widthOr1 p) == 0.
Proof.
  unfold widthOr1. destruct (Z.eqb_spec (item_naturalWidth p) 0) as [E|E].
  - discriminate.
  - intro H. apply E. unfold Qeq in H. cbn in H. lia.
Qed.

(** X2: The tidy arrangement keeps every item, in order, with its identity
    and rotation; item i goes to column i mod k and row floor(i / k), its
    centre half a thumbnail past the cell's corner, and is scaled so that
    its rendered width is the thumbnail width. Thumbnails of one row are
    at least a gap apart. *)
Theorem tidy_arrange_layout (w : Q) (o : TidyOptions) (prev : list Item) :
  0 <= thumbWidth o -> 0 <= thumbGap o ->
  let k := effectiveCols w o in
  let pitch := thumbWidth o + thumbGap o in
  List.length (tidyArrange w o prev) = List.length prev
  /\ map item_id (tidyArrange w o prev) = map item_id prev
  /\ (forall i p, nth_error prev i = Some p ->
        exists p', nth_error (tidyArrange w o prev) i = Some p'
          /\ item_id p' = item_id p /\ item_rotation p' = item_rotation p
          /\ item_naturalWidth p' = item_naturalWidth p
          /\ item_naturalHeight p' = item_naturalHeight p
          /\ item_x p' = thumbGap o + inject_Z (Z.of_nat i mod k) * pitch + thumbWidth o / 2
          /\ item_y p' = thumbGap o + inject_Z (Z.of_nat i / k) * pitch + thumbWidth o / 2
          /\ item_scale p' * inject_Z (widthOr1 p') == thumbWidth o)
  /\ (forall i j a b,
        (i < j)%nat -> (Z.of_nat i / k = Z.of_nat j / k)%Z ->
        nth_error (tidyArrange w o prev) i = Some a ->
        nth_error (tidyArrange w o prev) j = Some b ->
        item_y a = item_y b
        /\ item_x a + thumbWidth o / 2 + thumbGap o <= item_x b - thumbWidth o / 2).
Proof.
  intros Htw Hgap. cbv zeta.
  assert (Hnth : forall i p, nth_error prev i = Some p ->
            nth_error (tidyArrange w o prev) i
            = Some (with_scale
                      (with_xy p
                         (thumbGap o
                          + inject_Z (Z.of_nat i mod effectiveCols w o)
                            * (thumbWidth o + thumbGap o) + thumbWidth o / 2)
                         (thumbGap o
                          + inject_Z (Z.of_nat i / effectiveCols w o)
                            * (thumbWidth o + thumbGap o) + thumbWidth o / 2))
                      (thumbWidth o / inject_Z (widthOr1 p) * 1))).
  { intros i p Hp. unfold tidyArrange. rewrite mapi_nth, Hp. reflexivity. }
  split; [apply mapi_len|]. split.
  { clear Hnth. unfold tidyArrange, mapi. generalize 0%Z.
    induction prev as [|p r IH]; intro z; cbn [mapi_from map]; [reflexivity|].
    rewrite IH. reflexivity. }
  split.
  - intros i p Hp. eexists. split; [apply (Hnth i p Hp)|].
    cbn [with_scale with_xy item_id item_rotation item_naturalWidth item_naturalHeight
         item_x item_y item_scale].
    repeat split.
    change (widthOr1 (with_scale _ _)) with (widthOr1 p).
    field. apply widthOr1_nonzero.
  - intros i j a b Hij Hrow Ha Hb.
    assert (Hlen : List.length (tidyArrange w o prev) = List.length prev) by apply mapi_len.
    destruct (nth_error prev i) as [p|] eqn:Ep.
    2:{ apply nth_error_None in Ep. assert (nth_error (tidyArrange w o prev) i = None)
          by (apply nth_error_None; lia). congruence. }
    destruct (nth_error prev j) as [p2|] eqn:Ep2.
    2:{ apply nth_error_None in Ep2. assert (nth_error (tidyArrange w o prev) j = None)
          by (apply nth_error_None; lia). congruence. }
    rewrite (Hnth i p Ep) in Ha. rewrite (Hnth j p2 Ep2) in Hb.
    injection Ha as <-. injection Hb as <-.
    cbn [with_scale with_xy item_x item_y]. rewrite Hrow. split; [reflexivity|].
    pose proof (effectiveCols_pos w o) as Hk.
    assert (Hcol : (Z.of_nat i mod effectiveCols w o + 1
                    <= Z.of_nat j mod effectiveCols w o)%Z).
    { pose proof (Z.div_mod (Z.of_nat i) (effectiveCols w o) ltac:(lia)).
      pose proof (Z.div_mod (Z.of_nat j) (effectiveCols w o) ltac:(lia)).
      rewrite Hrow in H. lia. }
    apply inject_Z_succ_le in Hcol.
    assert ((inject_Z (Z.of_nat i mod effectiveCols w o) + 1) * (thumbWidth o + thumbGap o)
            <= inject_Z (Z.of_nat j mod effectiveCols w o) * (thumbWidth o + thumbGap o))
      by (apply Qmult_le_compat_r; lra).
    qlra.
Qed.

(** The initial knobs, two items on 900 pixels: one row, centres at 92
    and 264. *)
Lemma tidy_arrange_defaults :
  List.length (tidyArrange 900 tidyDefaults (items SnapSamples.sampleConfig)) = 2%nat
  /\ Forall2 Qeq (map item_x (tidyArrange 900 tidyDefaults (items SnapSamples.sampleConfig)))
                 [92; 264]
  /\ Forall2 Qeq (map item_y (tidyArrange 900 tidyDefaults (items SnapSamples.sampleConfig)))
                 [92; 92].
Proof.
  destruct (tidy_arrange_layout 900 tidyDefaults (items SnapSamples.sampleConfig))
    as (Hlen & _).
  - vm_compute. discriminate.
  - vm_compute. discriminate.
  - split; [exact Hlen|]. split; vm_compute; repeat constructor.
Defined.

End TidyFacts.

(** ** Arranging items into the cells *)

Section CellArrangeFacts.
Import JSMath JSMathFacts GeometryFacts ArrayFacts FreeformCanvas FreeformScene.
Import SnapNotions SnapFacts.

(** Element [k] of a table written row by row. *)
Lemma nth_rows {A : Type} (g : nat -> nat -> A) (R C a k : nat) (d : A) :
  (k < R * C)%nat ->
  nth k (flat_map (fun r => map (g r) (seq 0 C)) (seq a R)) d
  = g (a + k / C)%nat (k mod C)%nat.
Proof.
  revert a k. induction R as [|R IH]; intros a k Hk; [lia|].
  assert (HC : (0 < C)%nat) by (destruct C; lia).
  cbn [seq flat_map].
  destruct (Nat.lt_ge_cases k C) as [L|L].
  - rewrite app_nth1 by (rewrite length_map, length_seq; exact L).
    rewrite (nth_indep _ d (g a 0%nat)) by (rewrite length_map, length_seq; exact L).
    rewrite map_nth, seq_nth by exact L.
    rewrite Nat.div_small, Nat.mod_small by exact L. f_equal. lia.
  - rewrite app_nth2 by (rewrite length_map, length_seq; exact L).
    rewrite length_map, length_seq.
    rewrite IH by nia.
    assert (E1 : (k / C = (k - C) / C + 1)%nat).
    { rewrite <- (Nat.div_add (k - C) 1 C) by lia. f_equal. lia. }
    assert (E2 : (k mod C = (k - C) mod C)%nat).
    { rewrite <- (Nat.Div0.mod_add (k - C) 1 C). f_equal. lia. }
    rewrite E1, E2. f_equal. lia.
Qed.

Lemma flat_map_map {A B C : Type} (f : B -> list C) (h : A -> B) (l : list A) :
  flat_map f (map h l) = flat_map (fun x => f (h x)) l.
Proof. induction l as [|a r IH]; cbn; [reflexivity | now rewrite IH]. Qed.

Lemma rows_length {A B : Type} (g : B -> list A) (C : nat) (l : list B) :
  (forall r, List.length (g r) = C) ->
  List.length (flat_map g l) = (List.length l * C)%nat.
Proof.
  intro H. induction l as [|a r IH]; cbn [flat_map List.length]; [reflexivity|].
  rewrite length_app, H, IH. lia.
Qed.

(** The centre of cell [k], counting row by row. *)
Lemma cellCenters_nth (c : Config) (k : nat) :
  (k < Z.to_nat (rows c) * Z.to_nat (cols c))%nat ->
  let cellW := (size_w c - (inject_Z (cols c) + 1) * cellGapX c) / inject_Z (cols c) in
  let cellH := (size_h c - (inject_Z (rows c) + 1) * cellGapY c) / inject_Z (rows c) in
  nth k (cellCenters c) (0, 0)
  = (cellGapX c + inject_Z (Z.of_nat (k mod Z.to_nat (cols c))) * (cellW + cellGapX c)
     + cellW / 2,
     cellGapY c + inject_Z (Z.of_nat (k / Z.to_nat (cols c))) * (cellH + cellGapY c)
     + cellH / 2).
Proof.
  intro Hk. cbv zeta. unfold cellCenters, range. cbv zeta.
  rewrite flat_map_map.
  erewrite flat_map_ext; [|intro r; rewrite map_map; reflexivity].
  rewrite (nth_rows
             (fun r cc =>
                (cellGapX c
                 + inject_Z (Z.of_nat cc)
                   * ((size_w c - (inject_Z (cols c) + 1) * cellGapX c) / inject_Z (cols c)
                      + cellGapX c)
                 + (size_w c - (inject_Z (cols c) + 1) * cellGapX c) / inject_Z (cols c) / 2,
                 cellGapY c
                 + inject_Z (Z.of_nat r)
                   * ((size_h c - (inject_Z (rows c) + 1) * cellGapY c) / inject_Z (rows c)
                      + cellGapY c)
                 + (size_h c - (inject_Z (rows c) + 1) * cellGapY c) / inject_Z (rows c) / 2))
             _ _ 0%nat k (0, 0) Hk).
  reflexivity.
Qed.

Lemma cellCenters_length (c : Config) :
  List.length (cellCenters c) = (Z.to_nat (rows c) * Z.to_nat (cols c))%nat.
Proof.
  unfold cellCenters. cbv zeta.
  rewrite (rows_length _ (Z.to_nat (cols c))).
  - now rewrite range_length.
  - intro r. now rewrite length_map, range_length.
Qed.

(** A raw coordinate that is itself a candidate is returned as it is. *)
Lemma snap_fixed (n : Q) (l : list Q) : In n l -> snappedTo (nearest n l) == n.
Proof.
  intro Hin.
  assert (Z0 : abs (n - n) == 0).
  { unfold abs. setoid_replace (n - n) with 0 by ring. reflexivity. }
  destruct (nearest_inv n l) as [(_ & _ & _ & Hall)|(_ & _ & _ & _ & Hall)];
    specialize (Hall n Hin); rewrite Z0 in Hall.
  - unfold thresh in Hall. exfalso. lra.
  - unfold abs in Hall. apply Qabs_Qle_condition in Hall. lra.
Qed.

Lemma cell_centre_candidates (c : Config) (k : Z) :
  cellsOn c = true -> (0 <= k < rows c * cols c)%Z ->
  let cellW := (size_w c - (inject_Z (cols c) + 1) * cellGapX c) / inject_Z (cols c) in
  let cellH := (size_h c - (inject_Z (rows c) + 1) * cellGapY c) / inject_Z (rows c) in
  In (cellGapX c + inject_Z (k mod cols c) * (cellW + cellGapX c) + cellW / 2) (cellCandX c)
  /\ In (cellGapY c + inject_Z (k / cols c) * (cellH + cellGapY c) + cellH / 2) (cellCandY c).
Proof.
  intros Hon Hk. cbv zeta. unfold cellCandX, cellCandY. rewrite Hon.
  unfold cellsOn in Hon. apply andb_true_iff in Hon as [Hon Hc].
  apply andb_true_iff in Hon as [_ Hr]. apply Z.ltb_lt in Hr, Hc.
  assert (Hcol : (0 <= k mod cols c < cols c)%Z) by (apply Z.mod_pos_bound; lia).
  assert (Hrow : (0 <= k / cols c < rows c)%Z).
  { split; [apply Z.div_pos; lia | apply Z.div_lt_upper_bound; lia]. }
  split; apply in_flat_map.
  - exists 0%Z. split; [apply In_range; lia|].
    apply in_flat_map. exists (k mod cols c)%Z. split; [now apply In_range|].
    cbn. auto.
  - exists (k / cols c)%Z. split; [now apply In_range|].
    apply in_flat_map. exists 0%Z. split; [apply In_range; lia|].
    cbn. auto.
Qed.

(** X3: Auto-arrange does nothing while the cell grid is off. While it is
    on, it keeps every item in its place in the list and puts item i on
    the centre of cell (i mod rows*cols), counting the cells row by row, so
    that items beyond the number of cells start again at the first cell;
    each such centre is a snap candidate, and the snap search leaves an
    arranged item where it is. *)
Theorem auto_arrange_cells (c : Config) :
  (cellsOn c = false -> autoArrangeToCells c = items c)
  /\ (cellsOn c = true ->
      let cellW := (size_w c - (inject_Z (cols c) + 1) * cellGapX c) / inject_Z (cols c) in
      let cellH := (size_h c - (inject_Z (rows c) + 1) * cellGapY c) / inject_Z (rows c) in
      List.length (autoArrangeToCells c) = List.length (items c)
      /\ forall i p, nth_error (items c) i = Some p ->
           let k := (Z.of_nat i mod (rows c * cols c))%Z in
           let x := cellGapX c + inject_Z (k mod cols c) * (cellW + cellGapX c) + cellW / 2 in
           let y := cellGapY c + inject_Z (k / cols c) * (cellH + cellGapY c) + cellH / 2 in
           nth_error (autoArrangeToCells c) i = Some (with_xy p x y)
           /\ In x (candX c x) /\ In y (candY c y)
           /\ snapped_x (getSnapped c x y false) == x
           /\ snapped_y (getSnapped c x y false) == y).
Proof.
  split.
  { intro Hoff. unfold autoArrangeToCells. now rewrite Hoff. }
  intro Hon. cbv zeta. split.
  { unfold autoArrangeToCells. rewrite Hon. apply mapi_len. }
  intros i p Hp.
  pose proof Hon as Hon'. unfold cellsOn in Hon'.
  apply andb_true_iff in Hon' as [Hon' Hc]. apply andb_true_iff in Hon' as [_ Hr].
  apply Z.ltb_lt in Hr, Hc.
  assert (Hn : (0 < rows c * cols c)%Z) by nia.
  assert (Hk : (0 <= Z.of_nat i mod (rows c * cols c) < rows c * cols c)%Z)
    by (apply Z.mod_pos_bound; lia).
  destruct (cell_centre_candidates c _ Hon Hk) as [Cx Cy]. cbv zeta in Cx, Cy.
  assert (Ix : forall x, In x (cellCandX c) -> In x (candX c x)).
  { intros x Hx. unfold candX. rewrite !in_app_iff. auto. }
  assert (Iy : forall y, In y (cellCandY c) -> In y (candY c y)).
  { intros y Hy. unfold candY. rewrite !in_app_iff. auto. }
  split; [|split; [now apply Ix | split; [now apply Iy|]]].
  - unfold autoArrangeToCells. rewrite Hon. cbn [negb]. rewrite mapi_nth, Hp.
    cbn [option_map]. f_equal.
    assert (Hlen : len (cellCenters c) = (rows c * cols c)%Z).
    { unfold len. rewrite cellCenters_length. nia. }
    rewrite Hlen.
    rewrite cellCenters_nth by nia. cbv zeta. cbn [fst snd].
    rewrite Nat2Z.inj_mod, Nat2Z.inj_div, !Z2Nat.id by lia.
    reflexivity.
  - unfold getSnapped. cbn [snapped_x snapped_y].
    split; apply snap_fixed; [now apply Ix | now apply Iy].
Qed.

End CellArrangeFacts.

(** ** Wheel, pointer and keyboard gestures *)

Section GestureFacts.
Import JSMath JSMathFacts GeometryFacts ArrayFacts FreeformCanvas FreeformScene.
Import SnapNotions SnapFacts.

Lemma clamp_range (v : Q) :
  (1 # 10) <= min 5 (max (1 # 10) v) <= 5
  /\ ((1 # 10) <= v <= 5 -> min 5 (max (1 # 10) v) == v).
Proof.
  unfold min, max.
  destruct (Qle_bool (1 # 10) v) eqn:E1.
  - apply Qle_bool_iff in E1. destruct (Qle_bool 5 v) eqn:E2.
    + apply Qle_bool_iff in E2. split; [lra | intros; lra].
    + apply Qle_bool_false in E2. split; [lra | intros; lra].
  - apply Qle_bool_false in E1. destruct (Qle_bool 5 (1 # 10)) eqn:E2.
    + apply Qle_bool_iff in E2. exfalso. lra.
    + split; [lra | intros; lra].
Qed.

Lemma sign_cases (d : Q) :
  (0 < d /\ sign d = 1) \/ (d < 0 /\ sign d = -(1)) \/ (d == 0 /\ sign d = 0).
Proof.
  unfold sign. destruct (Qlt_bool 0 d) eqn:E1.
  - left. apply Qlt_bool_true in E1. auto.
  - apply Qlt_bool_false in E1. destruct (Qlt_bool d 0) eqn:E2.
    + right. left. apply Qlt_bool_true in E2. auto.
    + right. right. apply Qlt_bool_false in E2. split; [lra | reflexivity].
Qed.

(** X4: A wheel notch leaves every item in place and touches only the scale
    of the active one, which stays within [0.1, 5]; scrolling up never
    shrinks and scrolling down never enlarges an item whose scale is in
    that range. Without an active item nothing changes. *)
Theorem wheel_zoom_clamped (c : Config) (deltaY : Q) :
  (activeOf c = None -> onWheel c deltaY = items c)
  /\ List.length (onWheel c deltaY) = List.length (items c)
  /\ forall i p, nth_error (items c) i = Some p ->
       exists p', nth_error (onWheel c deltaY) i = Some p'
         /\ item_id p' = item_id p /\ item_x p' = item_x p /\ item_y p' = item_y p
         /\ item_rotation p' = item_rotation p
         /\ (activeOf c <> Some (item_id p) -> p' = p)
         /\ (activeOf c = Some (item_id p) ->
             (1 # 10) <= item_scale p' <= 5
             /\ ((1 # 10) <= item_scale p <= 5 ->
                 (deltaY < 0 -> item_scale p <= item_scale p')
                 /\ (0 < deltaY -> item_scale p' <= item_scale p)
                 /\ (deltaY == 0 -> item_scale p' == item_scale p))).
Proof.
  unfold onWheel. split; [intros ->; reflexivity|].
  destruct (activeOf c) as [id|] eqn:Ea.
  2:{ split; [reflexivity|]. intros i p Hp. exists p. repeat split; auto; discriminate. }
  split; [apply length_map|].
  intros i p Hp. rewrite nth_error_map, Hp. cbn [option_map]. eexists. split; [reflexivity|].
  destruct (String.eqb_spec (item_id p) id) as [E|E].
  - cbn [with_scale item_id item_x item_y item_rotation item_scale].
    repeat split; try reflexivity.
    + intro H. exfalso. apply H. now rewrite E.
    + apply clamp_range.
    + apply clamp_range.
    + intros D. destruct (clamp_range (item_scale p * (1 + sign deltaY * - (8 # 100))))
        as [[L U] _].
      destruct (sign_cases deltaY) as [[S ->]|[[S ->]|[S ->]]]; try (exfalso; lra).
      unfold min, max in *.
      destruct (Qle_bool (1 # 10) (item_scale p * (1 + - (1) * - (8 # 100)))) eqn:E1;
        [|apply Qle_bool_false in E1; exfalso; lra].
      destruct (Qle_bool 5 (item_scale p * (1 + - (1) * - (8 # 100)))); lra.
    + intros D. destruct (sign_cases deltaY) as [[S ->]|[[S ->]|[S ->]]];
        try (exfalso; lra).
      unfold min, max.
      destruct (Qle_bool (1 # 10) (item_scale p * (1 + 1 * - (8 # 100)))) eqn:E1.
      * apply Qle_bool_iff in E1.
        destruct (Qle_bool 5 (item_scale p * (1 + 1 * - (8 # 100)))) eqn:E2;
          [apply Qle_bool_iff in E2|]; lra.
      * destruct (Qle_bool 5 (1 # 10)) eqn:E2; [apply Qle_bool_iff in E2|]; lra.
    + intros D. destruct (sign_cases deltaY) as [[S ->]|[[S ->]|[S ->]]];
        try (exfalso; lra).
      rewrite (proj2 (clamp_range _)); [ring | lra].
  - split; [reflexivity|]. split; [reflexivity|]. split; [reflexivity|].
    split; [reflexivity|]. split; [reflexivity|].
    intro Hact. exfalso. apply E. congruence.
Qed.

End GestureFacts.

Section NudgeFacts.
Import JSMath FreeformCanvas FreeformScene Float64 Float64Facts.
Import FreeformDoubles DoubleNotions DoubleSnapFacts.

(** X5: An arrow key moves the active item by 1 pixel, 10 with Shift:
    ArrowLeft and ArrowRight along x, ArrowUp and ArrowDown along y. The
    moved position, each coordinate rounded to a double, goes through the
    snap search, the items with the active id take what it returns, which
    is within 8 + 2^-50 of the moved position, and its guides are stored.
    Every other item stays as it is. Any other key, no active item, or an
    active id no item carries, leaves the scene and the refs alone; only
    the key r sets the rotating flag. *)
Theorem nudge_moves_active_only (c : Config) (r : DragRefs) (rotating : bool)
        (key : string) (shiftKey : bool) :
  let out := onKeyDown c r rotating key shiftKey in
  let step : Q := if shiftKey then 10 else 1 in
  let nudged (dx dy : Q) : Prop :=
    forall id cur,
      activeId c = Some id -> id <> EmptyString ->
      find (fun p => String.eqb (item_id p) id) (items c) = Some cur ->
      let s := getSnapped c (fl (item_x cur + dx)) (fl (item_y cur + dy)) false in
      fst (fst out)
      = map (fun p => if String.eqb (item_id p) id
                      then with_xy p (snapped_x s) (snapped_y s) else p) (items c)
      /\ lastGuides (snd (fst out)) = (guidesX s, guidesY s)
      /\ Qabs (snapped_x s - fl (item_x cur + dx)) <= 8 + pow2 (-50)
      /\ Qabs (snapped_y s - fl (item_y cur + dy)) <= 8 + pow2 (-50) in
  (key = "ArrowLeft" -> nudged (- step) 0)
  /\ (key = "ArrowRight" -> nudged step 0)
  /\ (key = "ArrowUp" -> nudged 0 (- step))
  /\ (key = "ArrowDown" -> nudged 0 step)
  /\ (key <> "ArrowLeft" -> key <> "ArrowRight" -> key <> "ArrowUp" ->
      key <> "ArrowDown" -> fst out = (items c, r))
  /\ (activeId c = None \/ activeId c = Some EmptyString -> fst out = (items c, r))
  /\ (forall id, activeId c = Some id ->
        find (fun p => String.eqb (item_id p) id) (items c) = None ->
        fst out = (items c, r))
  /\ map item_id (fst (fst out)) = map item_id (items c)
  /\ (forall i p, nth_error (items c) i = Some p -> activeId c <> Some (item_id p) ->
        nth_error (fst (fst out)) i = Some p)
  /\ snd out = (String.eqb key "r" || String.eqb key "R" || rotating)%bool.
Proof.
  cbv zeta.
  assert (R : (if String.eqb key "r" || String.eqb key "R" then true else rotating)
              = (String.eqb key "r" || String.eqb key "R" || rotating)%bool)
    by (destruct (String.eqb key "r" || String.eqb key "R"); reflexivity).
  assert (N : forall dx dy : Q,
    (negb (Qeq_bool dx 0) || negb (Qeq_bool dy 0) = true) ->
    (let step : Q := if shiftKey then 10 else 1 in
     let dx1 := if String.eqb key "ArrowLeft" then - step else 0 in
     let dx' := if String.eqb key "ArrowRight" then step else dx1 in
     let dy1 := if String.eqb key "ArrowUp" then - step else 0 in
     let dy' := if String.eqb key "ArrowDown" then step else dy1 in
     dx' = dx /\ dy' = dy) ->
    forall id cur,
      activeId c = Some id -> id <> EmptyString ->
      find (fun p => String.eqb (item_id p) id) (items c) = Some cur ->
      let out := onKeyDown c r rotating key shiftKey in
      let s := getSnapped c (fl (item_x cur + dx)) (fl (item_y cur + dy)) false in
      fst (fst out)
      = map (fun p => if String.eqb (item_id p) id
                      then with_xy p (snapped_x s) (snapped_y s) else p) (items c)
      /\ lastGuides (snd (fst out)) = (guidesX s, guidesY s)
      /\ Qabs (snapped_x s - fl (item_x cur + dx)) <= 8 + pow2 (-50)
      /\ Qabs (snapped_y s - fl (item_y cur + dy)) <= 8 + pow2 (-50)).
  { intros dx dy Hm Hd id cur Ha Hne Hf. cbv zeta in Hd. destruct Hd as [Hx Hy].
    cbv zeta. unfold onKeyDown, activeOf. rewrite Ha.
    apply String.eqb_neq in Hne. rewrite Hne. cbv zeta. rewrite Hx, Hy, Hm.
    unfold findItem. rewrite Hf. cbn [fst snd lastGuides].
    split; [reflexivity|]. split; [reflexivity|].
    unfold getSnapped. cbn [snapped_x snapped_y].
    split; apply nearest_exact_within. }
  assert (K : forall a b : string, a <> b -> String.eqb a b = false)
    by (intros a b H; now apply String.eqb_neq).
  split.
  { intros ->. apply N; [destruct shiftKey; reflexivity|]. cbv zeta. cbn. auto. }
  split.
  { intros ->. apply N; [destruct shiftKey; reflexivity|]. cbv zeta. cbn. auto. }
  split.
  { intros ->. apply N; [destruct shiftKey; reflexivity|]. cbv zeta. cbn. auto. }
  split.
  { intros ->. apply N; [destruct shiftKey; reflexivity|]. cbv zeta. cbn. auto. }
  unfold onKeyDown. rewrite R. clear R N. cbv zeta.
  split.
  { intros H1 H2 H3 H4. rewrite (K _ _ H1), (K _ _ H2), (K _ _ H3), (K _ _ H4).
    cbn [Qeq_bool negb orb]. change (Qeq_bool 0 0) with true. cbn [negb orb].
    destruct (activeOf c); reflexivity. }
  split.
  { unfold activeOf. intros [->| ->]; reflexivity. }
  split.
  { intros id Ha Hf. unfold activeOf. rewrite Ha.
    destruct (String.eqb id ""); [reflexivity|].
    match goal with |- context [if ?b then _ else _] => destruct b end; [|reflexivity].
    unfold findItem. rewrite Hf. reflexivity. }
  destruct (activeOf c) as [id|] eqn:Ea.
  2:{ cbn [fst snd]. auto. }
  match goal with |- context [if ?b then _ else _] => destruct b end.
  2:{ cbn [fst snd]. auto. }
  destruct (findItem id (items c)) as [cur|] eqn:Ef.
  2:{ cbn [fst snd]. auto. }
  cbn [fst snd]. split.
  { rewrite map_map. apply map_ext. intro p. destruct (String.eqb (item_id p) id); reflexivity. }
  split; [|reflexivity].
  intros i p Hp Hne. rewrite nth_error_map, Hp. cbn [option_map].
  destruct (String.eqb_spec (item_id p) id) as [E|E]; [|reflexivity].
  exfalso. apply Hne. unfold activeOf in Ea. destruct (activeId c) as [a|]; [|discriminate].
  destruct (String.eqb a ""); [discriminate|]. injection Ea as ->. now rewrite E.
Qed.

End NudgeFacts.


(** ** Picking an item with the pointer *)

Section PointerFacts.
Import JSMath JSMathFacts GeometryFacts ArrayFacts FreeformCanvas FreeformScene.

Variables cos sin : Q -> Q.
Variable atan2 : Q -> Q -> Q.


Lemma bringToTop_spec (id : string) (prev : list Item) :
  (forall q, In q prev -> item_id q <> id) /\ bringToTop id prev = prev
  \/ exists l1 sp l2,
       prev = l1 ++ sp :: l2 /\ item_id sp = id
       /\ (forall q, In q l1 -> item_id q <> id)
       /\ bringToTop id prev = l1 ++ l2 ++ [sp].
Proof.
  unfold bringToTop.
  destruct (Z.leb_spec 0 (App.findIndex (fun p => String.eqb (item_id p) id) prev)) as [H|H].
  - right. destruct (findIndex_found _ _ H) as (l1 & sp & l2 & E & Hsp & Hl & Hi).
    exists l1, sp, l2. rewrite Hi, Nat2Z.id. clear Hi H. subst prev.
    split; [reflexivity|]. split; [now apply String.eqb_eq|].
    split.
    + intros q Hq Heq. specialize (Hl q Hq). cbv beta in Hl.
      apply String.eqb_neq in Hl. contradiction.
    + rewrite nth_middle, firstn_middle, skipn_middle. reflexivity.
  - left. split; [|reflexivity].
    intros q Hq Heq.
    assert (0 <= App.findIndex (fun p => String.eqb (item_id p) id) prev)%Z; [|lia].
    apply (findIndex_some _ _ q Hq). now apply String.eqb_eq.
Qed.


End PointerFacts.

(** ** A press followed by a drag; what every gesture keeps *)

Section DragFacts.
Import JSMath JSMathFacts GeometryFacts ArrayFacts FreeformCanvas FreeformScene.
Import SnapNotions SnapFacts SceneNotions.

Variables cos sin : Q -> Q.
Variable atan2 : Q -> Q -> Q.

Lemma pictures_map (f : Item -> Item) (l : list Item) :
  (forall p, item_id (f p) = item_id p
             /\ item_naturalWidth (f p) = item_naturalWidth p
             /\ item_naturalHeight (f p) = item_naturalHeight p) ->
  pictures (map f l) = pictures l.
Proof.
  intro H. unfold pictures. rewrite map_map. apply map_ext. intro p.
  destruct (H p) as (-> & -> & ->). reflexivity.
Qed.

Lemma pictures_mapi_from (f : Item -> Z -> Item) (l : list Item) (i : Z) :
  (forall p k, item_id (f p k) = item_id p
               /\ item_naturalWidth (f p k) = item_naturalWidth p
               /\ item_naturalHeight (f p k) = item_naturalHeight p) ->
  pictures (mapi_from i f l) = pictures l.
Proof.
  intro H. revert i. induction l as [|a r IH]; intro i; [reflexivity|].
  cbn [mapi_from]. unfold pictures in *. cbn [map]. rewrite IH.
  destruct (H a i) as (-> & -> & ->). reflexivity.
Qed.

Lemma moveItem_same (id : string) (nx ny : Q) (p : Item) :
  item_id (moveItem id nx ny p) = item_id p
  /\ item_naturalWidth (moveItem id nx ny p) = item_naturalWidth p
  /\ item_naturalHeight (moveItem id nx ny p) = item_naturalHeight p.
Proof. unfold moveItem. destruct (String.eqb (item_id p) id); auto. Qed.

(** X7: No gesture and no arrangement adds, drops or swaps a picture: moving,
    rotating, zooming, nudging, tidying and arranging into cells keep
    the list of ids and natural sizes as it is, and a press only
    permutes it. *)
Theorem gestures_keep_pictures (c : Config) (r : DragRefs) (x y d w : Q)
        (flag shiftKey : bool) (key : string) (o : TidyOptions) :
  pictures (fst (onMouseMove c r x y flag)) = pictures (items c)
  /\ pictures (onMouseMoveRotate atan2 c flag x y) = pictures (items c)
  /\ pictures (onWheel c d) = pictures (items c)
  /\ pictures (fst (fst (onKeyDown c r flag key shiftKey))) = pictures (items c)
  /\ pictures (tidyArrange w o (items c)) = pictures (items c)
  /\ pictures (autoTidyEffect flag w o (items c)) = pictures (items c)
  /\ pictures (autoArrangeToCells c) = pictures (items c)
  /\ Permutation (pictures (fst (fst (onMouseDown cos sin c r x y)))) (pictures (items c)).
Proof.
  assert (Hif : forall (b : Item -> bool) (f : Item -> Item),
             (forall p, item_id (f p) = item_id p
                        /\ item_naturalWidth (f p) = item_naturalWidth p
                        /\ item_naturalHeight (f p) = item_naturalHeight p) ->
             pictures (map (fun p => if b p then f p else p) (items c)) = pictures (items c)).
  { intros b f H. apply pictures_map. intro p. destruct (b p); auto. }
  assert (Htidy : pictures (tidyArrange w o (items c)) = pictures (items c)).
  { unfold tidyArrange, mapi. apply pictures_mapi_from. intros p k. auto. }
  split.
  { unfold onMouseMove.
    destruct (dragging r); [|reflexivity].
    destruct (dragOffset r) as [[dx dy]|]; [|reflexivity].
    destruct (activeId c) as [id|]; [|reflexivity].
    destruct (String.eqb id EmptyString); [reflexivity|]. cbn [fst].
    apply pictures_map. intro p. apply moveItem_same. }
  split.
  { unfold onMouseMoveRotate. destruct (negb flag); [reflexivity|].
    destruct (activeOf c) as [id|]; [|reflexivity].
    destruct (findItem id (items c)); [|reflexivity].
    apply (Hif (fun p => String.eqb (item_id p) id) (fun p => with_rotation p _)).
    intro p. auto. }
  split.
  { unfold onWheel. destruct (activeOf c) as [id|]; [|reflexivity].
    apply (Hif (fun p => String.eqb (item_id p) id) (fun p => with_scale p _)).
    intro p. auto. }
  split.
  { unfold onKeyDown. destruct (activeOf c) as [id|]; [|reflexivity].
    destruct (moved (arrowStep key shiftKey)); [|reflexivity].
    destruct (findItem id (items c)); [|reflexivity]. cbn [fst].
    apply (Hif (fun p => String.eqb (item_id p) id) (fun p => with_xy p _ _)).
    intro p. auto. }
  split; [exact Htidy|].
  split.
  { unfold autoTidyEffect. destruct flag; [|reflexivity].
    destruct (0 <? len (items c))%Z; [exact Htidy | reflexivity]. }
  split.
  { unfold autoArrangeToCells. destruct (negb (cellsOn c)); [reflexivity|].
    unfold mapi. apply pictures_mapi_from. intros p k. auto. }
  unfold onMouseDown. destruct (hitTest cos sin (items c) x y) as [[j it]|]; cbn [fst];
    [|apply Permutation_refl].
  destruct (bringToTop_spec (item_id it) (items c)) as [[_ ->]|(l1 & sp & l2 & E & _ & _ & ->)];
    [apply Permutation_refl|].
  rewrite E. unfold pictures. apply Permutation_map. apply Permutation_app_head.
  apply Permutation_sym. change (sp :: l2) with ([sp] ++ l2). apply Permutation_app_comm.
Qed.


End DragFacts.

Section DragSample.
Import FreeformCanvas FreeformScene SceneNotions.


End DragSample.

(** ** Edits of the image list *)

Section ImageListFacts.
Import JSMath JSMathFacts ArrayFacts Types Compositor AppEdits.

Lemma someImage_In (b : string) (l : list ImageState) :
  someImage b l = true <-> exists im, In im l /\ id im = b.
Proof.
  unfold someImage. rewrite existsb_exists. split; intros (im & Hin & H); exists im.
  - split; [exact Hin | now apply String.eqb_eq].
  - split; [exact Hin | now apply String.eqb_eq].
Qed.

Lemma bigIdx_chosen (s : App.State) (b : string) :
  App.bigImageId s = Some b -> someImage b (App.images s) = true ->
  (0 <= App.bigIdx s < len (App.images s))%Z.
Proof.
  intros Hb Hsome. apply someImage_In in Hsome. destruct Hsome as (im & Hin & Hid).
  assert (0 <= App.bigIdx s)%Z.
  { unfold App.bigIdx. rewrite Hb. apply (findIndex_some _ _ im Hin). now apply String.eqb_eq. }
  split; [assumption | now apply AppFacts.bigIdx_range].
Qed.

Lemma with_bigImageId_same (s : App.State) : with_bigImageId s (App.bigImageId s) = s.
Proof. destruct s. reflexivity. Qed.

Lemma bigImageEffect_sets (s : App.State) :
  exists nb,
    bigImageEffect s = with_bigImageId s nb
    /\ (App.images s = [] -> nb = None)
    /\ (forall first rest, App.images s = first :: rest ->
          exists b, nb = Some b /\ someImage b (App.images s) = true
            /\ (b = id first \/ (App.bigImageId s = Some b /\ b <> EmptyString)))
    /\ (forall b, App.bigImageId s = Some b -> b <> EmptyString ->
          someImage b (App.images s) = true -> nb = Some b).
Proof.
  unfold bigImageEffect.
  destruct (App.images s) as [|first rest] eqn:Ei.
  - exists None. split.
    + destruct (App.bigImageId s) eqn:Eb; [reflexivity|].
      rewrite <- Eb. symmetry. apply with_bigImageId_same.
    + split; [reflexivity|]. split; [intros; discriminate|].
      intros b _ _ H. discriminate H.
  - assert (F : someImage (id first) (first :: rest) = true).
    { unfold someImage. cbn [existsb]. now rewrite String.eqb_refl. }
    assert (New : exists b, Some (id first) = Some b /\ someImage b (first :: rest) = true
                  /\ (b = id first \/ (App.bigImageId s = Some b /\ b <> EmptyString))).
    { exists (id first). auto. }
    destruct (App.bigImageId s) as [b|] eqn:Eb.
    + destruct (String.eqb_spec b EmptyString) as [Ee|Ee]; cbn [orb].
      * exists (Some (id first)). split; [reflexivity|]. split; [intros; discriminate|].
        split.
        -- intros f r E. injection E as <- <-.
           exists (id first). split; [reflexivity|]. split; [exact F | now left].
        -- intros b' Hb' Hne _. injection Hb' as <-. contradiction.
      * destruct (someImage b (first :: rest)) eqn:Es; cbn [negb].
        -- exists (Some b). split; [rewrite <- Eb; symmetry; apply with_bigImageId_same|].
           split; [intros; discriminate|]. split.
           ++ intros f r E. injection E as <- <-. exists b.
              split; [reflexivity|]. split; [exact Es|]. right. auto.
           ++ intros b' Hb' _ _. exact (eq_sym (eq_sym Hb')).
        -- exists (Some (id first)). split; [reflexivity|]. split; [intros; discriminate|].
           split.
           ++ intros f r E. injection E as <- <-.
              exists (id first). split; [reflexivity|]. split; [exact F | now left].
           ++ intros b' Hb' _ Hs. injection Hb' as <-. congruence.
    + exists (Some (id first)). split; [reflexivity|]. split; [intros; discriminate|].
      split.
      * intros f r E. injection E as <- <-.
        exists (id first). split; [reflexivity|]. split; [exact F | now left].
      * intros; discriminate.
Qed.

(** X9: The effect on the image list keeps the big-image choice valid: with
    no image it is null, otherwise it names an image of the list, so the
    index lookup of the big layouts finds one. A non-empty id that names
    an image is kept; anything else becomes the first image's id. Images
    and bitmaps are untouched, and running the effect again changes
    nothing. *)
Theorem big_image_kept_valid (s : App.State) :
  let s' := bigImageEffect s in
  App.images s' = App.images s
  /\ App.imageBitmaps s' = App.imageBitmaps s
  /\ App.layoutMode s' = App.layoutMode s
  /\ (App.images s = [] -> App.bigImageId s' = None)
  /\ (forall first rest, App.images s = first :: rest ->
        exists b, App.bigImageId s' = Some b
          /\ someImage b (App.images s') = true
          /\ (0 <= App.bigIdx s' < len (App.images s'))%Z
          /\ (b = id first \/ (App.bigImageId s = Some b /\ b <> EmptyString)))
  /\ (forall b, App.bigImageId s = Some b -> b <> EmptyString ->
        someImage b (App.images s) = true -> s' = s)
  /\ bigImageEffect s' = s'.
Proof.
  cbv zeta. destruct (bigImageEffect_sets s) as (nb & -> & Hnil & Hcons & Hkeep).
  cbn [with_bigImageId App.images App.imageBitmaps App.layoutMode App.bigImageId].
  split; [reflexivity|]. split; [reflexivity|]. split; [reflexivity|].
  split; [exact Hnil|]. split.
  { intros first rest E. destruct (Hcons first rest E) as (b & -> & Hs & Hor).
    exists b. split; [reflexivity|]. split; [exact Hs|]. split; [|exact Hor].
    apply (bigIdx_chosen (with_bigImageId s (Some b)) b); [reflexivity | exact Hs]. }
  split.
  { intros b Hb Hne Hs. rewrite (Hkeep b Hb Hne Hs), <- Hb. apply with_bigImageId_same. }
  destruct (bigImageEffect_sets (with_bigImageId s nb)) as (nb' & -> & Hnil' & Hcons' & Hkeep').
  cbn [with_bigImageId App.images App.imageBitmaps App.layoutMode App.bigImageId] in *.
  assert (E : nb' = nb); [|rewrite E; reflexivity].
  destruct (App.images s) as [|first rest] eqn:Ei.
  - rewrite Hnil, Hnil'; reflexivity.
  - destruct (Hcons first rest eq_refl) as (b & -> & Hs & Hor).
    destruct (string_dec b EmptyString) as [Hb|Hb].
    + destruct (Hcons' first rest eq_refl) as (b' & -> & _ & [Hf|[Hf _]]).
      * destruct Hor as [->|[_ Hne]]; [now rewrite Hf | contradiction].
      * exact (eq_sym Hf).
    + apply (Hkeep' b eq_refl Hb Hs).
Qed.

Lemma permutation_moved {A : Type} (l1 l2 : list A) (a : A) (k : nat) :
  Permutation (firstn k (l1 ++ l2) ++ a :: skipn k (l1 ++ l2)) (l1 ++ a :: l2).
Proof.
  eapply Permutation_trans; [apply Permutation_sym, Permutation_middle|].
  rewrite firstn_skipn. apply Permutation_middle.
Qed.

(** X10: Dropping a dragged thumbnail on another one only reorders the list:
    the first image with the dragged id is taken out and put at the
    index the target had, the other images keeping their order, and the
    drag ends. When either id names no image the list is unchanged. *)
Theorem drop_moves_dragged (d target : string) (images : list ImageState) :
  d <> EmptyString -> d <> target ->
  let out := handleDropOnImage (Some d) target images in
  let di := App.findIndex (fun img => String.eqb (id img) d) images in
  let ti := App.findIndex (fun img => String.eqb (id img) target) images in
  snd out = None
  /\ Permutation (fst out) images
  /\ (di = (-1)%Z \/ ti = (-1)%Z -> fst out = images)
  /\ ((0 <= di)%Z -> (0 <= ti)%Z ->
      exists item, nth_error images (Z.to_nat di) = Some item /\ id item = d
        /\ nth_error (fst out) (Z.to_nat ti) = Some item
        /\ firstn (Z.to_nat ti) (fst out) ++ skipn (S (Z.to_nat ti)) (fst out)
           = firstn (Z.to_nat di) images ++ skipn (S (Z.to_nat di)) images).
Proof.
  intros Hd Hdt. cbv zeta. unfold handleDropOnImage.
  destruct (String.eqb_spec d EmptyString) as [|_]; [contradiction|].
  destruct (String.eqb_spec d target) as [|_]; [contradiction|]. cbn [orb].
  set (di := App.findIndex (fun img => String.eqb (id img) d) images).
  set (ti := App.findIndex (fun img => String.eqb (id img) target) images).
  assert (Rd : di = (-1)%Z \/ (0 <= di < 0 + len images)%Z)
    by apply AppFacts.findIndex_from_range.
  assert (Rt : ti = (-1)%Z \/ (0 <= ti < 0 + len images)%Z)
    by apply AppFacts.findIndex_from_range.
  destruct (Z.eqb_spec di (-1)) as [Ed|Ed]; cbn [negb andb].
  { cbn [fst snd]. repeat split; auto. intros; lia. }
  destruct (Z.eqb_spec ti (-1)) as [Et|Et]; cbn [negb andb].
  { cbn [fst snd]. repeat split; auto. intros; lia. }
  destruct Rd as [|Rd]; [contradiction|]. destruct Rt as [|Rt]; [contradiction|].
  destruct (findIndex_found _ _ (proj1 Rd)) as (l1 & item & l2 & E & Hit & _ & Hi).
  fold di in Hi. rewrite Hi, Nat2Z.id.
  assert (Ht : (Z.to_nat ti <= List.length (l1 ++ l2))%nat).
  { unfold len in Rt. rewrite E in Rt. rewrite length_app in *. cbn [List.length] in Rt. lia. }
  clearbody di ti. subst images.
  rewrite nth_middle, firstn_middle, skipn_middle. cbn [fst snd].
  assert (L : List.length (firstn (Z.to_nat ti) (l1 ++ l2)) = Z.to_nat ti)
    by (apply firstn_length_le; exact Ht).
  split; [reflexivity|]. split; [apply permutation_moved|].
  split; [intros [F|F]; [lia | contradiction]|].
  intros _ _. exists item. split; [reflexivity|]. split; [now apply String.eqb_eq|].
  pose proof (firstn_skipn (Z.to_nat ti) (l1 ++ l2)) as FS.
  revert L FS. generalize (firstn (Z.to_nat ti) (l1 ++ l2)) (skipn (Z.to_nat ti) (l1 ++ l2)).
  intros pre post L FS. rewrite <- L.
  rewrite nth_middle, firstn_middle, skipn_middle. auto.
Qed.

(** The second of three thumbnails dropped on the first. *)
Lemma drop_b_on_a :
  fst (handleDropOnImage (Some "b") "a" Samples.threeImages)
  = [Samples.image "b"; Samples.image "a"; Samples.image "c"]
  /\ Permutation (fst (handleDropOnImage (Some "b") "a" Samples.threeImages))
                 Samples.threeImages.
Proof.
  split; [reflexivity|].
  refine (proj1 (proj2 (drop_moves_dragged "b" "a" Samples.threeImages _ _))).
  - discriminate.
  - discriminate.
Defined.

Lemma bitmapsOf_agree (s t : App.State) (l : list ImageState) :
  (forall im, In im l -> App.imageBitmaps s (id im) = App.imageBitmaps t (id im)) ->
  App.bitmapsOf s l = App.bitmapsOf t l.
Proof.
  unfold App.bitmapsOf. induction l as [|im r IH]; intro H; cbn [flat_map]; [reflexivity|].
  rewrite (H im (or_introl eq_refl)), IH; [reflexivity|].
  intros x Hx. apply H. now right.
Qed.

(** X11: Deleting a thumbnail removes every image with its id and the id's
    bitmap, and nothing else: the other images stay, with their bitmaps,
    and a list without the id is unchanged. After the effect on the
    image list has run, a valid big image other than the deleted one is
    still the big image. *)
Theorem delete_removes_one_id (imgId : string) (s : App.State) :
  let s' := removeImage imgId s in
  someImage imgId (App.images s') = false
  /\ App.imageBitmaps s' imgId = None
  /\ (forall im, In im (App.images s') <-> In im (App.images s) /\ id im <> imgId)
  /\ (forall k, k <> imgId -> App.imageBitmaps s' k = App.imageBitmaps s k)
  /\ (someImage imgId (App.images s) = false -> App.images s' = App.images s)
  /\ App.bitmapsOf s' (App.images s') = App.bitmapsOf s (App.images s')
  /\ (forall b, App.bigImageId s = Some b -> b <> EmptyString -> b <> imgId ->
        someImage b (App.images s) = true ->
        App.bigImageId (bigImageEffect s') = Some b).
Proof.
  cbv zeta.
  assert (Hin : forall im, In im (App.images (removeImage imgId s))
                           <-> In im (App.images s) /\ id im <> imgId).
  { intro im. unfold removeImage. cbn [with_images App.images]. rewrite filter_In.
    rewrite negb_true_iff, String.eqb_neq. tauto. }
  split.
  { destruct (someImage imgId (App.images (removeImage imgId s))) eqn:E; [|reflexivity].
    apply someImage_In in E. destruct E as (im & Him & Hid). apply Hin in Him. tauto. }
  split.
  { unfold removeImage. cbn [with_images App.imageBitmaps]. now rewrite String.eqb_refl. }
  split; [exact Hin|].
  split.
  { intros k Hk. unfold removeImage. cbn [with_images App.imageBitmaps].
    destruct (String.eqb_spec k imgId); [contradiction | reflexivity]. }
  split.
  { intro Hno. unfold removeImage. cbn [with_images App.images].
    apply forallb_filter_id. apply forallb_forall. intros im Him.
    apply negb_true_iff. apply String.eqb_neq. intro E.
    assert (someImage imgId (App.images s) = true); [|congruence].
    apply someImage_In. eauto. }
  split.
  { apply bitmapsOf_agree. intros im Him. apply Hin in Him.
    unfold removeImage. cbn [with_images App.imageBitmaps].
    destruct (String.eqb_spec (id im) imgId); [tauto | reflexivity]. }
  intros b Hb Hne Hdel Hsome.
  destruct (bigImageEffect_sets (removeImage imgId s)) as (nb & -> & _ & _ & Hkeep).
  cbn [with_bigImageId App.bigImageId]. apply Hkeep; auto.
  apply someImage_In. apply someImage_In in Hsome. destruct Hsome as (im & Him & Hid).
  exists im. split; [|exact Hid]. apply Hin. split; [exact Him | congruence].
Qed.

Lemma constrainedWidth_range (x : Q) :
  280 <= constrainedWidth x <= 600 /\ (280 <= x <= 600 -> constrainedWidth x = x).
Proof.
  unfold constrainedWidth, JSMath.max, JSMath.min.
  destruct (Qle_bool x 600) eqn:E1.
  - apply Qle_bool_iff in E1. destruct (Qle_bool 280 x) eqn:E2.
    + apply Qle_bool_iff in E2. split; [lra | reflexivity].
    + apply Qle_bool_false in E2. split; [lra | intros; exfalso; lra].
  - apply Qle_bool_false in E1. destruct (Qle_bool 280 600) eqn:E2.
    + split; [lra | intros; exfalso; lra].
    + apply Qle_bool_false in E2. exfalso. lra.
Qed.

(** X12: Whatever pointer moves the resize handler sees, resizing or not, the
    sidebar stays between 280 and 600 pixels wide from its initial 380;
    while resizing, a pointer within that range sets the width to its
    own position. *)
Theorem sidebar_width_bounded (events : list (bool * Q)) :
  280 <= fold_left handleResizeMouseMove events initialSidebarWidth <= 600
  /\ forall w x, 280 <= x <= 600 -> handleResizeMouseMove w (true, x) = x.
Proof.
  split.
  - assert (G : forall w, 280 <= w <= 600 ->
                  280 <= fold_left handleResizeMouseMove events w <= 600).
    { induction events as [|[r x] rest IH]; intros w Hw; cbn [fold_left]; [exact Hw|].
      apply IH. unfold handleResizeMouseMove. destruct r; cbn [negb]; [|exact Hw].
      apply constrainedWidth_range. }
    apply G. unfold initialSidebarWidth. lra.
  - intros w x Hx. cbn. now apply constrainedWidth_range.
Qed.

End ImageListFacts.

(** ** The three draw routines on the same input *)

Section RoutineAgreement.
Import JSMath JSMathFacts ArrayFacts Types Compositor AppEdits.

Variable s : App.State.

(** Every image has its bitmap. *)
Hypothesis decoded : forall im, In im (App.images s) -> App.imageBitmaps s (id im) <> None.

(** The big image is the first one. *)
Hypothesis first_big : App.images s = [] \/ App.bigIdx s = 0%Z.

Lemma Qmult_1_same (a : Q) : a * 1 = a.
Proof. destruct a as [n d]. unfold Qmult. cbn. now rewrite Z.mul_1_r, Pos.mul_1_r. Qed.

Lemma first_is_big :
  App.bigBitmap s = hd_error (App.bitmapsOf s (App.images s))
  /\ App.gridImages s = tl (App.bitmapsOf s (App.images s))
  /\ len (App.images s) = len (App.bitmapsOf s (App.images s)).
Proof.
  split; [|split].
  - unfold App.bigBitmap. destruct first_big as [E|E].
    + unfold App.bigIdx. rewrite E. reflexivity.
    + rewrite E. cbn [Z.leb Z.compare Z.to_nat nth_error].
      destruct (App.images s) as [|im rest] eqn:Ei; [reflexivity|].
      cbn [nth_error App.bitmapsOf flat_map].
      destruct (App.imageBitmaps s (id im)) eqn:Eb; [reflexivity|].
      exfalso. apply (decoded im); [now left | exact Eb].
  - unfold App.gridImages. destruct first_big as [E|E].
    + rewrite E. reflexivity.
    + rewrite E. destruct (App.images s) as [|im rest] eqn:Ei; [reflexivity|].
      unfold mapi. cbn [mapi_from Z.eqb List.concat app].
      assert (R : forall l i, (1 <= i)%Z ->
                List.concat (mapi_from i (fun (a : ImageState) idx =>
                                            if (idx =? 0)%Z then [] else [a]) l) = l).
      { induction l as [|a r IH]; intros i Hi; cbn [mapi_from List.concat]; [reflexivity|].
        destruct (Z.eqb_spec i 0); [lia|]. rewrite IH by lia. reflexivity. }
      rewrite R by lia. cbn [App.bitmapsOf flat_map].
      destruct (App.imageBitmaps s (id im)) eqn:Eb; [reflexivity|].
      exfalso. apply (decoded im); [now left | exact Eb].
  - unfold len. now rewrite AppFacts.bitmapsOf_length.
Qed.

Lemma andThen_assoc_done (a b : Outcome) (x y : list Op) :
  andThen (andThen a (andThen b (done x))) (done y) = andThen a (andThen b (done (x ++ y))).
Proof.
  destruct a as [pa [ta|]], b as [pb [tb|]]; cbn; try reflexivity.
  now rewrite <- !app_assoc.
Qed.

Lemma export_calls_agree (W H scaleX gapX gapY : Q) :
  App.layoutCalls s W H scaleX gapX gapY
  = ExportWorker.layoutCalls (snapshot s) (snapshotBitmaps s) W H scaleX gapX gapY.
Proof.
  destruct first_is_big as (Hb & Hg & Hl).
  unfold App.layoutCalls, ExportWorker.layoutCalls.
  cbn [snapshot snapshotBitmaps layoutMode bitmaps_grid bgOpacity bgBlur mainZoom].
  rewrite Hb, Hg, Hl. generalize (App.bitmapsOf s (App.images s)) as L. intro L.
  destruct (String.eqb_spec (App.layoutMode s) "freeform") as [E|_].
  { rewrite E. reflexivity. }
  destruct (String.eqb (App.layoutMode s) "grid"); [reflexivity|].
  destruct (String.eqb (App.layoutMode s) "left-big" || String.eqb (App.layoutMode s) "right-big").
  { destruct L; reflexivity. }
  destruct (String.eqb (App.layoutMode s) "top-big" || String.eqb (App.layoutMode s) "bottom-big").
  { destruct L; reflexivity. }
  reflexivity.
Qed.

Lemma preview_calls_agree (W H : Q) :
  App.images s <> [] ->
  App.layoutCalls s W H 1 (App.debouncedGap s) (App.debouncedGap s)
  = UIWorker.layoutCalls (snapshot s) (snapshotBitmaps s) W H.
Proof.
  intro Hne. destruct first_is_big as (Hb & Hg & Hl).
  unfold App.layoutCalls, UIWorker.layoutCalls.
  cbn [snapshot snapshotBitmaps layoutMode bitmaps_grid bgOpacity bgBlur mainZoom gap].
  rewrite Hb, Hg, Hl, Qmult_1_same.
  assert (HL : App.bitmapsOf s (App.images s) <> []).
  { intro E. rewrite E in Hl. destruct (App.images s); [congruence | discriminate Hl]. }
  revert HL. generalize (App.bitmapsOf s (App.images s)) as L. intros L HL.
  destruct L as [|b L]; [congruence|].
  destruct (String.eqb_spec (App.layoutMode s) "freeform") as [E|_].
  { rewrite E. reflexivity. }
  destruct (String.eqb (App.layoutMode s) "grid"); [reflexivity|].
  destruct (String.eqb (App.layoutMode s) "left-big" || String.eqb (App.layoutMode s) "right-big");
    [reflexivity|].
  destruct (String.eqb (App.layoutMode s) "top-big" || String.eqb (App.layoutMode s) "bottom-big");
    [reflexivity|].
  reflexivity.
Qed.

(** X13: With every image decoded and the first image as the big one, the
    export drawn on the main thread paints exactly what the export
    worker paints for a 2000 x 1500 canvas and the payload carrying the
    same state, in every layout mode. *)
Theorem export_routines_agree (logicalW logicalH : Q) :
  App.drawCanvas s logicalW logicalH true
  = ExportWorker.drawExportCanvas App.EXPORT_WIDTH App.EXPORT_HEIGHT
      (App.viewport_width s) (App.viewport_height s) (snapshot s) (snapshotBitmaps s).
Proof.
  unfold App.drawCanvas, ExportWorker.drawExportCanvas.
  rewrite andb_false_r. cbv zeta. rewrite export_calls_agree. reflexivity.
Qed.

(** X14: With every image decoded and the first image as the big one, the
    preview drawn on the main thread paints what the preview worker
    paints for the same state and size, followed by the text layers,
    which the worker never paints; with no image both paint the
    placeholder and nothing else after the background. *)
Theorem preview_routines_agree (W H : Q) :
  let worker := UIWorker.drawCanvas W H (snapshot s) (snapshotBitmaps s) in
  App.drawCanvas s W H false
  = if (len (App.images s) =? 0)%Z then worker
    else andThen worker (done (drawTextLayers (App.textLayers s) 1 1)).
Proof.
  cbv zeta. unfold App.drawCanvas, UIWorker.drawCanvas.
  cbn [snapshot snapshotBitmaps images background bitmaps_background globalZoom
       watermark bitmaps_watermark gap negb].
  rewrite andb_true_r.
  destruct (len (App.images s) =? 0)%Z eqn:E; [reflexivity|].
  rewrite andThen_assoc_done, Qmult_1_same, preview_calls_agree; [reflexivity|].
  intro Hn. rewrite Hn in E. discriminate E.
Qed.

End RoutineAgreement.

Section RoutineAgreementSamples.
Import Types Compositor AppEdits.

(** Three decoded images in the left-big mode, the first one big. *)
Lemma export_routines_agree_sample :
  painted (App.drawCanvas (Samples.appState "left-big" Samples.threeImages (Some "a")) 800 600 true)
  = painted (ExportWorker.drawExportCanvas 2000 1500 800 600
               (snapshot (Samples.appState "left-big" Samples.threeImages (Some "a")))
               (snapshotBitmaps (Samples.appState "left-big" Samples.threeImages (Some "a")))).
Proof.
  rewrite (export_routines_agree (Samples.appState "left-big" Samples.threeImages (Some "a"))).
  - reflexivity.
  - intros im _. discriminate.
  - right. reflexivity.
Defined.

Lemma preview_routines_agree_sample :
  painted (App.drawCanvas (Samples.appState "top-big" Samples.threeImages (Some "a")) 800 600 false)
  = painted (UIWorker.drawCanvas 800 600
               (snapshot (Samples.appState "top-big" Samples.threeImages (Some "a")))
               (snapshotBitmaps (Samples.appState "top-big" Samples.threeImages (Some "a")))).
Proof.
  rewrite (preview_routines_agree (Samples.appState "top-big" Samples.threeImages (Some "a"))).
  - vm_compute. reflexivity.
  - intros im _. discriminate.
  - right. reflexivity.
Defined.

End RoutineAgreementSamples.

(** ** The export is the preview, stretched *)

Section ScaleFacts.
Import JSMath JSMathFacts ArrayFacts Types Compositor Geometry GeometryFacts ScaleNotions.

Lemma max_0_scale (k a a' : Q) : 0 < k -> a' == k * a -> max 0 a' == k * max 0 a.
Proof.
  intros Hk E.
  destruct (max_0_cases a) as [[Ha ->]|[Ha ->]], (max_0_cases a') as [[Ha' ->]|[Ha' ->]].
  - exact E.
  - pose proof (Qmult_le_0_compat k a (Qlt_le_weak _ _ Hk) Ha). exfalso. lra.
  - assert (k * a < 0); [|exfalso; lra].
    setoid_replace (k * a) with (- (k * - a)) by ring.
    assert (0 < k * - a) by (apply Qmult_lt_0_compat; lra). lra.
  - ring.
Qed.

Lemma Forall2_mapi_from {A B C : Type} (R : B -> C -> Prop)
      (f : A -> Z -> B) (g : A -> Z -> C) (l : list A) (i : Z) :
  (forall a k, R (f a k) (g a k)) -> Forall2 R (mapi_from i f l) (mapi_from i g l).
Proof.
  intro H. revert i. induction l as [|a r IH]; intro i; cbn [mapi_from]; constructor; auto.
Qed.

Lemma cells_stretched (sx sy : Q) (cols : Z) (x0 y0 cw ch gx gy x0' y0' cw' ch' gx' gy' : Q)
      (l : list ImageBitmap) :
  x0' == sx * x0 -> y0' == sy * y0 -> cw' == sx * cw -> ch' == sy * ch ->
  gx' == sx * gx -> gy' == sy * gy ->
  Forall2 (stretched sx sy)
          (mapi (cellCall cols x0' y0' cw' ch' gx' gy') l)
          (mapi (cellCall cols x0 y0 cw ch gx gy) l).
Proof.
  intros Hx Hy Hw Hh Hgx Hgy. apply Forall2_mapi_from. intros a k.
  unfold stretched, cellCall, Rect_eq, scaleRect. cbn.
  rewrite Hx, Hy, Hw, Hh, Hgx, Hgy. repeat split; try reflexivity; ring.
Qed.

Lemma tiles_stretched (sx sy : Q) (cols : Z) (cw ch cw' ch' a b b' : Q)
      (l : list ImageBitmap) :
  cw' == sx * cw -> ch' == sy * ch -> b' == sx * b ->
  Forall2 (stretched sx sy)
          (mapi (tileCall cols cw' ch' a b') l) (mapi (tileCall cols cw ch a b) l).
Proof.
  intros Hw Hh Hb. apply Forall2_mapi_from. intros im k.
  unfold stretched, tileCall, Rect_eq, scaleRect. cbn.
  rewrite Hw, Hh. repeat split; try reflexivity; try ring. exact Hb.
Qed.

(** X15: The image layer of an export is the image layer of the preview,
    stretched: drawn on a W' x H' canvas for a W x H viewport, every
    call gets the rectangle it gets in the preview with x and width
    multiplied by W'/W and y and height by H'/H, for the same picture,
    in every layout mode. *)
Theorem export_is_stretched_preview (s : App.State) (W H W' H' g : Q) :
  0 < W -> 0 < H -> 0 < W' -> 0 < H' ->
  let sx := W' / W in
  let sy := H' / H in
  Forall2 (stretched sx sy)
          (App.layoutCalls s W' H' sx (g * sx) (g * sy))
          (App.layoutCalls s W H 1 g g).
Proof.
  intros HW HH HW' HH'. cbv zeta.
  set (sx := W' / W). set (sy := H' / H).
  assert (Ex : W' == sx * W) by (unfold sx; field; lra).
  assert (Ey : H' == sy * H) by (unfold sy; field; lra).
  assert (Px : 0 < sx).
  { unfold sx, Qdiv. apply Qmult_lt_0_compat; [exact HW' | now apply Qinv_lt_0_compat]. }
  assert (Py : 0 < sy).
  { unfold sy, Qdiv. apply Qmult_lt_0_compat; [exact HH' | now apply Qinv_lt_0_compat]. }
  assert (Egx : g * sx == sx * g) by ring.
  assert (Egy : g * sy == sy * g) by ring.
  clearbody sx sy.
  assert (Half : max 0 (W' / 2 - g * sx * (3 # 2)) == sx * max 0 (W / 2 - g * (3 # 2))).
  { apply max_0_scale; [exact Px|]. rewrite Ex. unfold Qdiv. ring. }
  assert (HalfH : max 0 (H' / 2 - g * sy * (3 # 2)) == sy * max 0 (H / 2 - g * (3 # 2))).
  { apply max_0_scale; [exact Py|]. rewrite Ey. unfold Qdiv. ring. }
  unfold App.layoutCalls. cbv zeta.
  destruct (String.eqb (App.layoutMode s) "freeform"); [constructor|].
  destruct (String.eqb (App.layoutMode s) "grid").
  { destruct (len (App.bitmapsOf s (App.images s)) =? 0)%Z; [constructor|].
    apply cells_stretched; auto.
    - apply max_0_scale; [exact Px|]. rewrite Ex. unfold Qdiv. ring.
    - apply max_0_scale; [exact Py|]. rewrite Ey. unfold Qdiv. ring. }
  destruct (String.eqb (App.layoutMode s) "left-big" || String.eqb (App.layoutMode s) "right-big").
  { apply Forall2_app.
    - destruct (0 <? len (App.bitmapsOf s (App.images s)))%Z; [|constructor].
      destruct (App.bigBitmap s); constructor; [|constructor].
      unfold stretched, Rect_eq, scaleRect. cbn [placement rect_x rect_y rect_w rect_h].
      split; [|auto]. split; [|split; [exact Egy|split; [exact Half|]]].
      + destruct (String.eqb (App.layoutMode s) "left-big"); [exact Egx|].
        rewrite Ex. unfold Qdiv. ring.
      + apply max_0_scale; [exact Py|]. rewrite Ey. ring.
    - destruct (1 <? len (App.images s))%Z; [|constructor].
      apply cells_stretched; auto.
      + destruct (String.eqb (App.layoutMode s) "left-big"); [|exact Egx].
        rewrite Ex. unfold Qdiv. ring.
      + apply max_0_scale; [exact Px|]. rewrite Half. unfold Qdiv. ring.
      + apply max_0_scale; [exact Py|]. rewrite Ey. unfold Qdiv. ring. }
  destruct (String.eqb (App.layoutMode s) "top-big" || String.eqb (App.layoutMode s) "bottom-big").
  { apply Forall2_app.
    - destruct (0 <? len (App.bitmapsOf s (App.images s)))%Z; [|constructor].
      destruct (App.bigBitmap s); constructor; [|constructor].
      unfold stretched, Rect_eq, scaleRect. cbn [placement rect_x rect_y rect_w rect_h].
      split; [|auto]. split; [exact Egx|split; [|split; [|exact HalfH]]].
      + destruct (String.eqb (App.layoutMode s) "top-big"); [exact Egy|].
        rewrite Ey. unfold Qdiv. ring.
      + apply max_0_scale; [exact Px|]. rewrite Ex. ring.
    - destruct (1 <? len (App.images s))%Z; [|constructor].
      apply cells_stretched; auto.
      + destruct (String.eqb (App.layoutMode s) "top-big"); [|exact Egy].
        rewrite Ey. unfold Qdiv. ring.
      + apply max_0_scale; [exact Px|]. rewrite Ex. unfold Qdiv. ring.
      + apply max_0_scale; [exact Py|]. rewrite HalfH. unfold Qdiv. ring. }
  destruct (String.eqb (App.layoutMode s) "single-blur"); [|constructor].
  apply Forall2_app.
  - destruct (0 <? len (tl (App.bitmapsOf s (App.images s))))%Z; [|constructor].
    apply tiles_stretched.
    + rewrite Ex. unfold Qdiv. ring.
    + rewrite Ey. unfold Qdiv. ring.
    + ring.
  - destruct (App.bitmapsOf s (App.images s)); constructor; [|constructor].
    unfold stretched, Rect_eq, scaleRect. cbn [placement rect_x rect_y rect_w rect_h].
    split; [|auto]. rewrite Ex, Ey. unfold Qdiv. repeat split; ring.
Qed.

End ScaleFacts.

Section ScaleSample.
Import Types Compositor ScaleNotions.

(** The 2000 x 1500 export of an 800 x 600 viewport with the gap 16. *)
Lemma export_is_stretched_800x600 :
  Forall2 (stretched (2000 / 800) (1500 / 600))
          (App.layoutCalls (Samples.appState "grid" Samples.threeImages (Some "a"))
                           2000 1500 (2000 / 800) (16 * (2000 / 800)) (16 * (1500 / 600)))
          (App.layoutCalls (Samples.appState "grid" Samples.threeImages (Some "a"))
                           800 600 1 16 16).
Proof.
  apply (export_is_stretched_preview
           (Samples.appState "grid" Samples.threeImages (Some "a")) 800 600 2000 1500 16);
    reflexivity.
Defined.

End ScaleSample.

(** ** Fitting a picture into its cell; the watermark *)

Section FitFacts.
Import JSMath JSMathFacts Types Compositor Geometry GeometryFacts.

Lemma ratio_below (w h r : Q) : 0 < h -> 0 < r -> w / h < r -> w / r < h.
Proof.
  intros Hh Hr H.
  assert (E1 : w == (w / h) * h) by (field; lra).
  assert (E2 : w == (w / r) * r) by (field; lra).
  set (a := w / h) in *. set (b := w / r) in *. nra.
Qed.

Lemma ratio_above (w h r : Q) : 0 < h -> 0 < r -> r <= w / h -> h * r <= w.
Proof.
  intros Hh Hr H.
  assert (E1 : w == (w / h) * h) by (field; lra).
  set (a := w / h) in *. nra.
Qed.

(** X16: A picture with positive sizes drawn into a cell with an interior is
    clipped to the cell and keeps its aspect ratio and the cell's
    centre. At zoom 1 it fills the cell in one direction and fits in the
    other; at any zoom from 0 to 1 it stays inside the cell. *)
Theorem contain_fit (globalZoom extraZoom x y w h : Q) (img : ImageBitmap) :
  0 < w -> 0 < h -> (0 < width img)%Z -> (0 < height img)%Z ->
  exists dest,
    drawImage globalZoom (Some img) x y w h extraZoom
    = done [drawClipped img {| rect_x := x; rect_y := y; rect_w := w; rect_h := h |} dest]
    /\ rect_w dest * inject_Z (height img) == rect_h dest * inject_Z (width img)
    /\ rect_x dest + rect_w dest / 2 == x + w / 2
    /\ rect_y dest + rect_h dest / 2 == y + h / 2
    /\ (globalZoom * extraZoom == 1 ->
        (rect_w dest == w /\ rect_h dest <= h) \/ (rect_h dest == h /\ rect_w dest <= w))
    /\ (0 <= globalZoom * extraZoom <= 1 ->
        x <= rect_x dest /\ rect_x dest + rect_w dest <= x + w
        /\ y <= rect_y dest /\ rect_y dest + rect_h dest <= y + h).
Proof.
  intros Hw Hh Hiw Hih. unfold drawImage.
  destruct (Qle_bool w 0) eqn:E1; [apply Qle_bool_iff in E1; exfalso; lra|].
  destruct (Qle_bool h 0) eqn:E2; [apply Qle_bool_iff in E2; exfalso; lra|].
  destruct (Z.leb_spec (width img) 0); [lia|].
  destruct (Z.leb_spec (height img) 0); [lia|].
  cbn [orb]. cbv zeta. eexists. split; [reflexivity|].
  cbn [rect_x rect_y rect_w rect_h].
  pose proof (inject_Z_pos _ Hiw) as Piw. pose proof (inject_Z_pos _ Hih) as Pih.
  set (iw := inject_Z (width img)) in *. set (ih := inject_Z (height img)) in *.
  set (zoom := globalZoom * extraZoom).
  assert (Pr : 0 < iw / ih).
  { unfold Qdiv. apply Qmult_lt_0_compat; [exact Piw | now apply Qinv_lt_0_compat]. }
  destruct (Qlt_bool (w / h) (iw / ih)) eqn:Er.
  - apply Qlt_bool_true in Er. pose proof (ratio_below w h (iw / ih) Hh Pr Er) as Hb.
    assert (Pb : 0 < w / (iw / ih)).
    { unfold Qdiv at 1. apply Qmult_lt_0_compat; [exact Hw | now apply Qinv_lt_0_compat]. }
    set (bh := w / (iw / ih)) in *.
    assert (Eb : bh * iw == w * ih) by (unfold bh; field; split; lra).
    split; [rewrite <- Qmult_assoc, (Qmult_comm zoom ih), Qmult_assoc, <- Eb; ring|].
    split; [unfold Qdiv; ring|]. split; [unfold Qdiv; ring|].
    split.
    + intro Z1. left. rewrite Z1. split; [ring | lra].
    + intros [Z0 Z1]. unfold Qdiv. change (/ 2) with (1 # 2).
      assert (w * zoom <= w) by nra. assert (0 <= w * zoom) by nra.
      assert (bh * zoom <= bh) by nra. assert (0 <= bh * zoom) by nra.
      repeat split; lra.
  - apply Qlt_bool_false in Er. pose proof (ratio_above w h (iw / ih) Hh Pr Er) as Hb.
    set (bw := h * (iw / ih)) in *.
    assert (Pb : 0 < bw) by (unfold bw; apply Qmult_lt_0_compat; assumption).
    assert (Eb : bw * ih == h * iw) by (unfold bw; field; lra).
    split; [rewrite <- Qmult_assoc, (Qmult_comm zoom ih), Qmult_assoc, Eb; ring|].
    split; [unfold Qdiv; ring|]. split; [unfold Qdiv; ring|].
    split.
    + intro Z1. right. rewrite Z1. split; [ring | lra].
    + intros [Z0 Z1]. unfold Qdiv. change (/ 2) with (1 # 2).
      assert (h * zoom <= h) by nra. assert (0 <= h * zoom) by nra.
      assert (bw * zoom <= bw) by nra. assert (0 <= bw * zoom) by nra.
      repeat split; lra.
Qed.

(** A 1200 x 900 picture in a 200 x 200 cell at zoom 1. *)
Lemma contain_fit_landscape :
  painted (drawImage 1 (Some Samples.bmp) 0 0 200 200 1) <> []
  /\ exists dest,
       drawImage 1 (Some Samples.bmp) 0 0 200 200 1
       = done [drawClipped Samples.bmp
                 {| rect_x := 0; rect_y := 0; rect_w := 200; rect_h := 200 |} dest]
       /\ rect_x dest + rect_w dest / 2 == 0 + 200 / 2.
Proof.
  split; [vm_compute; discriminate|].
  destruct (contain_fit 1 1 0 0 200 200 Samples.bmp) as (dest & E & _ & Hc & _).
  - reflexivity.
  - reflexivity.
  - vm_compute. reflexivity.
  - vm_compute. reflexivity.
  - exists dest. split; [exact E | exact Hc].
Defined.

(** X17: The watermark is painted only with a bitmap of positive sizes, once,
    at the width given as a percentage of the canvas width and with the
    bitmap's aspect ratio; in a corner it keeps the margin from the two
    edges of that corner, and centred it shares the canvas centre. *)
Theorem watermark_placement (wm : option WatermarkState) (bmp : option ImageBitmap)
        (W H marginX marginY : Q) :
  match wm, bmp with
  | Some m, Some img =>
      if ((0 <? width img) && (0 <? height img))%Z then
        exists r,
          drawWatermark wm bmp W H marginX marginY = [drawPlain img r (opacity m) 0]
          /\ rect_w r * 100 == W * size m
          /\ rect_w r * inject_Z (height img) == rect_h r * inject_Z (width img)
          /\ match position m with
             | top_left => rect_x r == marginX /\ rect_y r == marginY
             | top_right => rect_x r + rect_w r + marginX == W /\ rect_y r == marginY
             | bottom_left => rect_x r == marginX /\ rect_y r + rect_h r + marginY == H
             | bottom_right =>
                 rect_x r + rect_w r + marginX == W /\ rect_y r + rect_h r + marginY == H
             | center =>
                 rect_x r + rect_w r / 2 == W / 2 /\ rect_y r + rect_h r / 2 == H / 2
             end
      else drawWatermark wm bmp W H marginX marginY = []
  | _, _ => drawWatermark wm bmp W H marginX marginY = []
  end.
Proof.
  destruct wm as [m|], bmp as [img|]; try reflexivity.
  unfold drawWatermark.
  destruct (Z.ltb_spec 0 (width img)) as [Hw|Hw]; [|reflexivity].
  destruct (Z.ltb_spec 0 (height img)) as [Hh|Hh]; [|reflexivity].
  cbn [andb]. cbv zeta. eexists. split; [reflexivity|].
  cbn [rect_x rect_y rect_w rect_h].
  pose proof (inject_Z_pos _ Hw) as Piw. pose proof (inject_Z_pos _ Hh) as Pih.
  split; [field|]. split; [field; split; lra|].
  destruct (position m); cbn [fst snd]; split; unfold Qdiv; ring.
Qed.

End FitFacts.

(** ** The worker pool and the throttle *)

Section PoolFacts.
Import UIWorkerPool.

Lemma renderAll_nth {A : Type} (requests : list A) (ci : Z) (k : nat) (data : A) :
  (0 <= ci < WORKER_COUNT)%Z -> nth_error requests k = Some data ->
  nth_error (fst (renderAll ci requests)) k = Some (((ci + Z.of_nat k) mod WORKER_COUNT)%Z, data).
Proof.
  revert ci k. induction requests as [|d rest IH]; intros ci k Hci Hk.
  - destruct k; discriminate.
  - cbn [renderAll]. unfold renderWithWorkerPool.
    destruct (renderAll ((ci + 1) mod WORKER_COUNT) rest) as [more final] eqn:E.
    cbn [fst]. destruct k as [|k]; cbn [nth_error] in *.
    + injection Hk as <-. rewrite Z.add_0_r, Z.mod_small by exact Hci. reflexivity.
    + assert (Hn : (0 <= (ci + 1) mod WORKER_COUNT < WORKER_COUNT)%Z)
        by (apply Z.mod_pos_bound; reflexivity).
      specialize (IH _ k Hn Hk). rewrite E in IH. cbn [fst] in IH. rewrite IH.
      f_equal. f_equal. rewrite Zplus_mod_idemp_l. f_equal. lia.
Qed.

Lemma renderAll_final {A : Type} (requests : list A) (ci : Z) :
  (0 <= ci < WORKER_COUNT)%Z ->
  snd (renderAll ci requests) = ((ci + Z.of_nat (List.length requests)) mod WORKER_COUNT)%Z
  /\ List.length (fst (renderAll ci requests)) = List.length requests.
Proof.
  revert ci. induction requests as [|d rest IH]; intros ci Hci.
  - cbn. rewrite Z.add_0_r, Z.mod_small by exact Hci. auto.
  - cbn [renderAll]. unfold renderWithWorkerPool.
    assert (Hn : (0 <= (ci + 1) mod WORKER_COUNT < WORKER_COUNT)%Z)
      by (apply Z.mod_pos_bound; reflexivity).
    destruct (IH _ Hn) as [I1 I2].
    destruct (renderAll ((ci + 1) mod WORKER_COUNT) rest) as [more final].
    cbn [fst snd List.length] in *. split; [|now rewrite I2].
    rewrite I1, Zplus_mod_idemp_l. f_equal. lia.
Qed.

(** X18: The pool hands requests out in rotation: starting from a valid index
    ci, the k-th request is posted, unchanged, to worker (ci + k) mod 3,
    so any three requests in a row go to three different workers, and the
    index left is valid again. *)
Theorem pool_round_robin {A : Type} (requests : list A) (ci : Z) :
  (0 <= ci < WORKER_COUNT)%Z ->
  let posted := fst (renderAll ci requests) in
  let final := snd (renderAll ci requests) in
  map snd posted = requests
  /\ (forall k data, nth_error requests k = Some data ->
        nth_error posted k = Some (((ci + Z.of_nat k) mod 3)%Z, data))
  /\ (forall k w1 w2 w3,
        nth_error (map fst posted) k = Some w1 ->
        nth_error (map fst posted) (S k) = Some w2 ->
        nth_error (map fst posted) (S (S k)) = Some w3 ->
        w1 <> w2 /\ w2 <> w3 /\ w1 <> w3)
  /\ (0 <= final < WORKER_COUNT)%Z
  /\ final = ((ci + Z.of_nat (List.length requests)) mod 3)%Z.
Proof.
  intro Hci. cbv zeta.
  assert (Hnth : forall k data, nth_error requests k = Some data ->
            nth_error (fst (renderAll ci requests)) k
            = Some (((ci + Z.of_nat k) mod 3)%Z, data)).
  { intros k data Hk. apply renderAll_nth; assumption. }
  destruct (renderAll_final requests ci Hci) as [Hf Hlen].
  split.
  { apply nth_error_ext. intro k. rewrite nth_error_map.
    destruct (nth_error requests k) as [data|] eqn:Ek.
    - rewrite (Hnth k data Ek). reflexivity.
    - apply nth_error_None in Ek.
      assert (N : nth_error (fst (renderAll ci requests)) k = None)
        by (apply nth_error_None; lia).
      now rewrite N. }
  split; [exact Hnth|].
  split.
  { assert (W : forall k w, nth_error (map fst (fst (renderAll ci requests))) k = Some w ->
                  w = ((ci + Z.of_nat k) mod 3)%Z).
    { intros k w Hk. rewrite nth_error_map in Hk.
      destruct (nth_error requests k) as [data|] eqn:Ek.
      - rewrite (Hnth k data Ek) in Hk. cbn in Hk. congruence.
      - apply nth_error_None in Ek.
        assert (N : nth_error (fst (renderAll ci requests)) k = None)
          by (apply nth_error_None; lia).
        rewrite N in Hk. discriminate. }
    intros k w1 w2 w3 H1 H2 H3.
    apply W in H1, H2, H3. subst.
    rewrite !Nat2Z.inj_succ.
    pose proof (Z.mod_pos_bound (ci + Z.of_nat k) 3 eq_refl).
    pose proof (Z.div_mod (ci + Z.of_nat k) 3 ltac:(lia)).
    pose proof (Z.mod_pos_bound (ci + Z.succ (Z.of_nat k)) 3 eq_refl).
    pose proof (Z.div_mod (ci + Z.succ (Z.of_nat k)) 3 ltac:(lia)).
    pose proof (Z.mod_pos_bound (ci + Z.succ (Z.succ (Z.of_nat k))) 3 eq_refl).
    pose proof (Z.div_mod (ci + Z.succ (Z.succ (Z.of_nat k))) 3 ltac:(lia)).
    lia. }
  split; [|exact Hf].
  rewrite Hf. apply Z.mod_pos_bound. reflexivity.
Qed.

(** Four requests from the initial index 0. *)
Lemma pool_round_robin_four :
  map fst (fst (renderAll 0 ["a"; "b"; "c"; "d"])) = [0; 1; 2; 0]%Z
  /\ map snd (fst (renderAll 0 ["a"; "b"; "c"; "d"])) = ["a"; "b"; "c"; "d"].
Proof.
  split; [reflexivity|].
  refine (proj1 (pool_round_robin ["a"; "b"; "c"; "d"] 0 _)).
  unfold WORKER_COUNT. lia.
Defined.

End PoolFacts.

Section ThrottleFacts.
Import Throttle.

Lemma runs_snoc (delay lastCall : Z) (pre : list Z) (now : Z) :
  runs delay lastCall (pre ++ [now])
  = runs delay lastCall pre
    ++ (if (delay <=? now - last (runs delay lastCall pre) lastCall)%Z then [now] else []).
Proof.
  revert lastCall. induction pre as [|t rest IH]; intro lastCall.
  - cbn [app runs last]. unfold call. destruct (delay <=? now - lastCall)%Z; reflexivity.
  - cbn [app runs]. unfold call.
    destruct (delay <=? t - lastCall)%Z.
    + rewrite IH. cbn [app]. f_equal. f_equal.
      destruct (runs delay t rest) as [|x xs] eqn:E; [reflexivity|].
      change (last (t :: x :: xs) lastCall) with (last (x :: xs) lastCall).
      assert (L : forall (l : list Z) a d d', last (a :: l) d = last (a :: l) d').
      { induction l as [|b l IHl]; intros a d d'; [reflexivity|].
        change (last (b :: l) d = last (b :: l) d'). apply IHl. }
      now rewrite (L xs x t lastCall).
    + apply IH.
Qed.

Lemma runs_gaps (delay : Z) (times : list Z) (lastCall : Z) (i : nat) (a b : Z) :
  nth_error (lastCall :: runs delay lastCall times) i = Some a ->
  nth_error (lastCall :: runs delay lastCall times) (S i) = Some b ->
  (delay <= b - a)%Z.
Proof.
  revert lastCall i a b. induction times as [|t rest IH]; intros lastCall i a b Ha Hb.
  - cbn in Hb. destruct i; discriminate.
  - cbn [runs] in *. unfold call in *.
    destruct (Z.leb_spec delay (t - lastCall)) as [Hrun|Hskip].
    + destruct i as [|i].
      * cbn in Ha, Hb. injection Ha as <-. injection Hb as <-. exact Hrun.
      * cbn [nth_error] in Ha, Hb. apply (IH t i a b); assumption.
    + apply (IH lastCall i a b); assumption.
Qed.

(** X19: The throttled function runs a call exactly when it comes at least
    delay after the latest call that ran, or after time 0 when none has
    run yet; so any two calls that run one after the other are at least
    delay apart, and the calls that run keep their order. *)
Theorem throttle_spacing (delay : Z) (times : list Z) :
  (forall pre now,
      throttle delay (pre ++ [now])
      = throttle delay pre
        ++ (if (delay <=? now - last (throttle delay pre) 0)%Z then [now] else []))
  /\ (forall i a b,
        nth_error (0%Z :: throttle delay times) i = Some a ->
        nth_error (0%Z :: throttle delay times) (S i) = Some b ->
        (delay <= b - a)%Z)
  /\ (forall pre post, times = pre ++ post ->
        exists rest, throttle delay times = throttle delay pre ++ rest
                     /\ incl rest post).
Proof.
  split; [intros pre now; apply runs_snoc|].
  split; [intros i a b; apply runs_gaps|].
  intros pre post ->. unfold throttle. generalize 0%Z as lastCall.
  induction pre as [|t rest IH]; intro lastCall.
  - exists (runs delay lastCall post). split; [reflexivity|].
    clear. revert lastCall. induction post as [|t r IH]; intro lastCall; [apply incl_nil_l|].
    cbn [runs]. unfold call. destruct (delay <=? t - lastCall)%Z.
    + apply incl_cons; [now left|]. apply incl_tl. apply IH.
    + apply incl_tl. apply IH.
  - cbn [app runs]. unfold call. destruct (delay <=? t - lastCall)%Z.
    + destruct (IH t) as (r & -> & Hr). exists r. split; [reflexivity | exact Hr].
    + apply IH.
Qed.

End ThrottleFacts.

(** ** The preview worker's messages *)

Section WorkerLoopFacts.
Import Types Compositor UIWorkerLoop WorkerLoopNotions JSMathFacts.

Lemma differs_false (size : Z) (v : JSNumber) : differs size v = false <-> sameNumber size v.
Proof.
  destruct v as [q|]; cbn.
  - rewrite negb_false_iff, Qeq_bool_iff. split; intro H; now symmetry.
  - split; [discriminate | intros []].
Qed.

Lemma toSize_cases (v : JSNumber) :
  (exists n, toSize v = Some n /\ accepted v n) \/ (toSize v = None /\ refused v).
Proof.
  destruct v as [q|]; [|right; split; [reflexivity | now left]].
  unfold toSize, integerPart, accepted, refused.
  assert (TP : (1 <= 2 ^ 53)%Z) by (vm_compute; discriminate).
  generalize dependent (2 ^ 53)%Z. intros T TP.
  destruct (Qle_bool 0 q) eqn:E0.
  - apply Qle_bool_iff in E0.
    assert (F0 : (0 <= Qfloor q)%Z).
    { apply Qfloor_resp_le in E0. exact E0. }
    destruct (Z.ltb_spec (Qfloor q) 0); [lia|].
    destruct (Z.ltb_spec (T - 1) (Qfloor q)) as [Hb|Hb]; cbn [orb].
    + right. split; [reflexivity|]. right. exists q. split; [reflexivity|]. right.
      pose proof (Qfloor_le q) as L.
      assert (inject_Z T <= inject_Z (Qfloor q)) by (rewrite <- Zle_Qle; lia). lra.
    + left. exists (Qfloor q). split; [reflexivity|]. exists q.
      split; [reflexivity|]. split; [lra|]. split; [|lia].
      pose proof (Qlt_floor q) as L.
      assert (inject_Z (Qfloor q + 1) <= inject_Z T) by (rewrite <- Zle_Qle; lia). lra.
  - apply Qle_bool_false in E0.
    pose proof (Qle_ceiling q) as U. pose proof (Qceiling_lt q) as L.
    assert (A : (Qceiling q - 1 < 0)%Z).
    { rewrite Zlt_Qlt. eapply Qlt_trans; [exact L|]. exact E0. }
    destruct (Qlt_le_dec (- (1)) q) as [Hq|Hq].
    + assert (B : (-1 < Qceiling q)%Z).
      { rewrite Zlt_Qlt. eapply Qlt_le_trans; [|exact U]. exact Hq. }
      assert (C0 : Qceiling q = 0%Z) by lia.
      rewrite C0.
      destruct (Z.ltb_spec 0 0); [lia|].
      destruct (Z.ltb_spec (T - 1) 0); [lia|]. cbn [orb].
      left. exists 0%Z. split; [reflexivity|]. exists q.
      split; [reflexivity|]. split; [exact Hq|]. split.
      * assert (inject_Z 1 <= inject_Z T) by (rewrite <- Zle_Qle; lia).
        change (inject_Z 1) with 1 in *. lra.
      * assert (F : (Qfloor q < 0)%Z).
        { rewrite Zlt_Qlt. eapply Qle_lt_trans; [apply Qfloor_le|]. exact E0. }
        lia.
    + assert (B : (Qceiling q <= -1)%Z).
      { assert (C : (Qceiling q - 1 < -1)%Z).
        { rewrite Zlt_Qlt. eapply Qlt_le_trans; [exact L|]. exact Hq. }
        lia. }
      destruct (Z.ltb_spec (Qceiling q) 0); [|lia]. cbn [orb].
      right. split; [reflexivity|]. right. exists q. split; [reflexivity|]. now left.
Qed.

Lemma accepted_not_refused (v : JSNumber) (n : Z) : accepted v n -> refused v -> False.
Proof.
  intros (q & -> & H1 & H2 & _) [H|(q' & E & [H|H])]; [discriminate| |];
    injection E as <-; lra.
Qed.

Lemma accepted_unique (v : JSNumber) (n m : Z) : accepted v n -> accepted v m -> n = m.
Proof.
  intros (q & -> & _ & _ & ->) (q' & E & _ & _ & ->). injection E as <-. reflexivity.
Qed.

Lemma toSize_accepted (v : JSNumber) (n : Z) : accepted v n -> toSize v = Some n.
Proof.
  intro H. destruct (toSize_cases v) as [(m & E & Hm)|(_ & R)].
  - now rewrite (accepted_unique v n m H Hm).
  - destruct (accepted_not_refused v n H R).
Qed.

Lemma toSize_refused (v : JSNumber) : refused v -> toSize v = None.
Proof.
  intro R. destruct (toSize_cases v) as [(m & _ & Hm)|(E & _)]; [|exact E].
  destruct (accepted_not_refused v m Hm R).
Qed.

Lemma drawCanvas_clears (W H : Q) (st : WorkerState) (bm : WorkerBitmapsPayload) :
  exists rest, painted (UIWorker.drawCanvas W H st bm) = clearRect 0 0 W H :: rest.
Proof.
  unfold UIWorker.drawCanvas.
  destruct (JSMath.len (images st) =? 0)%Z.
  - cbn. eauto.
  - unfold andThen at 1. cbn [thrown done painted app]. eauto.
Qed.

Lemma paint_paintedAt (g : Global) (w h : Z) (st : WorkerState) (bm : WorkerBitmapsPayload) :
  ctx g = true -> paintedAt (paint g w h st bm) w h st bm.
Proof.
  intro Hc. unfold paintedAt, paint. cbn [fst snd ctx canvas].
  split; [exact Hc|]. split; [reflexivity|]. split; [reflexivity|].
  split; [apply drawCanvas_clears | reflexivity].
Qed.

(** The message is neither an init with a canvas nor a draw the worker is
    ready for. *)
Lemma onmessage_skip (g : Global) (d : Data) :
  (data_type d <> "init" \/ data_canvas d = None) ->
  (data_type d <> "draw" \/ ctx g = false \/ canvas g = None \/ data_state d = None
   \/ data_bitmaps d = None \/ data_viewport d = None) ->
  onmessage g d = (g, [], Returned).
Proof.
  intros Hi Hs. unfold onmessage.
  assert (E : match String.eqb (data_type d) "init", data_canvas d with
              | true, Some c => true
              | _, _ => false
              end = false).
  { destruct Hi as [Hi|Hi].
    - apply String.eqb_neq in Hi. now rewrite Hi.
    - rewrite Hi. now destruct (String.eqb (data_type d) "init"). }
  destruct (String.eqb (data_type d) "init"), (data_canvas d); try discriminate;
    (destruct (String.eqb_spec (data_type d) "draw") as [Ed|Ed]; [|reflexivity];
     destruct (ctx g); [|reflexivity];
     destruct (canvas g) as [[w h]|]; [|reflexivity];
     destruct (data_state d); [|reflexivity];
     destruct (data_bitmaps d); [|reflexivity];
     destruct (data_viewport d) as [[vw vh]|]; [|reflexivity];
     exfalso; intuition congruence).
Qed.

Lemma onmessage_ready (g : Global) (d : Data) (w h : Z) (st : WorkerState)
      (bm : WorkerBitmapsPayload) (vw vh : JSNumber) :
  ready g d w h st bm vw vh ->
  onmessage g d
  = if differs w vw || differs h vh then
      match toSize vw with
      | None => (g, [], Rejected)
      | Some w' =>
          match toSize vh with
          | None => ({| ctx := ctx g; canvas := Some (w', h) |}, [], Rejected)
          | Some h' => paint g w' h' st bm
          end
      end
    else paint g w h st bm.
Proof.
  intros (Hd & Hc & Hk & Hs & Hb & Hv). unfold onmessage.
  rewrite Hd, Hc, Hk, Hs, Hb, Hv. cbn [String.eqb Ascii.eqb Bool.eqb].
  destruct (data_canvas d); reflexivity.
Qed.

(** X20: An init message with a canvas makes the preview worker hold that
    canvas and whatever context it gives. A draw message that carries
    state, bitmaps and viewport, received once the worker holds a canvas
    and a context, paints what drawCanvas paints, starting with clearing
    the canvas, at the width and height read back from the canvas: its
    own size when the viewport has that size, else the viewport's width
    and height without their fractions, which the canvas takes first.
    What drawCanvas throws is logged. A viewport width or height that is
    not finite, is -1 or less, or is 2^53 or more makes the size
    assignment throw outside the try block: nothing is painted, and the
    width is already changed when it is the height that is refused. Any
    other message paints nothing and changes nothing, only an init
    message with a canvas changes whether the worker holds a context, and
    a worker without one ignores every message until then. *)
Theorem worker_paints_when_ready (g : Global) (d : Data) :
  let out := onmessage g d in
  (forall c, data_type d = "init" -> data_canvas d = Some c ->
     out = ({| ctx := off_has2d c; canvas := Some (off_width c, off_height c) |},
            [], Returned))
  /\ (forall w h st bm vw vh, ready g d w h st bm vw vh ->
        (sameNumber w vw -> sameNumber h vh -> paintedAt out w h st bm)
        /\ (~ (sameNumber w vw /\ sameNumber h vh) ->
            (forall w' h', accepted vw w' -> accepted vh h' -> paintedAt out w' h' st bm)
            /\ (refused vw -> out = (g, [], Rejected))
            /\ (forall w', accepted vw w' -> refused vh ->
                  ctx (fst (fst out)) = true /\ canvas (fst (fst out)) = Some (w', h)
                  /\ snd (fst out) = [] /\ snd out = Rejected)))
  /\ ((data_type d <> "init" \/ data_canvas d = None) ->
      (data_type d <> "draw" \/ ctx g = false \/ canvas g = None \/ data_state d = None
       \/ data_bitmaps d = None \/ data_viewport d = None) ->
      out = (g, [], Returned))
  /\ ((data_type d <> "init" \/ data_canvas d = None) -> ctx (fst (fst out)) = ctx g)
  /\ (forall ds, ctx g = false ->
        (forall m, In m ds -> data_type m <> "init" \/ data_canvas m = None) ->
        onmessages g ds = (g, [])).
Proof.
  cbv zeta. split; [|split; [|split; [|split]]].
  - intros c Hi Hc. unfold onmessage. rewrite Hi, Hc. reflexivity.
  - intros w h st bm vw vh Hr. rewrite (onmessage_ready g d w h st bm vw vh Hr).
    destruct Hr as (_ & Hc & _). split.
    + intros Sw Sh. apply differs_false in Sw, Sh. rewrite Sw, Sh. cbn [orb].
      now apply paint_paintedAt.
    + intro Hn.
      assert (E : differs w vw || differs h vh = true).
      { destruct (differs w vw) eqn:Ew; [reflexivity|].
        destruct (differs h vh) eqn:Eh; [reflexivity|].
        exfalso. apply Hn. split; now apply differs_false. }
      rewrite E. split; [|split].
      * intros w' h' Aw Ah. rewrite (toSize_accepted _ _ Aw), (toSize_accepted _ _ Ah).
        now apply paint_paintedAt.
      * intro Rw. now rewrite (toSize_refused _ Rw).
      * intros w' Aw Rh. rewrite (toSize_accepted _ _ Aw), (toSize_refused _ Rh).
        cbn [fst snd ctx canvas]. auto.
  - apply onmessage_skip.
  - intro Hi. unfold onmessage.
    assert (E : match String.eqb (data_type d) "init", data_canvas d with
                | true, Some c => true
                | _, _ => false
                end = false).
    { destruct Hi as [Hi|Hi].
      - apply String.eqb_neq in Hi. now rewrite Hi.
      - rewrite Hi. now destruct (String.eqb (data_type d) "init"). }
    destruct (String.eqb (data_type d) "init"), (data_canvas d); try discriminate;
      (destruct (String.eqb (data_type d) "draw"); [|reflexivity];
       destruct (ctx g) eqn:Ec; [|now rewrite ?Ec];
       destruct (canvas g) as [[w h]|]; [|now rewrite ?Ec];
       destruct (data_state d); [|now rewrite ?Ec];
       destruct (data_bitmaps d); [|now rewrite ?Ec];
       destruct (data_viewport d) as [[vw vh]|]; [|now rewrite ?Ec];
       destruct (differs w vw || differs h vh); [|now rewrite ?Ec];
       destruct (toSize vw); [|now rewrite ?Ec];
       destruct (toSize vh); cbn [fst snd ctx paint]; now rewrite ?Ec).
  - intros ds Hc Hall. induction ds as [|m rest IH]; [reflexivity|].
    cbn [onmessages].
    rewrite (onmessage_skip g m); [|apply Hall; now left | auto].
    rewrite IH; [reflexivity|]. intros x Hx. apply Hall. now right.
Qed.

End WorkerLoopFacts.


(** ** Density tagging of resized images *)

Section ResizerFacts.
Import JSMath BulkImageResizer.

Lemma and_255 (x : Z) : and x 255 = (x mod 256)%Z.
Proof.
  unfold and. change (toInt32 255) with 255%Z. change 255%Z with (Z.ones 8).
  rewrite Z.land_ones by lia. unfold toInt32.
  change (2 ^ 31)%Z with 2147483648%Z. change (2 ^ 32)%Z with 4294967296%Z.
  change (2 ^ 8)%Z with 256%Z.
  Z.to_euclidean_division_equations. lia.
Qed.

Lemma sar_div (x n : Z) : (0 <= n)%Z -> sar x n = (toInt32 x / 2 ^ n)%Z.
Proof. intro H. unfold sar. now rewrite Z.shiftr_div_pow2. Qed.

Lemma be32_bytes4 (v : Z) : be32 (bytes4 v) = (v mod 2 ^ 32)%Z.
Proof.
  unfold bytes4, be32. rewrite !and_255, !sar_div by lia. unfold toInt32.
  change (2 ^ 31)%Z with 2147483648%Z. change (2 ^ 32)%Z with 4294967296%Z.
  change (2 ^ 8)%Z with 256%Z. change (2 ^ 24)%Z with 16777216%Z.
  change (2 ^ 16)%Z with 65536%Z.
  Z.to_euclidean_division_equations. lia.
Qed.

Lemma bytes4_bytes (v : Z) : Forall (fun b => (0 <= b <= 255)%Z) (bytes4 v).
Proof.
  unfold bytes4. repeat constructor; rewrite and_255;
    match goal with |- context [(?a mod 256)%Z] =>
      pose proof (Z.mod_pos_bound a 256 eq_refl) end; lia.
Qed.

Lemma crc32_range (buf : list Z) : (0 <= crc32 buf < 2 ^ 32)%Z.
Proof.
  unfold crc32, ushr. rewrite Z.shiftr_0_r. unfold toUint32.
  apply Z.mod_pos_bound. reflexivity.
Qed.

Lemma chunk_length (dpi : Q) : List.length (chunk dpi) = 21%nat.
Proof. reflexivity. Qed.

Lemma middle_slice {A : Type} (pre mid post : list A) :
  slice (List.length pre) (List.length pre + List.length mid) (pre ++ mid ++ post) = mid
  /\ firstn (List.length pre) (pre ++ mid ++ post) = pre
  /\ skipn (List.length pre + List.length mid) (pre ++ mid ++ post) = post.
Proof.
  unfold slice. split; [|split].
  - rewrite skipn_app, Nat.sub_diag, skipn_all. cbn [app skipn].
    replace (List.length pre + List.length mid - List.length pre)%nat
      with (List.length mid) by lia.
    rewrite firstn_app, Nat.sub_diag, firstn_all. cbn [firstn]. apply app_nil_r.
  - rewrite firstn_app, Nat.sub_diag, firstn_all. cbn [firstn]. apply app_nil_r.
  - rewrite app_assoc, <- length_app, skipn_app, Nat.sub_diag, skipn_all. reflexivity.
Qed.

(** X21: For a PNG the result is the input with one 21-byte chunk put in
    after the first 33 bytes, or at the end of a shorter input: taking
    the chunk out again gives the input back. The chunk is a well-formed
    pHYs chunk: its length field is 9, its two density fields hold
    round(dpi / 0.0254) modulo 2^32, the unit is the metre, its last
    four bytes are the CRC-32 of type and data, and all of it are bytes.
    For a dpi up to 10^8 the density fields hold the rounded value
    itself, which is within a half of dpi / 0.0254. *)
Theorem png_density_chunk (arr : list Z) (dpi : Q) :
  let out := setDPI arr dpi "image/png" in
  let k := Nat.min 33 (List.length arr) in
  let c := slice k (k + 21) out in
  List.length out = (List.length arr + 21)%nat
  /\ firstn k out ++ skipn (k + 21) out = arr
  /\ be32 (slice 0 4 c) = 9%Z
  /\ slice 4 8 c = [112; 72; 89; 115]%Z
  /\ be32 (slice 8 12 c) = (ppm dpi mod 2 ^ 32)%Z
  /\ be32 (slice 12 16 c) = (ppm dpi mod 2 ^ 32)%Z
  /\ slice 16 17 c = [1%Z]
  /\ be32 (slice 17 21 c) = crc32 (slice 4 17 c)
  /\ Forall (fun b => (0 <= b <= 255)%Z) c
  /\ (0 <= dpi <= 100000000 ->
      (ppm dpi mod 2 ^ 32 = ppm dpi)%Z
      /\ inject_Z (ppm dpi) - (1 # 2) <= dpi / (254 # 10000)
      /\ dpi / (254 # 10000) < inject_Z (ppm dpi) + (1 # 2)).
Proof.
  cbv zeta. unfold setDPI. cbn [String.eqb Ascii.eqb Bool.eqb andb].
  assert (Hk : List.length (firstn ihdrEnd arr) = Nat.min 33 (List.length arr))
    by apply length_firstn.
  destruct (middle_slice (firstn ihdrEnd arr) (chunk dpi) (skipn ihdrEnd arr))
    as (M1 & M2 & M3).
  rewrite chunk_length, Hk in *. rewrite M1.
  split.
  { rewrite !length_app, chunk_length, Hk, length_skipn. unfold ihdrEnd. lia. }
  split.
  { rewrite M2, M3. apply firstn_skipn. }
  split; [reflexivity|]. split; [reflexivity|].
  split; [apply (be32_bytes4 (ppm dpi))|]. split; [apply (be32_bytes4 (ppm dpi))|].
  split; [reflexivity|].
  split.
  { change (be32 (bytes4 (crc32 (chunkType ++ chunkData dpi)))
            = crc32 (chunkType ++ chunkData dpi)).
    rewrite be32_bytes4. apply Z.mod_small. apply crc32_range. }
  split.
  { unfold chunk, chunkData, chunkType.
    repeat (apply Forall_app; split); try apply bytes4_bytes;
      repeat constructor; lia. }
  intros [D0 D1]. unfold ppm, round.
  assert (E : dpi / (254 # 10000) == dpi * (10000 # 254)) by (unfold Qdiv; reflexivity).
  set (d := dpi / (254 # 10000)) in *.
  pose proof (Qfloor_le (d + (1 # 2))) as F1. pose proof (Qlt_floor (d + (1 # 2))) as F2.
  rewrite inject_Z_plus in F2. change (inject_Z 1) with 1 in F2.
  split; [|split; lra].
  apply Z.mod_small. split.
  - change 0%Z with (Qfloor 0). apply Qfloor_resp_le. lra.
  - assert (Qfloor (d + (1 # 2)) <= Qfloor 3937007875)%Z by (apply Qfloor_resp_le; lra).
    change (Qfloor 3937007875) with 3937007875%Z in *.
    change (2 ^ 32)%Z with 4294967296%Z. lia.
Qed.

(** X22: For a JPEG the dpi argument plays no part: an input that starts with
    the SOI marker FF D8 gets the same 18-byte JFIF APP0 segment right
    after the marker, with the unit dots per inch and both densities
    200; any other input is returned as it is. A type other than PNG or
    JPEG returns the input as it is. *)
Theorem jpeg_density_fixed (arr : list Z) (dpi dpi' : Q) (type : string) :
  let out := setDPI arr dpi "image/jpeg" in
  out = setDPI arr dpi' "image/jpeg"
  /\ (firstn 2 arr = [255; 216]%Z ->
      List.length out = (List.length arr + 18)%nat
      /\ firstn 2 out = [255; 216]%Z
      /\ skipn 20 out = skipn 2 arr
      /\ slice 2 4 out = [255; 224]%Z
      /\ be16 (slice 4 6 out) = 16%Z
      /\ slice 6 11 out = [74; 70; 73; 70; 0]%Z
      /\ slice 13 14 out = [1%Z]
      /\ be16 (slice 14 16 out) = 200%Z
      /\ be16 (slice 16 18 out) = 200%Z)
  /\ (firstn 2 arr <> [255; 216]%Z -> out = arr)
  /\ (type <> "image/png" -> type <> "image/jpeg" -> setDPI arr dpi type = arr).
Proof.
  cbv zeta. split; [reflexivity|]. split; [|split].
  - intro H. destruct arr as [|a0 [|a1 rest]]; try discriminate H.
    cbn [firstn] in H. injection H as -> ->.
    unfold setDPI. cbn [String.eqb Ascii.eqb Bool.eqb andb Z.eqb Pos.eqb firstn skipn].
    cbn [app0 app List.length]. unfold slice. cbn [Nat.sub firstn skipn be16].
    repeat split; try reflexivity. cbn [app List.length]. lia.
  - intro H. unfold setDPI. cbn [String.eqb Ascii.eqb Bool.eqb andb].
    destruct arr as [|a0 [|a1 rest]]; try reflexivity.
    destruct (Z.eqb_spec a0 255) as [->|]; [|reflexivity].
    destruct (Z.eqb_spec a1 216) as [->|]; [|reflexivity].
    exfalso. apply H. reflexivity.
  - intros Hp Hj. unfold setDPI.
    destruct (String.eqb_spec type "image/png"); [contradiction|].
    destruct (String.eqb_spec type "image/jpeg"); [contradiction|]. reflexivity.
Qed.

End ResizerFacts.

(** ** The checksum *)

Section CrcFacts.
Import JSMath BulkImageResizer.
Local Open Scope Z_scope.

Lemma U_range z : 0 <= toUint32 z < 4294967296.
Proof. unfold toUint32. apply Z.mod_pos_bound. reflexivity. Qed.

Lemma U_small z : 0 <= z < 4294967296 -> toUint32 z = z.
Proof. intro H. unfold toUint32. now apply Z.mod_small. Qed.

Lemma U_toInt32 z : toUint32 (toInt32 z) = toUint32 z.
Proof.
  unfold toUint32, toInt32.
  change (2 ^ 31) with 2147483648. change (2 ^ 32) with 4294967296.
  Z.to_euclidean_division_equations. lia.
Qed.

Lemma toInt32_U z : toInt32 (toUint32 z) = toInt32 z.
Proof.
  unfold toUint32, toInt32.
  change (2 ^ 31) with 2147483648. change (2 ^ 32) with 4294967296.
  Z.to_euclidean_division_equations. lia.
Qed.

Lemma U_land z : toUint32 z = Z.land z (Z.ones 32).
Proof. unfold toUint32. now rewrite Z.land_ones by lia. Qed.

Lemma U_lxor a b : toUint32 (Z.lxor a b) = Z.lxor (toUint32 a) (toUint32 b).
Proof.
  rewrite !U_land. apply Z.bits_inj'. intros n Hn.
  rewrite ?Z.land_spec, ?Z.lxor_spec, ?Z.land_spec.
  destruct (Z.testbit a n), (Z.testbit b n), (Z.testbit (Z.ones 32) n); reflexivity.
Qed.

Lemma U_xor a b : toUint32 (xor a b) = Z.lxor (toUint32 a) (toUint32 b).
Proof. unfold xor. now rewrite U_toInt32, U_lxor, !U_toInt32. Qed.

Lemma and_1 c : and c 1 = (toUint32 c) mod 2.
Proof.
  unfold and. change (toInt32 1) with 1. change 1 with (Z.ones 1) at 1.
  rewrite Z.land_ones by lia. unfold toInt32, toUint32.
  change (2 ^ 31) with 2147483648. change (2 ^ 32) with 4294967296. change (2 ^ 1) with 2.
  Z.to_euclidean_division_equations. lia.
Qed.

Lemma shiftr1_range u : 0 <= u < 4294967296 -> 0 <= Z.shiftr u 1 < 2147483648.
Proof.
  intro H. rewrite Z.shiftr_div_pow2 by lia. change (2 ^ 1) with 2.
  Z.to_euclidean_division_equations. lia.
Qed.

Lemma U_tableStep c : toUint32 (tableStep c) = bitStep (toUint32 c).
Proof.
  unfold tableStep, bitStep. rewrite and_1.
  pose proof (U_range c) as R. pose proof (shiftr1_range _ R) as R1.
  pose proof (Z.bit0_mod (toUint32 c)) as B.
  destruct (Z.testbit (toUint32 c) 0); cbn [Z.b2z] in B; rewrite <- B; cbn [Z.eqb].
  - rewrite U_xor. unfold ushr. f_equal. apply U_small. lia.
  - unfold ushr. apply U_small. lia.
Qed.

Lemma U_iter n c : toUint32 (Nat.iter n tableStep c) = Nat.iter n bitStep (toUint32 c).
Proof.
  induction n as [|n IH]; [reflexivity|]. rewrite !Nat.iter_succ. now rewrite U_tableStep, IH.
Qed.

Lemma bitStep_lxor a b : bitStep (Z.lxor a b) = Z.lxor (bitStep a) (bitStep b).
Proof.
  unfold bitStep. rewrite Z.lxor_spec, Z.shiftr_lxor.
  set (P := 3988292384). set (a' := Z.shiftr a 1). set (b' := Z.shiftr b 1).
  destruct (Z.testbit a 0), (Z.testbit b 0); cbn [xorb];
    apply Z.bits_inj'; intros n Hn; rewrite ?Z.lxor_spec;
    destruct (Z.testbit P n), (Z.testbit a' n), (Z.testbit b' n); reflexivity.
Qed.

Lemma bitStep_even m : bitStep (2 * m) = m.
Proof.
  unfold bitStep. rewrite Z.testbit_even_0. rewrite Z.shiftr_div_pow2 by lia.
  change (2 ^ 1) with 2. rewrite Z.mul_comm. apply Z.div_mul. lia.
Qed.

Lemma iter_bitStep_lxor n a b : Nat.iter n bitStep (Z.lxor a b) = Z.lxor (Nat.iter n bitStep a) (Nat.iter n bitStep b).
Proof.
  induction n as [|n IH]; [reflexivity|]. rewrite !Nat.iter_succ. now rewrite IH, bitStep_lxor.
Qed.

Lemma iter_bitStep_shift (n : nat) h : Nat.iter n bitStep (h * 2 ^ Z.of_nat n) = h.
Proof.
  revert h. induction n as [|n IH]; intro h.
  - cbn. lia.
  - rewrite Nat.iter_succ_r. rewrite Nat2Z.inj_succ, Z.pow_succ_r by lia.
    replace (h * (2 * 2 ^ Z.of_nat n)) with (2 * (h * 2 ^ Z.of_nat n)) by lia.
    rewrite bitStep_even. apply IH.
Qed.

Lemma split_byte x : 0 <= x -> x = Z.lxor ((x / 256) * 256) (x mod 256).
Proof.
  intro Hx. rewrite <- Z.add_nocarry_lxor.
  - pose proof (Z.div_mod x 256 ltac:(lia)). lia.
  - change 256 with (2 ^ 8). rewrite <- Z.shiftl_mul_pow2 by lia.
    apply Z.bits_inj'. intros n Hn. rewrite Z.land_spec, Z.bits_0.
    destruct (Z.ltb_spec n 8).
    + rewrite Z.shiftl_spec_low by lia. reflexivity.
    + rewrite Z.mod_pow2_bits_high by lia. apply andb_false_r.
Qed.

Lemma table_nth lo : 0 <= lo < 256 -> nth (Z.to_nat lo) table 0 = Nat.iter 8 bitStep lo.
Proof.
  intro H. unfold table. 
  assert (E : nth (Z.to_nat lo) (map tableEntry (range 256)) 0 = tableEntry lo).
  { unfold range. rewrite map_map.
    rewrite (nth_indep _ 0 (tableEntry (Z.of_nat 0))) by (rewrite length_map, length_seq; lia).
    rewrite (map_nth (fun x => tableEntry (Z.of_nat x)) (seq 0 (Z.to_nat 256)) 0%nat).
    rewrite seq_nth by lia. f_equal. lia. }
  rewrite E. unfold tableEntry, ushr. rewrite Z.shiftr_0_r, U_iter. f_equal.
  apply U_small. lia.
Qed.

Lemma U_crcStep crc byte : 0 <= byte < 256 ->
  toUint32 (crcStep crc byte) = toUint32 (bitwiseByte crc byte).
Proof.
  intro Hb. unfold crcStep, bitwiseByte. rewrite U_iter, U_xor.
  set (x := toUint32 (xor crc byte)).
  assert (Hx : 0 <= x < 4294967296) by apply U_range.
  assert (Elo : and (xor crc byte) 255 = x mod 256).
  { rewrite and_255. unfold x, toUint32. change (2 ^ 32) with 4294967296.
    Z.to_euclidean_division_equations. lia. }
  rewrite Elo.
  assert (Hlo : 0 <= x mod 256 < 256) by (apply Z.mod_pos_bound; lia).
  rewrite table_nth by exact Hlo.
  assert (Ex : x = Z.lxor (toUint32 crc) byte).
  { unfold x. rewrite U_xor. f_equal. apply U_small. lia. }
  rewrite (split_byte x) at 2 by lia.
  rewrite iter_bitStep_lxor. change 256 with (2 ^ Z.of_nat 8) at 2. rewrite iter_bitStep_shift.
  f_equal.
  - unfold ushr.
    rewrite U_small.
    + rewrite Ex. rewrite <- (Z.shiftr_div_pow2 _ 8) by lia.
      rewrite Z.shiftr_lxor. rewrite (Z.shiftr_div_pow2 byte) by lia.
      rewrite (Z.div_small byte) by (change (2 ^ 8) with 256; lia).
      now rewrite Z.lxor_0_r.
    + pose proof (U_range crc). rewrite Z.shiftr_div_pow2 by lia. change (2 ^ 8) with 256.
      Z.to_euclidean_division_equations. lia.
  - apply U_small. rewrite <- (U_small (x mod 256)) by lia.
    rewrite <- U_iter. apply U_range.
Qed.


Lemma toInt32_congr a a' : toUint32 a = toUint32 a' -> toInt32 a = toInt32 a'.
Proof. intro H. rewrite <- (toInt32_U a), H. apply toInt32_U. Qed.

Lemma xor_congr a a' b : toUint32 a = toUint32 a' -> xor a b = xor a' b.
Proof. intro H. unfold xor. rewrite (toInt32_congr a a' H). reflexivity. Qed.

Lemma fold_left_cons {A B : Type} (f : A -> B -> A) (b : B) (l : list B) (a : A) :
  fold_left f (b :: l) a = fold_left f l (f a b).
Proof. reflexivity. Qed.

Lemma bitwiseByte_congr a a' b : toUint32 a = toUint32 a' -> bitwiseByte a b = bitwiseByte a' b.
Proof. intro H. unfold bitwiseByte. rewrite (xor_congr a a' b H). reflexivity. Qed.

Lemma fold_agree (buf : list Z) (a a' : Z) :
  Forall (fun b => 0 <= b < 256) buf -> toUint32 a = toUint32 a' ->
  toUint32 (fold_left crcStep buf a) = toUint32 (fold_left bitwiseByte buf a').
Proof.
  intro H. revert a a'. induction H as [|b rest Hb _ IH]; intros a a' E.
  - exact E.
  - rewrite !fold_left_cons. apply IH. rewrite (U_crcStep a b Hb).
    rewrite (bitwiseByte_congr a a' b E). reflexivity.
Qed.

(** X23: The table-driven checksum is the bit-by-bit one: on bytes, crc32
    gives what eight applications of the table's own step to crc ^ byte
    give for each byte, from the same start and with the same final
    complement. *)
Theorem crc32_bitwise (buf : list Z) :
  Forall (fun b => 0 <= b < 256) buf ->
  crc32 buf = ushr (xor (fold_left bitwiseByte buf (-1)) (-1)) 0.
Proof.
  intro H. unfold crc32.
  rewrite (xor_congr _ (fold_left bitwiseByte buf (-1)) (-1)); [reflexivity|].
  apply fold_agree; [exact H | reflexivity].
Qed.

(** The checksum of the chunk type IEND. *)
Lemma crc32_of_IEND : crc32 [73; 69; 78; 68] = 2923585666.
Proof.
  rewrite crc32_bitwise.
  - vm_compute. reflexivity.
  - repeat constructor; lia.
Defined.

End CrcFacts.

(** ** The pixel grid of the freeform canvas *)

Section GridLoopFacts.
Import JSMath JSMathFacts GeometryFacts FreeformCanvas FreeformPreload.

Lemma gridLoop_never (fuel : nat) (x limit step : Q) :
  step <= 0 -> x <= limit -> gridLoop fuel x limit step = None.
Proof.
  intros Hs. revert x. induction fuel as [|fuel IH]; intros x Hx; [reflexivity|].
  cbn [gridLoop]. rewrite (proj2 (Qle_bool_iff x limit) Hx).
  rewrite IH by lra. reflexivity.
Qed.

Lemma gridLoop_ends (m : nat) (x limit step : Q) :
  0 < step -> limit < x + inject_Z (Z.of_nat m) * step ->
  forall fuel, (m < fuel)%nat -> exists xs, gridLoop fuel x limit step = Some xs.
Proof.
  intro Hs. revert x. induction m as [|m IH]; intros x Hm fuel Hf.
  - destruct fuel as [|fuel]; [lia|]. cbn [gridLoop].
    destruct (Qle_bool x limit) eqn:E; [|eauto].
    apply Qle_bool_iff in E. change (inject_Z (Z.of_nat 0)) with 0 in Hm. exfalso. lra.
  - destruct fuel as [|fuel]; [lia|]. cbn [gridLoop].
    destruct (Qle_bool x limit) eqn:E; [|eauto].
    destruct (IH (x + step)) with (fuel := fuel) as (xs & ->); [|lia|cbn; eauto].
    rewrite Nat2Z.inj_succ in Hm. unfold Z.succ in Hm. rewrite inject_Z_plus in Hm.
    change (inject_Z 1) with 1 in Hm. lra.
Qed.

Lemma gridLoop_lines (fuel : nat) (x limit step : Q) (xs : list Q) :
  gridLoop fuel x limit step = Some xs ->
  (forall y, In y xs -> y <= limit /\ exists k : nat, y == x + inject_Z (Z.of_nat k) * step)
  /\ (0 <= step -> forall k : nat, x + inject_Z (Z.of_nat k) * step <= limit ->
        exists y, In y xs /\ y == x + inject_Z (Z.of_nat k) * step).
Proof.
  revert x xs. induction fuel as [|fuel IH]; intros x xs H; [discriminate|].
  cbn [gridLoop] in H. destruct (Qle_bool x limit) eqn:E.
  - apply Qle_bool_iff in E.
    destruct (gridLoop fuel (x + step) limit step) as [r|] eqn:Er; [|discriminate].
    cbn in H. injection H as <-. destruct (IH _ _ Er) as [I1 I2]. split.
    + intros y [<-|Hy].
      * split; [exact E|]. exists 0%nat. cbn. ring.
      * destruct (I1 y Hy) as (Hl & k & Hk). split; [exact Hl|]. exists (S k).
        rewrite Hk, Nat2Z.inj_succ. unfold Z.succ. rewrite inject_Z_plus.
        change (inject_Z 1) with 1. ring.
    + intros Hs k Hk. destruct k as [|k].
      * exists x. split; [now left|]. cbn. ring.
      * destruct (I2 Hs k) as (y & Hy & Ey).
        { rewrite Nat2Z.inj_succ in Hk. unfold Z.succ in Hk. rewrite inject_Z_plus in Hk.
          change (inject_Z 1) with 1 in Hk. lra. }
        exists y. split; [now right|]. rewrite Ey, Nat2Z.inj_succ. unfold Z.succ.
        rewrite inject_Z_plus. change (inject_Z 1) with 1. ring.
  - injection H as <-. apply Qle_bool_false in E. split; [intros y []|].
    intros Hs k Hk. exfalso.
    assert (0 <= inject_Z (Z.of_nat k) * step).
    { apply Qmult_le_0_compat; [|exact Hs]. apply inject_Z_nonneg. lia. }
    lra.
Qed.

(** X24: With a positive grid size the pixel-grid loop of the canvas ends: it
    strokes the lines at the multiples of the grid size from 0 up to the
    canvas size and no others, and every snap-to-grid target that lies
    on the canvas is one of them. With a grid size of zero or less the
    loop never ends on a canvas of non-negative size. *)
Theorem pixel_grid_loop (c : Config) :
  (0 < gridSize c ->
     exists fuel0, forall fuel, (fuel0 <= fuel)%nat ->
       exists xs ys,
         pixelGrid fuel true c = Some (xs, ys)
         /\ (forall y, In y xs ->
               0 <= y <= size_w c /\ exists k : nat, y == inject_Z (Z.of_nat k) * gridSize c)
         /\ (forall y, In y ys ->
               0 <= y <= size_h c /\ exists k : nat, y == inject_Z (Z.of_nat k) * gridSize c)
         /\ (forall n, 0 <= gridLine c n <= size_w c -> exists y, In y xs /\ y == gridLine c n)
         /\ (forall n, 0 <= gridLine c n <= size_h c -> exists y, In y ys /\ y == gridLine c n))
  /\ (gridSize c <= 0 -> 0 <= size_w c \/ 0 <= size_h c ->
      forall fuel, pixelGrid fuel true c = None)
  /\ (forall fuel, pixelGrid fuel false c = Some ([], [])).
Proof.
  split; [|split; [|reflexivity]].
  - intro Hg.
    assert (Bound : forall limit, exists m : nat, limit < 0 + inject_Z (Z.of_nat m) * gridSize c).
    { intro limit. exists (Z.to_nat (Qfloor (limit / gridSize c) + 1)).
      pose proof (Qlt_floor (limit / gridSize c)) as F.
      destruct (Z.leb_spec 0 (Qfloor (limit / gridSize c) + 1)) as [P|P].
      - rewrite Z2Nat.id by exact P.
        assert (E : limit == limit / gridSize c * gridSize c) by (field; lra).
        rewrite E at 1. rewrite Qplus_0_l. apply Qmult_lt_compat_r; assumption.
      - replace (Z.to_nat (Qfloor (limit / gridSize c) + 1)) with 0%nat by lia.
        change (inject_Z (Z.of_nat 0)) with 0.
        assert (inject_Z (Qfloor (limit / gridSize c) + 1) < 0).
        { change 0 with (inject_Z 0). rewrite <- Zlt_Qlt. exact P. }
        assert (limit / gridSize c < 0) by lra.
        assert (E : limit == limit / gridSize c * gridSize c) by (field; lra).
        rewrite E. setoid_replace (0 + 0 * gridSize c) with (0 * gridSize c) by ring.
        apply Qmult_lt_compat_r; assumption. }
    destruct (Bound (size_w c)) as (mw & Hw). destruct (Bound (size_h c)) as (mh & Hh).
    exists (S (Nat.max mw mh)). intros fuel Hf.
    destruct (gridLoop_ends mw 0 (size_w c) (gridSize c) Hg Hw fuel ltac:(lia)) as (xs & Ex).
    destruct (gridLoop_ends mh 0 (size_h c) (gridSize c) Hg Hh fuel ltac:(lia)) as (ys & Ey).
    exists xs, ys. unfold pixelGrid. rewrite Ex, Ey. split; [reflexivity|].
    destruct (gridLoop_lines _ _ _ _ _ Ex) as [X1 X2].
    destruct (gridLoop_lines _ _ _ _ _ Ey) as [Y1 Y2].
    assert (Target : forall n, 0 <= gridLine c n ->
              exists k : nat, gridLine c n == 0 + inject_Z (Z.of_nat k) * gridSize c).
    { intros n Hn. unfold gridLine in *. exists (Z.to_nat (round (n / gridSize c))).
      destruct (Z.leb_spec 0 (round (n / gridSize c))) as [P|P].
      - rewrite Z2Nat.id by exact P. ring.
      - exfalso.
        assert (inject_Z (round (n / gridSize c)) < 0).
        { change 0 with (inject_Z 0). rewrite <- Zlt_Qlt. exact P. }
        assert (inject_Z (round (n / gridSize c)) * gridSize c < 0 * gridSize c)
          by (apply Qmult_lt_compat_r; assumption).
        lra. }
    assert (Pos : forall (y : Q) (k : nat), y == 0 + inject_Z (Z.of_nat k) * gridSize c -> 0 <= y).
    { intros y k E. rewrite E, Qplus_0_l. apply Qmult_le_0_compat; [|lra].
      apply inject_Z_nonneg. lia. }
    repeat split.
    + destruct (X1 y H) as (_ & k & Hk). eapply Pos; eauto.
    + apply (X1 y H).
    + destruct (X1 y H) as (_ & k & Hk). exists k. rewrite Hk. ring.
    + destruct (Y1 y H) as (_ & k & Hk). eapply Pos; eauto.
    + apply (Y1 y H).
    + destruct (Y1 y H) as (_ & k & Hk). exists k. rewrite Hk. ring.
    + intros n [N0 N1]. destruct (Target n N0) as (k & Hk).
      destruct (X2 ltac:(lra) k) as (y & Hy & Ey'); [rewrite <- Hk; exact N1|].
      exists y. split; [exact Hy|]. now rewrite Ey', Hk.
    + intros n [N0 N1]. destruct (Target n N0) as (k & Hk).
      destruct (Y2 ltac:(lra) k) as (y & Hy & Ey'); [rewrite <- Hk; exact N1|].
      exists y. split; [exact Hy|]. now rewrite Ey', Hk.
  - intros Hg Hsize fuel. unfold pixelGrid. destruct Hsize as [Hw|Hh].
    + now rewrite (gridLoop_never fuel 0 (size_w c) (gridSize c) Hg Hw).
    + rewrite (gridLoop_never fuel 0 (size_h c) (gridSize c) Hg Hh).
      destruct (gridLoop fuel 0 (size_w c) (gridSize c)); reflexivity.
Qed.

End GridLoopFacts.

(** ** Items following the image list *)

Section PreloadFacts.
Import JSMath JSMathFacts GeometryFacts ArrayFacts Types FreeformCanvas FreeformPreload.

Variable naturalSize : string -> Z * Z.
Variables cos sin : Q -> Q.
Variable PI : Q.

Lemma existingGet_some (prev : list Item) (id : string) (p : Item) :
  existingGet prev id = Some p -> In p prev /\ item_id p = id.
Proof.
  unfold existingGet. intro H. apply find_some in H. destruct H as [Hin Hid].
  split; [now apply in_rev | now apply String.eqb_eq].
Qed.

Lemma existingGet_none (prev : list Item) (id : string) :
  existingGet prev id = None -> forall p, In p prev -> item_id p <> id.
Proof.
  unfold existingGet. intros H p Hp E.
  pose proof (find_none _ _ H p (proj1 (in_rev prev p) Hp)) as F. cbv beta in F.
  rewrite E, String.eqb_refl in F. discriminate.
Qed.

Lemma placed_id (w h : Q) (prev : list Item) (n : Z) (im : ImageState) (idx : Z) :
  item_id (placed naturalSize cos sin PI w h prev n im idx) = id im.
Proof.
  unfold placed. destruct (existingGet prev (id im)) as [p|] eqn:E; [|reflexivity].
  cbn [item_id]. now apply existingGet_some in E.
Qed.

Lemma unique_by_id (l : list Item) (p q : Item) :
  NoDup (map item_id l) -> In p l -> In q l -> item_id p = item_id q -> p = q.
Proof.
  induction l as [|a r IH]; intros Hnd Hp Hq E; [destruct Hp|].
  cbn [map] in Hnd. inversion Hnd as [|? ? Hnotin Hnd']. subst.
  destruct Hp as [<-|Hp], Hq as [<-|Hq]; auto.
  - exfalso. apply Hnotin. rewrite E. now apply in_map.
  - exfalso. apply Hnotin. rewrite <- E. now apply in_map.
Qed.

(** X25: The items follow the image list: after the effect there is one item
    per image, in image order, with the image's id and the natural size
    of the element loaded from its url. An image that had an item keeps
    position, scale and rotation of the last item with its id; a new
    one starts unrotated at scale 0.4, on a ring of radius 60 to 160
    around the canvas centre. When the ids of the images are distinct,
    running the effect again changes nothing. *)
Theorem items_follow_images (w h : Q) (prev : list Item) (images : list ImageState) :
  let next := preload naturalSize cos sin PI w h prev images in
  List.length next = List.length images
  /\ map item_id next = map id images
  /\ (forall i im, nth_error images i = Some im ->
        exists it, nth_error next i = Some it
          /\ item_id it = id im
          /\ (item_naturalWidth it, item_naturalHeight it) = naturalSize (url im)
          /\ match existingGet prev (id im) with
             | Some p =>
                 In p prev /\ item_id p = id im
                 /\ item_x it = item_x p /\ item_y it = item_y p
                 /\ item_scale it = item_scale p /\ item_rotation it = item_rotation p
             | None =>
                 (forall p, In p prev -> item_id p <> id im)
                 /\ item_scale it = 4 # 10 /\ item_rotation it = 0
                 /\ exists angle radius,
                      60 <= radius <= 160
                      /\ item_x it = w / 2 + cos angle * radius
                      /\ item_y it = h / 2 + sin angle * radius
             end)
  /\ (NoDup (map id images) ->
      preload naturalSize cos sin PI w h next images = next).
Proof.
  cbv zeta. unfold preload.
  assert (Hid : forall prev',
            map item_id (mapi (placed naturalSize cos sin PI w h prev' (len images)) images)
            = map id images).
  { intro prev'. unfold mapi. generalize 0%Z. generalize (len images).
    induction images as [|im r IH]; intros n i; [reflexivity|].
    cbn [mapi_from map]. now rewrite placed_id, IH. }
  split; [apply mapi_len|]. split; [apply Hid|]. split.
  - intros i im Him. rewrite mapi_nth, Him. cbn [option_map].
    eexists. split; [reflexivity|]. split; [apply placed_id|].
    unfold placed. destruct (existingGet prev (id im)) as [p|] eqn:E.
    + cbn [item_naturalWidth item_naturalHeight item_x item_y item_scale item_rotation].
      destruct (existingGet_some _ _ _ E). split; [now destruct (naturalSize (url im))|].
      repeat split; auto.
    + cbn [item_naturalWidth item_naturalHeight item_x item_y item_scale item_rotation].
      split; [now destruct (naturalSize (url im))|].
      split; [now apply existingGet_none|]. split; [reflexivity|]. split; [reflexivity|].
      eexists. exists (60 + inject_Z (Z.of_nat i mod 5) * 25).
      split; [|split; reflexivity].
      pose proof (Z.mod_pos_bound (Z.of_nat i) 5 eq_refl) as [B0 B1].
      assert (0 <= inject_Z (Z.of_nat i mod 5)) by (apply inject_Z_nonneg; exact B0).
      assert (inject_Z (Z.of_nat i mod 5) <= 4).
      { change 4 with (inject_Z 4). rewrite <- Zle_Qle. lia. }
      lra.
  - intro Hnd.
    set (next := mapi (placed naturalSize cos sin PI w h prev (len images)) images).
    assert (Hnext : map item_id next = map id images) by apply Hid.
    apply nth_error_ext. intro i. rewrite mapi_nth.
    destruct (nth_error images i) as [im|] eqn:Him; cbn [option_map].
    + assert (Hit : nth_error next i
                    = Some (placed naturalSize cos sin PI w h prev (len images) im (Z.of_nat i))).
      { unfold next. rewrite mapi_nth, Him. reflexivity. }
      rewrite Hit. f_equal.
      set (it := placed naturalSize cos sin PI w h prev (len images) im (Z.of_nat i)) in *.
      assert (Eit : existingGet next (id im) = Some it).
      { destruct (existingGet next (id im)) as [q|] eqn:Eq.
        - destruct (existingGet_some _ _ _ Eq) as [Hq Hqid]. f_equal.
          apply (unique_by_id next); [now rewrite Hnext | exact Hq | |].
          + eapply nth_error_In; eauto.
          + unfold it. now rewrite placed_id.
        - exfalso. apply (existingGet_none _ _ Eq it); [eapply nth_error_In; eauto|].
          unfold it. apply placed_id. }
      unfold placed at 1. rewrite Eit.
      unfold it, placed. destruct (existingGet prev (id im)); reflexivity.
    + apply nth_error_None in Him. symmetry. apply nth_error_None.
      unfold next. rewrite mapi_len. exact Him.
Qed.

End PreloadFacts.

(** ** Text layers *)

Section TextFacts.
Import JSMath JSMathFacts Types AppText.

Variable measureText : Q -> string -> string -> Q.
Variables cos sin : Q -> Q.
Variable PI : Q.

Lemma pickLayer_spec (layers : list TextLayer) (mouseX mouseY : Q) :
  match pickLayer measureText cos sin PI layers mouseX mouseY with
  | Some layer =>
      hitsLayer measureText cos sin PI layer mouseX mouseY = true
      /\ exists below above,
           layers = below ++ layer :: above
           /\ forall l, In l above -> hitsLayer measureText cos sin PI l mouseX mouseY = false
  | None => forall l, In l layers -> hitsLayer measureText cos sin PI l mouseX mouseY = false
  end.
Proof.
  induction layers as [|a r IH]; cbn [pickLayer]; [intros l []|].
  destruct (pickLayer measureText cos sin PI r mouseX mouseY) as [hit|].
  - destruct IH as (Hh & below & above & -> & Ha). split; [exact Hh|].
    exists (a :: below), above. split; [reflexivity | exact Ha].
  - destruct (hitsLayer measureText cos sin PI a mouseX mouseY) eqn:E.
    + split; [exact E|]. exists [], r. split; [reflexivity | exact IH].
    + intros l [<-|Hl]; auto.
Qed.

(** X26: A press picks the topmost text layer under the pointer, the last hit
    one of the list, and selects it; a drag frame then puts every layer
    with its id where the picked layer was, moved by the pointer's
    displacement, and leaves the other layers and everything but the
    position as they are. After the release, and in the idle state,
    pointer moves change nothing. The id must not be the empty string,
    which the move handler takes for no target. *)
Theorem text_press_then_drag (layers : list TextLayer) (st : InteractionState)
        (x0 y0 x1 y1 : Q) (layer : TextLayer) :
  pickLayer measureText cos sin PI layers x0 y0 = Some layer ->
  layer_id layer <> EmptyString ->
  let down := handleMouseDown measureText cos sin PI layers st x0 y0 in
  let moved := handleMouseMove (snd down) layers x1 y1 in
  fst down = Some (layer_id layer)
  /\ hitsLayer measureText cos sin PI layer x0 y0 = true
  /\ (exists below above,
        layers = below ++ layer :: above
        /\ forall l, In l above -> hitsLayer measureText cos sin PI l x0 y0 = false)
  /\ List.length moved = List.length layers
  /\ (forall i l, nth_error layers i = Some l ->
        exists l', nth_error moved i = Some l'
          /\ (layer_id l <> layer_id layer -> l' = l)
          /\ (layer_id l = layer_id layer ->
              l' = moveLayer l (layer_x l') (layer_y l')
              /\ layer_x l' == layer_x layer + (x1 - x0)
              /\ layer_y l' == layer_y layer + (y1 - y0)))
  /\ handleMouseMove (handleMouseUp (snd down)) layers x1 y1 = layers
  /\ handleMouseMove idle layers x1 y1 = layers.
Proof.
  intros Hpick Hid. cbv zeta. unfold handleMouseDown. rewrite Hpick. cbn [fst snd].
  pose proof (pickLayer_spec layers x0 y0) as S. rewrite Hpick in S. destruct S as [Hh Htop].
  split; [reflexivity|]. split; [exact Hh|]. split; [exact Htop|].
  unfold handleMouseMove.
  cbn [dragging_mode text_target interaction_id offsetX offsetY negb selectedOf orKeep idle
       handleMouseUp].
  destruct (String.eqb_spec (layer_id layer) EmptyString) as [|_]; [contradiction|].
  split; [apply length_map|]. split; [|split; reflexivity].
  intros i l Hl. rewrite nth_error_map, Hl. cbn [option_map].
  eexists. split; [reflexivity|].
  destruct (String.eqb_spec (layer_id l) (layer_id layer)) as [E|E].
  - split; [intro; contradiction|]. intros _.
    cbn [moveLayer layer_x layer_y]. split; [reflexivity|]. split; ring.
  - split; [reflexivity | intro; contradiction].
Qed.

End TextFacts.

Section TextSamples.
Import Types AppText SceneNotions.

(** A press on the centre of a new text layer, dragged by (5, 7). *)
Lemma text_press_then_drag_sample :
  pickLayer (fun size _ _ => size) cos0 sin0 3
            (fst (addTextLayer "t1" (Some (800, 600)%Z) [])) 400 300
  = hd_error (fst (addTextLayer "t1" (Some (800, 600)%Z) []))
  /\ List.length
       (handleMouseMove
          (snd (handleMouseDown (fun size _ _ => size) cos0 sin0 3
                  (fst (addTextLayer "t1" (Some (800, 600)%Z) [])) idle 400 300))
          (fst (addTextLayer "t1" (Some (800, 600)%Z) [])) 405 307) = 1%nat.
Proof.
  split; [vm_compute; reflexivity|].
  refine (proj1 (proj2 (proj2 (proj2
           (text_press_then_drag (fun size _ _ => size) cos0 sin0 3
              (fst (addTextLayer "t1" (Some (800, 600)%Z) [])) idle 400 300 405 307
              (nth 0 (fst (addTextLayer "t1" (Some (800, 600)%Z) []))
                   {| layer_id := ""; layer_text := ""; layer_x := 0; layer_y := 0;
                      fontSize := 0; fontFamily := ""; color := ""; layer_rotation := 0;
                      shadow := false; backgroundColor := ""; backgroundOpacity := 0;
                      padding := 0 |}) _ _))))).
  - vm_compute. reflexivity.
  - cbn. discriminate.
Defined.

End TextSamples.

Section TextEditFacts.
Import JSMath Types AppText.

Lemma find_filter {A : Type} (p q : A -> bool) (l : list A) :
  (forall x, p x = true -> q x = true) -> find p (filter q l) = find p l.
Proof.
  intro H. induction l as [|a r IH]; [reflexivity|]. cbn [filter find].
  destruct (q a) eqn:Eq; cbn [find]; destruct (p a) eqn:Ep; auto.
  rewrite (H a Ep) in Eq. discriminate.
Qed.

Lemma find_fresh_last {A : Type} (p : A -> bool) (l : list A) (x : A) :
  (forall a, In a l -> p a = false) -> find p (l ++ [x]) = if p x then Some x else None.
Proof.
  intro H. induction l as [|a r IH]; [reflexivity|]. cbn [app find].
  rewrite (H a (or_introl eq_refl)). apply IH. intros b Hb. apply H. now right.
Qed.

(** X27: Editing the text layers: deleting removes exactly the layers with
    the id, and the selected layer stays the selected layer unless it is
    the deleted one, in which case nothing is selected. An update
    touches only layers with the selected id and, given no id, keeps
    all ids. A new layer goes on top and is selected, at half the
    canvas's width and height; it is the selected layer when its id is
    not empty and not in use. *)
Theorem text_layer_edits (layers : list TextLayer) (selected : option string)
        (id newId : string) (canvas : option (Z * Z)) (props : Patch) :
  let deleted := deleteTextLayer id selected layers in
  let updated := updateSelectedLayer props selected layers in
  let added := addTextLayer newId canvas layers in
  (forall l, In l (fst deleted) <-> In l layers /\ layer_id l <> id)
  /\ (selected = Some id -> selectedLayer (snd deleted) (fst deleted) = None)
  /\ (selected <> Some id ->
      selectedLayer (snd deleted) (fst deleted) = selectedLayer selected layers)
  /\ List.length updated = List.length layers
  /\ (forall i l, nth_error layers i = Some l -> selectedOf selected <> Some (layer_id l) ->
        nth_error updated i = Some l)
  /\ (patch_id props = None -> map layer_id updated = map layer_id layers)
  /\ (exists new, fst added = layers ++ [new] /\ layer_id new = newId
        /\ snd added = Some newId
        /\ (forall cw ch, canvas = Some (cw, ch) ->
              layer_x new * 2 == inject_Z cw /\ layer_y new * 2 == inject_Z ch)
        /\ (newId <> EmptyString -> (forall l, In l layers -> layer_id l <> newId) ->
            selectedLayer (snd added) (fst added) = Some new)).
Proof.
  cbv zeta. split; [|split; [|split; [|split; [|split; [|split]]]]].
  - intro l. unfold deleteTextLayer. cbn [fst]. rewrite filter_In, negb_true_iff, String.eqb_neq.
    tauto.
  - intros ->. unfold deleteTextLayer. cbn [fst snd]. now rewrite String.eqb_refl.
  - intro Hne. unfold deleteTextLayer, selectedLayer. cbn [fst snd].
    destruct selected as [sel|]; [|reflexivity].
    destruct (String.eqb_spec sel id) as [->|Hs]; [congruence|].
    destruct (selectedOf (Some sel)) as [s|] eqn:Es; [|reflexivity].
    assert (s = sel).
    { cbn in Es. destruct (String.eqb sel EmptyString); congruence. }
    subst s. apply find_filter. intros x Hx. apply String.eqb_eq in Hx.
    apply negb_true_iff, String.eqb_neq. congruence.
  - unfold updateSelectedLayer. destruct (selectedOf selected); [apply length_map | reflexivity].
  - intros i l Hl Hsel. unfold updateSelectedLayer.
    destruct (selectedOf selected) as [sel|]; [|exact Hl].
    rewrite nth_error_map, Hl. cbn [option_map].
    destruct (String.eqb_spec (layer_id l) sel) as [E|E]; [|reflexivity].
    exfalso. apply Hsel. now rewrite E.
  - intro Hp. unfold updateSelectedLayer. destruct (selectedOf selected) as [sel|]; [|reflexivity].
    rewrite map_map. apply map_ext. intro l.
    destruct (String.eqb (layer_id l) sel); [|reflexivity].
    unfold applyPatch. cbn [layer_id]. now rewrite Hp.
  - unfold addTextLayer. cbn [fst snd]. eexists. split; [reflexivity|].
    cbn [layer_id layer_x layer_y]. split; [reflexivity|]. split; [reflexivity|]. split.
    + intros cw ch ->. split; field.
    + intros Hne Hfresh. unfold selectedLayer, selectedOf.
      destruct (String.eqb_spec newId EmptyString) as [|_]; [contradiction|].
      rewrite find_fresh_last.
      * cbn [layer_id]. now rewrite String.eqb_refl.
      * intros l Hl. apply String.eqb_neq. now apply Hfresh.
Qed.

End TextEditFacts.
